(** * Kids soundboard: the persistence service and the recording session

    A shallow embedding of [src/database.service.ts] (the [DatabaseService]
    wrapper around the browser's IndexedDB), of the recording and form
    handlers of [src/app.component.ts] and of the service worker [src/sw.js],
    with the properties the specification states about them and further
    properties read off the code.

    The browser is the environment of this code.  Its parts are modelled
    as far as the code drives them: an IndexedDB object store with a key
    path, a key generator and indexes; the open request with its upgrade
    event, and the time during which it is in flight; a media recorder
    delivering chunks and firing its stop event; the alert, console and
    object-URL tables; the worker's caches.

    Awaited calls are taken as one step.  Where the code leaves a call
    running without awaiting it ([addItem]), or waits on a promise that
    others wait on too ([dbPromise]), the order of events is modelled. *)

From stdpp Require Import base numbers option list strings gmap sorting.

Local Open Scope Z_scope.

(** ** Values the browser hands around *)

Inductive DOMException :=
  | ConstraintError | DataError | ReadOnlyError | NotFoundError
  | VersionError | AbortError | InvalidStateError
  | NotAllowedError | NotReadableError | NotSupportedError.

(** What a promise is rejected with: [request.error], a caught exception, or
    a bare string as in [reject('IndexedDB not supported')]. *)
Inductive Reason :=
  | Exception (e : DOMException)
  | Message (s : string).

(** A settled promise. *)
Inductive Promise (A : Type) :=
  | Fulfilled (a : A)
  | Rejected (r : Reason).
Arguments Fulfilled {A} a.
Arguments Rejected {A} r.

Definition is_rejected {A} (p : Promise A) : bool :=
  match p with Rejected _ => true | Fulfilled _ => false end.

(** A [Blob]: opaque bytes with a MIME type.  A [File] is a [Blob]. *)
Module Blob.
Record t := mk { bytes : list Byte.byte; type : string }.

(** [new Blob(blobParts, { type })]: the parts' bytes, in order. *)
Definition new (blobParts : list t) (ty : string) : t :=
  {| bytes := concat (map bytes blobParts); type := ty |}.
End Blob.

(** ** The records of [database.service.ts] *)

Module Category.
Record t := mk { id : option Z; name : string; picture : Blob.t }.
End Category.

Module Item.
Record t := mk {
  id : option Z;
  categoryId : Z;
  name : string;
  picture : Blob.t;
  sound : Blob.t
}.
End Item.

Definition DB_NAME : string := "KidsSoundboardDB".
Definition DB_VERSION : Z := 1.
Definition CATEGORIES_STORE : string := "categories".
Definition ITEMS_STORE : string := "items".

(** ** IndexedDB object stores *)

(** What an object store needs of its values: evaluating a key path to a
    numeric key, and injecting a generated key at the path ['id'] (the only
    key path the service declares). *)
Class Storable (V : Type) := {
  evaluate : string → V → option Z;
  inject : Z → V → V;
  evaluate_inject_id : ∀ k v, evaluate "id" (inject k v) = Some k;
  evaluate_inject_other : ∀ p k v, p ≠ "id" → evaluate p (inject k v) = evaluate p v
}.

Definition Category_evaluate (p : string) (c : Category.t) : option Z :=
  if decide (p = "id") then Category.id c else None.

Definition Category_inject (k : Z) (c : Category.t) : Category.t :=
  {| Category.id := Some k; Category.name := Category.name c;
     Category.picture := Category.picture c |}.

Definition Item_evaluate (p : string) (i : Item.t) : option Z :=
  if decide (p = "id") then Item.id i
  else if decide (p = "categoryId") then Some (Item.categoryId i)
  else None.

Definition Item_inject (k : Z) (i : Item.t) : Item.t :=
  {| Item.id := Some k; Item.categoryId := Item.categoryId i;
     Item.name := Item.name i; Item.picture := Item.picture i;
     Item.sound := Item.sound i |}.

#[export] Instance Category_Storable : Storable Category.t.
Proof.
  refine {| evaluate := Category_evaluate; inject := Category_inject |}.
  - done.
  - intros p k v Hp. unfold Category_evaluate. by rewrite !decide_False.
Defined.

#[export] Instance Item_Storable : Storable Item.t.
Proof.
  refine {| evaluate := Item_evaluate; inject := Item_inject |}.
  - done.
  - intros p k v Hp. unfold Item_evaluate. by rewrite !(decide_False (P := p = "id")).
Defined.

Module IDB.

(** An index: its key path, its uniqueness flag and its entries, each an
    (index key, primary key) pair. *)
Record Index := mkIndex {
  ix_keyPath : string;
  ix_unique : bool;
  entries : gset (Z * Z)
}.

Record ObjectStore (V : Type) := mkStore {
  keyPath : string;
  autoIncrement : bool;
  records : gmap Z V;
  currentNumber : Z;
  indexes : gmap string Index
}.
Arguments mkStore {V}.
Arguments keyPath {V}.
Arguments autoIncrement {V}.
Arguments records {V}.
Arguments currentNumber {V}.
Arguments indexes {V}.

(** The key generator stops at 2^53. *)
Definition MAX_KEY : Z := 2 ^ 53.

Inductive IDBTransactionMode := readonly | readwrite.

Section store.
Context {V : Type} `{!Storable V}.

Definition emptyStore (kp : string) (ai : bool) : ObjectStore V :=
  mkStore kp ai ∅ 1 ∅.

(** The entry a value contributes to an index, if its key path
    evaluates. *)
Definition entry_of (ix : Index) (k : Z) (v : V) : gset (Z * Z) :=
  match evaluate (ix_keyPath ix) v with
  | Some p => {[ (p, k) ]}
  | None => ∅
  end.

Definition index_add (k : Z) (v : V) (ix : Index) : Index :=
  mkIndex (ix_keyPath ix) (ix_unique ix) (entries ix ∪ entry_of ix k v).

Definition index_remove (k : Z) (ix : Index) : Index :=
  mkIndex (ix_keyPath ix) (ix_unique ix)
          (filter (λ e, e.2 ≠ k) (entries ix)).

(** A unique index refuses a second record with the same index key. *)
Definition index_conflict (v : V) (ix : Index) : bool :=
  ix_unique ix &&
  match evaluate (ix_keyPath ix) v with
  | Some p => bool_decide (Exists (λ e, e.1 = p) (elements (entries ix)))
  | None => false
  end.

Definition any_conflict (v : V) (s : ObjectStore V) : bool :=
  bool_decide (Exists (λ ix, index_conflict v ix = true)
                      (map_to_list (indexes s)).*2).

Definition put_record (k : Z) (v : V) (n : Z) (s : ObjectStore V)
  : ObjectStore V :=
  mkStore (keyPath s) (autoIncrement s) (<[k := v]> (records s)) n
          (index_add k v <$> indexes s).

(** An explicit key moves the generator past it, capped at 2^53. *)
Definition bump (k : Z) (n : Z) : Z :=
  let v := Z.min k MAX_KEY in
  if decide (n ≤ v) then v + 1 else n.

(** [store.add(value)]: store [value] under a key that is not taken.
    Without a key at the key path the generator supplies one and it is
    injected into the value; a failed request leaves the store as it
    was. *)
Definition add (mode : IDBTransactionMode) (v : V) (s : ObjectStore V)
  : Promise Z * ObjectStore V :=
  match mode with
  | readonly => (Rejected (Exception ReadOnlyError), s)
  | readwrite =>
    match evaluate (keyPath s) v with
    | None =>
      if autoIncrement s then
        let k := currentNumber s in
        if decide (MAX_KEY < k) then (Rejected (Exception ConstraintError), s)
        else if any_conflict v s then (Rejected (Exception ConstraintError), s)
        else (Fulfilled k, put_record k (inject k v) (k + 1) s)
      else (Rejected (Exception DataError), s)
    | Some k =>
      if decide (is_Some (records s !! k))
      then (Rejected (Exception ConstraintError), s)
      else if any_conflict v s then (Rejected (Exception ConstraintError), s)
      else
        let n := if autoIncrement s then bump k (currentNumber s)
                 else currentNumber s in
        (Fulfilled k, put_record k v n s)
    end
  end.

(** [store.delete(key)]: remove the record and its index entries;
    nothing happens when the key is absent. *)
Definition delete (mode : IDBTransactionMode) (k : Z) (s : ObjectStore V)
  : Promise unit * ObjectStore V :=
  match mode with
  | readonly => (Rejected (Exception ReadOnlyError), s)
  | readwrite =>
    (Fulfilled (),
     mkStore (keyPath s) (autoIncrement s) (base.delete k (records s))
             (currentNumber s) (index_remove k <$> indexes s))
  end.

Definition by_key (a b : Z * V) : Prop := a.1 ≤ b.1.
#[local] Instance by_key_dec : RelDecision by_key.
Proof. intros a b. unfold by_key. apply _. Defined.

(** [store.getAll()]: every record, by ascending key. *)
Definition getAll (s : ObjectStore V) : list V :=
  (merge_sort by_key (map_to_list (records s))).*2.

(** The primary keys an index holds for an index key, ascending. *)
Definition index_keys (ix : Index) (q : Z) : list Z :=
  merge_sort Z.le (elements (filter (λ e, e.1 = q) (entries ix))).*2.

(** [index.getAll(query)]: the records the index lists under [query]. *)
Definition index_getAll (s : ObjectStore V) (ix : Index) (q : Z) : list V :=
  omap (λ k, records s !! k) (index_keys ix q).

(** [index.getAll(undefined)]: without a query every record the index
    lists, by ascending index key and then primary key. *)
Definition by_entry (a b : Z * Z) : Prop := a.1 < b.1 ∨ (a.1 = b.1 ∧ a.2 ≤ b.2).
#[local] Instance by_entry_dec : RelDecision by_entry.
Proof. intros a b. unfold by_entry. apply _. Defined.

Definition index_getAll_every (s : ObjectStore V) (ix : Index) : list V :=
  omap (λ e, records s !! e.2) (merge_sort by_entry (elements (entries ix))).

(** [store.createIndex(name, keyPath, { unique })]: the new index is
    filled from the records already stored. *)
Definition createIndex (name kp : string) (unique : bool) (s : ObjectStore V)
  : DOMException + ObjectStore V :=
  if decide (is_Some (indexes s !! name)) then inl ConstraintError
  else
    let ix0 := mkIndex kp unique ∅ in
    let es := ⋃ ((λ kv, entry_of ix0 kv.1 kv.2) <$> map_to_list (records s)) in
    inr (mkStore (keyPath s) (autoIncrement s) (records s) (currentNumber s)
                 (<[name := mkIndex kp unique es]> (indexes s))).
End store.

(** *** What every store the service creates satisfies *)

Section store_invariants.
Context {V : Type} `{!Storable V}.
Implicit Types (s : ObjectStore V) (ix : Index) (v : V).

(** An index lists exactly the stored records whose key path
    evaluates. *)
Definition index_ok s : Prop :=
  ∀ name ix, indexes s !! name = Some ix →
    ∀ p k, (p, k) ∈ entries ix ↔
           ∃ v, records s !! k = Some v ∧ evaluate (ix_keyPath ix) v = Some p.

(** A stored value carries its key at the key path. *)
Definition keys_ok s : Prop :=
  ∀ k v, records s !! k = Some v → evaluate (keyPath s) v = Some k.

(** The generator is past every stored key. *)
Definition gen_ok s : Prop :=
  ∀ k, is_Some (records s !! k) → Z.min k MAX_KEY < currentNumber s.

Definition no_unique s : Prop :=
  ∀ name ix, indexes s !! name = Some ix → ix_unique ix = false.

Record store_ok s : Prop := mk_store_ok {
  ok_keyPath : keyPath s = "id";
  ok_auto : autoIncrement s = true;
  ok_keys : keys_ok s;
  ok_gen : gen_ok s;
  ok_index : index_ok s;
  ok_unique : no_unique s
}.

End store_invariants.

(** The database named [DB_NAME]: its version, the names of its object
    stores and the two stores the service declares. *)
Record IDBDatabase := mkDatabase {
  version : Z;
  objectStoreNames : list string;
  categoriesStore : ObjectStore Category.t;
  itemsStore : ObjectStore Item.t
}.

(** What the first [open] of a name finds: version 0 and no store. *)
Definition newDatabase : IDBDatabase :=
  mkDatabase 0 [] (emptyStore "" false) (emptyStore "" false).

Definition contains (names : list string) (name : string) : bool :=
  bool_decide (name ∈ names).

(** [db.createObjectStore(name, { keyPath, autoIncrement })]: throws when
    the name is taken. *)
Definition createObjectStore (name kp : string) (ai : bool) (db : IDBDatabase)
  : DOMException + IDBDatabase :=
  if contains (objectStoreNames db) name then inl ConstraintError
  else
    let names := objectStoreNames db ++ [name] in
    inr (if decide (name = CATEGORIES_STORE)
         then mkDatabase (version db) names (emptyStore kp ai) (itemsStore db)
         else if decide (name = ITEMS_STORE)
         then mkDatabase (version db) names (categoriesStore db) (emptyStore kp ai)
         else mkDatabase (version db) names (categoriesStore db) (itemsStore db)).

(** A store of the database, addressed by name. *)
Record StoreRef (V : Type) := mkRef {
  ref_name : string;
  ref_get : IDBDatabase → ObjectStore V;
  ref_set : ObjectStore V → IDBDatabase → IDBDatabase
}.
Arguments mkRef {V}.
Arguments ref_name {V}.
Arguments ref_get {V}.
Arguments ref_set {V}.

Definition categoriesRef : StoreRef Category.t :=
  mkRef CATEGORIES_STORE categoriesStore
    (λ s db, mkDatabase (version db) (objectStoreNames db) s (itemsStore db)).

Definition itemsRef : StoreRef Item.t :=
  mkRef ITEMS_STORE itemsStore
    (λ s db, mkDatabase (version db) (objectStoreNames db) (categoriesStore db) s).

(** The origin's storage for [DB_NAME]: the database, and how many
    connections and upgrade events the browser has produced so far. *)
Record IDBFactory := mkFactory {
  database : IDBDatabase;
  connections : nat;
  upgrades : nat
}.

Definition freshFactory : IDBFactory := mkFactory newDatabase 0 0.

(** A connection, told apart by its number. *)
Record IDBConnection := mkConnection { conn_id : nat }.

(** [indexedDB.open(DB_NAME, v)] with an [onupgradeneeded] handler.  The
    handler runs only when the stored version is lower; if it throws, the
    upgrade is rolled back and the request fails.  A stored version above
    [v] fails the request. *)
Definition open (v : Z) (onupgradeneeded : IDBDatabase → DOMException + IDBDatabase)
    (f : IDBFactory) : Promise IDBConnection * IDBFactory :=
  let db := database f in
  if decide (version db < v) then
    match onupgradeneeded
            (mkDatabase v (objectStoreNames db) (categoriesStore db) (itemsStore db)) with
    | inr db' =>
      (Fulfilled (mkConnection (connections f)),
       mkFactory db' (S (connections f)) (S (upgrades f)))
    | inl _ =>
      (Rejected (Exception AbortError),
       mkFactory db (connections f) (S (upgrades f)))
    end
  else if decide (v < version db) then (Rejected (Exception VersionError), f)
  else (Fulfilled (mkConnection (connections f)),
        mkFactory db (S (connections f)) (upgrades f)).

End IDB.

(** ** [DatabaseService] *)

Module DatabaseService.
Import IDB.

Record t := mk { dbPromise : Promise IDBConnection }.

(** The [onupgradeneeded] handler of the constructor. *)
Definition onupgradeneeded (db : IDBDatabase) : DOMException + IDBDatabase :=
  match
    (if negb (contains (objectStoreNames db) CATEGORIES_STORE)
     then createObjectStore CATEGORIES_STORE "id" true db
     else inr db)
  with
  | inl e => inl e
  | inr db1 =>
    if negb (contains (objectStoreNames db1) ITEMS_STORE) then
      match createObjectStore ITEMS_STORE "id" true db1 with
      | inl e => inl e
      | inr db2 =>
        match createIndex "categoryId" "categoryId" false (itemsStore db2) with
        | inl e => inl e
        | inr itemStore => inr (ref_set itemsRef itemStore db2)
        end
      end
    else inr db1
  end.

(** The constructor: [window_indexedDB] is [None] when
    ['indexedDB' in window] is false. *)
Definition constructor (window_indexedDB : option IDBFactory)
  : t * option IDBFactory :=
  match window_indexedDB with
  | None => (mk (Rejected (Message "IndexedDB not supported")), None)
  | Some f =>
    let '(p, f') := open DB_VERSION onupgradeneeded f in (mk p, Some f')
  end.

(** The handle [getStore] returns: a store of the database inside a
    transaction of the given mode, opened on the connection [os_db]. *)
Record IDBObjectStore (V : Type) := mkObjectStore {
  os_db : IDBConnection;
  os_ref : StoreRef V;
  os_mode : IDBTransactionMode
}.
Arguments mkObjectStore {V}.
Arguments os_db {V}.
Arguments os_ref {V}.
Arguments os_mode {V}.

(** [getStore]: awaits [dbPromise] and opens the transaction on the
    connection it is fulfilled with; [db.transaction] throws when the store
    is not in the database. *)
Definition getStore {V} (storeName : StoreRef V) (mode : IDBTransactionMode)
    (this : t) (f : IDBFactory) : Promise (IDBObjectStore V) :=
  match dbPromise this with
  | Rejected r => Rejected r
  | Fulfilled db =>
    if contains (objectStoreNames (database f)) (ref_name storeName)
    then Fulfilled (mkObjectStore db storeName mode)
    else Rejected (Exception NotFoundError)
  end.

(** Run a request of the store behind a handle and write the store back. *)
Definition request {V A} (store : IDBObjectStore V)
    (op : IDBTransactionMode → ObjectStore V → Promise A * ObjectStore V)
    (f : IDBFactory) : Promise A * IDBFactory :=
  let db := database f in
  let '(res, s') := op (os_mode store) (ref_get (os_ref store) db) in
  (res, mkFactory (ref_set (os_ref store) s' db) (connections f) (upgrades f)).

Definition getCategories (this : t) (f : IDBFactory) : Promise (list Category.t) :=
  match getStore categoriesRef readonly this f with
  | Rejected r => Rejected r
  | Fulfilled store => Fulfilled (getAll (ref_get (os_ref store) (database f)))
  end.

Definition addCategory (category : Category.t) (this : t) (f : IDBFactory)
  : Promise Z * IDBFactory :=
  match getStore categoriesRef readwrite this f with
  | Rejected r => (Rejected r, f)
  | Fulfilled store => request store (λ mode, add mode category) f
  end.

Definition getItems (categoryId : Z) (this : t) (f : IDBFactory)
  : Promise (list Item.t) :=
  match getStore itemsRef readonly this f with
  | Rejected r => Rejected r
  | Fulfilled store =>
    let s := ref_get (os_ref store) (database f) in
    match indexes s !! "categoryId" with
    | None => Rejected (Exception NotFoundError)
    | Some index => Fulfilled (index_getAll s index categoryId)
    end
  end.

Definition addItem (item : Item.t) (this : t) (f : IDBFactory)
  : Promise Z * IDBFactory :=
  match getStore itemsRef readwrite this f with
  | Rejected r => (Rejected r, f)
  | Fulfilled store => request store (λ mode, add mode item) f
  end.

(** [getItems] as it runs when its argument is [undefined], which is what
    [category.id!] hands it for a category without id: the query of
    [index.getAll] is then absent. *)
Definition getItems_undefined (this : t) (f : IDBFactory) : Promise (list Item.t) :=
  match getStore itemsRef readonly this f with
  | Rejected r => Rejected r
  | Fulfilled store =>
    let s := ref_get (os_ref store) (database f) in
    match indexes s !! "categoryId" with
    | None => Rejected (Exception NotFoundError)
    | Some index => Fulfilled (index_getAll_every s index)
    end
  end.

(** Modelled from the spec: [deleteCategory], which [confirmDeletion]
    calls and the service class does not declare.  The spec: it removes
    the Category record with that id, is a no-op when the id does not
    exist, and does not touch the items.  Written the way the sibling
    methods are: one read-write transaction on the categories store and
    one [delete] request. *)
Definition deleteCategory (id : Z) (this : t) (f : IDBFactory)
  : Promise unit * IDBFactory :=
  match getStore categoriesRef readwrite this f with
  | Rejected r => (Rejected r, f)
  | Fulfilled store => request store (λ mode, IDB.delete mode id) f
  end.

(** Modelled from the spec: [deleteItem], likewise called by
    [confirmDeletion] and not declared by the service class.  The spec: it
    removes the Item record with that id and is a no-op when absent. *)
Definition deleteItem (id : Z) (this : t) (f : IDBFactory)
  : Promise unit * IDBFactory :=
  match getStore itemsRef readwrite this f with
  | Rejected r => (Rejected r, f)
  | Fulfilled store => request store (λ mode, IDB.delete mode id) f
  end.

(** *** Histories of calls

    What the rest of the application can do with the service: call its
    methods, and reload the page, which builds the service anew on the same
    stored database. *)
Inductive Call :=
  | GetCategories
  | AddCategory (category : Category.t)
  | GetItems (categoryId : Z)
  | AddItem (item : Item.t)
  | DeleteCategory (id : Z)
  | DeleteItem (id : Z)
  | Reload.

Definition step (c : Call) (st : t * IDBFactory) : t * IDBFactory :=
  let '(this, f) := st in
  match c with
  | GetCategories | GetItems _ => (this, f)
  | AddCategory category => (this, (addCategory category this f).2)
  | AddItem item => (this, (addItem item this f).2)
  | DeleteCategory id => (this, (deleteCategory id this f).2)
  | DeleteItem id => (this, (deleteItem id this f).2)
  | Reload =>
    match constructor (Some f) with
    | (this', Some f') => (this', f')
    | (this', None) => (this', f)
    end
  end.

Fixpoint run (cs : list Call) (st : t * IDBFactory) : t * IDBFactory :=
  match cs with
  | [] => st
  | c :: cs' => run cs' (step c st)
  end.

(** The category ids [addCategory] answered with along a history. *)
Definition assigned (c : Call) (st : t * IDBFactory) : list Z :=
  match c with
  | AddCategory category =>
    match (addCategory category st.1 st.2).1 with
    | Fulfilled id => [id]
    | Rejected _ => []
    end
  | _ => []
  end.

Fixpoint history (cs : list Call) (st : t * IDBFactory) : list Z :=
  match cs with
  | [] => []
  | c :: cs' => assigned c st ++ history cs' (step c st)
  end.

(** How many page reloads a history holds. *)
Fixpoint reloads (cs : list Call) : nat :=
  match cs with
  | [] => 0
  | Reload :: cs' => S (reloads cs')
  | _ :: cs' => reloads cs'
  end.

(** The first page load of a browser profile that has IndexedDB. *)
Definition boot : t * IDBFactory :=
  match constructor (Some freshFactory) with
  | (this, Some f) => (this, f)
  | (this, None) => (this, freshFactory)
  end.

(** The database right after the first page load. *)
Definition bootDatabase : IDBDatabase :=
  mkDatabase 1 [CATEGORIES_STORE; ITEMS_STORE] (emptyStore "id" true)
    (mkStore "id" true ∅ 1 (<["categoryId" := mkIndex "categoryId" false ∅]> ∅)).

(** The next number of the categories' key generator. *)
Definition categoryNumber (st : t * IDBFactory) : Z :=
  currentNumber (categoriesStore (database st.2)).

(** Sample blobs, and a sample history: two categories and an item added,
    the first category deleted, the page reloaded. *)
Definition png : Blob.t := Blob.mk [] "image/png".
Definition wav : Blob.t := Blob.mk [] "audio/wav".
Definition sample_history : list Call :=
  [AddCategory (Category.mk None "Animals" png);
   AddCategory (Category.mk None "Vehicles" png);
   AddItem (Item.mk None 1 "Dog" png wav);
   DeleteCategory 1;
   Reload].

(** What holds of the database once the service has opened it. *)
Record db_ok (db : IDBDatabase) : Prop := mk_db_ok {
  ok_version : version db = DB_VERSION;
  ok_names : objectStoreNames db = [CATEGORIES_STORE; ITEMS_STORE];
  ok_categories : store_ok (categoriesStore db);
  ok_items : store_ok (itemsStore db);
  ok_categoryId :
    ix_keyPath <$> (indexes (itemsStore db) !! "categoryId") = Some "categoryId"
}.

Definition opened (st : t * IDBFactory) : Prop :=
  is_rejected (dbPromise st.1) = false ∧ db_ok (database st.2).

End DatabaseService.

(** ** [AppComponent]: forms, deletion and the recording session *)

Module AppComponent.
Import IDB.

Module View.
Inductive t := categories | items | addCategory | addItem.
End View.
Abbreviation View := View.t.

(** A [MediaRecorder] on a microphone stream. *)
Inductive RecordingState := inactive | recording | paused.
Record MediaRecorder := mkRecorder { stream : nat; state : RecordingState }.

(** [recorder.stop()]: the recorder goes inactive; the browser delivers the
    recorded data and then the stop event as later tasks. *)
Definition MediaRecorder_stop (r : MediaRecorder) : MediaRecorder :=
  mkRecorder (stream r) inactive.

(** An object URL is its place in the browser's URL table. *)
Record SafeUrl := bypassSecurityTrustUrl { url : nat }.

Inductive ConfirmationType := category | item.
Record Confirmation := mkConfirmation {
  type : ConfirmationType;
  data : Category.t + Item.t
}.

Definition data_id (c : Confirmation) : option Z :=
  match data c with
  | inl c => Category.id c
  | inr i => Item.id i
  end.

Record t := mk {
  dbService : DatabaseService.t;
  currentView : View;
  categories : list Category.t;
  items : list Item.t;
  selectedCategory : option Category.t;
  isLoading : bool;
  imageFile : option Blob.t;
  imagePreview : option string;
  isRecording : bool;
  recordedSoundBlob : option Blob.t;
  recordedSoundUrl : option SafeUrl;
  mediaRecorder : option MediaRecorder;
  audioChunks : list Blob.t;
  deleteConfirmation : option Confirmation;
  isDeleting : bool
}.

(** Field updates: [set_x v this] is [this.x.set(v)] (or [this.x = v]). *)
Definition set_currentView (v : View) (this : t) : t :=
  mk (dbService this) v (categories this) (items this)
     (selectedCategory this) (isLoading this) (imageFile this)
     (imagePreview this) (isRecording this) (recordedSoundBlob this)
     (recordedSoundUrl this) (mediaRecorder this) (audioChunks this)
     (deleteConfirmation this) (isDeleting this).

Definition set_categories (v : list Category.t) (this : t) : t :=
  mk (dbService this) (currentView this) v (items this)
     (selectedCategory this) (isLoading this) (imageFile this)
     (imagePreview this) (isRecording this) (recordedSoundBlob this)
     (recordedSoundUrl this) (mediaRecorder this) (audioChunks this)
     (deleteConfirmation this) (isDeleting this).

Definition set_items (v : list Item.t) (this : t) : t :=
  mk (dbService this) (currentView this) (categories this) v
     (selectedCategory this) (isLoading this) (imageFile this)
     (imagePreview this) (isRecording this) (recordedSoundBlob this)
     (recordedSoundUrl this) (mediaRecorder this) (audioChunks this)
     (deleteConfirmation this) (isDeleting this).

Definition set_selectedCategory (v : option Category.t) (this : t) : t :=
  mk (dbService this) (currentView this) (categories this) (items this) v
     (isLoading this) (imageFile this) (imagePreview this)
     (isRecording this) (recordedSoundBlob this) (recordedSoundUrl this)
     (mediaRecorder this) (audioChunks this) (deleteConfirmation this)
     (isDeleting this).

Definition set_isLoading (v : bool) (this : t) : t :=
  mk (dbService this) (currentView this) (categories this) (items this)
     (selectedCategory this) v (imageFile this) (imagePreview this)
     (isRecording this) (recordedSoundBlob this) (recordedSoundUrl this)
     (mediaRecorder this) (audioChunks this) (deleteConfirmation this)
     (isDeleting this).

Definition set_imageFile (v : option Blob.t) (this : t) : t :=
  mk (dbService this) (currentView this) (categories this) (items this)
     (selectedCategory this) (isLoading this) v (imagePreview this)
     (isRecording this) (recordedSoundBlob this) (recordedSoundUrl this)
     (mediaRecorder this) (audioChunks this) (deleteConfirmation this)
     (isDeleting this).

Definition set_imagePreview (v : option string) (this : t) : t :=
  mk (dbService this) (currentView this) (categories this) (items this)
     (selectedCategory this) (isLoading this) (imageFile this) v
     (isRecording this) (recordedSoundBlob this) (recordedSoundUrl this)
     (mediaRecorder this) (audioChunks this) (deleteConfirmation this)
     (isDeleting this).

Definition set_isRecording (v : bool) (this : t) : t :=
  mk (dbService this) (currentView this) (categories this) (items this)
     (selectedCategory this) (isLoading this) (imageFile this)
     (imagePreview this) v (recordedSoundBlob this) (recordedSoundUrl this)
     (mediaRecorder this) (audioChunks this) (deleteConfirmation this)
     (isDeleting this).

Definition set_recordedSoundBlob (v : option Blob.t) (this : t) : t :=
  mk (dbService this) (currentView this) (categories this) (items this)
     (selectedCategory this) (isLoading this) (imageFile this)
     (imagePreview this) (isRecording this) v (recordedSoundUrl this)
     (mediaRecorder this) (audioChunks this) (deleteConfirmation this)
     (isDeleting this).

Definition set_recordedSoundUrl (v : option SafeUrl) (this : t) : t :=
  mk (dbService this) (currentView this) (categories this) (items this)
     (selectedCategory this) (isLoading this) (imageFile this)
     (imagePreview this) (isRecording this) (recordedSoundBlob this) v
     (mediaRecorder this) (audioChunks this) (deleteConfirmation this)
     (isDeleting this).

Definition set_mediaRecorder (v : option MediaRecorder) (this : t) : t :=
  mk (dbService this) (currentView this) (categories this) (items this)
     (selectedCategory this) (isLoading this) (imageFile this)
     (imagePreview this) (isRecording this) (recordedSoundBlob this)
     (recordedSoundUrl this) v (audioChunks this) (deleteConfirmation this)
     (isDeleting this).

Definition set_audioChunks (v : list Blob.t) (this : t) : t :=
  mk (dbService this) (currentView this) (categories this) (items this)
     (selectedCategory this) (isLoading this) (imageFile this)
     (imagePreview this) (isRecording this) (recordedSoundBlob this)
     (recordedSoundUrl this) (mediaRecorder this) v
     (deleteConfirmation this) (isDeleting this).

Definition set_deleteConfirmation (v : option Confirmation) (this : t) : t :=
  mk (dbService this) (currentView this) (categories this) (items this)
     (selectedCategory this) (isLoading this) (imageFile this)
     (imagePreview this) (isRecording this) (recordedSoundBlob this)
     (recordedSoundUrl this) (mediaRecorder this) (audioChunks this) v
     (isDeleting this).

Definition set_isDeleting (v : bool) (this : t) : t :=
  mk (dbService this) (currentView this) (categories this) (items this)
     (selectedCategory this) (isLoading this) (imageFile this)
     (imagePreview this) (isRecording this) (recordedSoundBlob this)
     (recordedSoundUrl this) (mediaRecorder this) (audioChunks this)
     (deleteConfirmation this) v.

(** The component as its field initialisers leave it. *)
Definition new (dbService : DatabaseService.t) : t :=
  mk dbService View.categories [] [] None true None None
     false None None None [] None false.

(** The parts of the browser the component acts on. *)
Record Browser := mkBrowser {
  indexedDB : IDBFactory;
  alerts : list string;
  console : list (string * Reason);
  objectURLs : list Blob.t;
  streams : nat;
  liveStreams : list nat
}.

Definition set_indexedDB (f : IDBFactory) (b : Browser) : Browser :=
  mkBrowser f (alerts b) (console b) (objectURLs b) (streams b) (liveStreams b).

Definition alert (msg : string) (b : Browser) : Browser :=
  mkBrowser (indexedDB b) (alerts b ++ [msg]) (console b) (objectURLs b)
            (streams b) (liveStreams b).

Definition console_error (msg : string) (err : Reason) (b : Browser) : Browser :=
  mkBrowser (indexedDB b) (alerts b) (console b ++ [(msg, err)]) (objectURLs b)
            (streams b) (liveStreams b).

(** [URL.createObjectURL(blob)] *)
Definition createObjectURL (blob : Blob.t) (b : Browser) : nat * Browser :=
  (length (objectURLs b),
   mkBrowser (indexedDB b) (alerts b) (console b) (objectURLs b ++ [blob])
             (streams b) (liveStreams b)).

(** [navigator.mediaDevices.getUserMedia({ audio: true })], granted: a new
    stream with live tracks. *)
Definition getUserMedia (b : Browser) : nat * Browser :=
  (streams b,
   mkBrowser (indexedDB b) (alerts b) (console b) (objectURLs b)
             (S (streams b)) (streams b :: liveStreams b)).

(** [stream.getTracks().forEach(track => track.stop())] *)
Definition stopTracks (stream : nat) (b : Browser) : Browser :=
  mkBrowser (indexedDB b) (alerts b) (console b) (objectURLs b) (streams b)
            (filter (λ s, s ≠ stream) (liveStreams b)).

(** [x!] checks nothing at run time; what follows depends on the use.

    [non_null]: a property of [x!] is read.  With [x] null that throws a
    TypeError. *)
Definition non_null {A} (x : option A) : Promise A :=
  match x with
  | Some a => Fulfilled a
  | None => Rejected (Message "TypeError: Cannot read properties of null")
  end.

(** [valid_key]: [id!] is the key of a [store.delete].  [undefined] is
    not a valid key and the request throws a [DataError]. *)
Definition valid_key (id : option Z) : Promise Z :=
  match id with
  | Some k => Fulfilled k
  | None => Rejected (Exception DataError)
  end.

(** [this.dbService.getItems(category.id!)]: a category without id hands
    [undefined] to [getItems]. *)
Definition getItems_of (category : Category.t) (dbService : DatabaseService.t)
    (f : IDBFactory) : Promise (list Item.t) :=
  match Category.id category with
  | Some id => DatabaseService.getItems id dbService f
  | None => DatabaseService.getItems_undefined dbService f
  end.

(** [categoryId: category.id!] in the item that [addItem] builds.  For a
    category without id the code stores an item whose [categoryId] is
    [undefined], which no index lists.  [Item.t] has a number there, as the
    interface [Item] has, and cannot hold that record: this one case is
    not followed, and the model ends the method with a rejection. *)
Definition numbered (id : option Z) : Promise Z :=
  match id with
  | Some k => Fulfilled k
  | None => Rejected (Message "categoryId: undefined")
  end.

(** JavaScript truthiness of [formData.get('name')]. *)
Definition truthy (name : option string) : bool :=
  match name with
  | Some n => bool_decide (n ≠ "")
  | None => false
  end.

(** *** View navigation and forms *)

Definition resetFormState (this : t) : t :=
  set_recordedSoundUrl None
    (set_recordedSoundBlob None (set_imagePreview None (set_imageFile None this))).

Definition goHome (this : t) : t :=
  resetFormState (set_currentView View.categories this).

Definition showAddCategoryForm (this : t) : t :=
  resetFormState (set_currentView View.addCategory this).

Definition showAddItemForm (this : t) : t :=
  resetFormState (set_currentView View.addItem this).

(** [onFileSelected]: [files] is [input.files]; the preview arrives later,
    when the reader has loaded the file as a data URL. *)
Definition onFileSelected (files : option (list Blob.t)) (this : t) : t :=
  match files with
  | Some (file :: _) => set_imageFile (Some file) this
  | _ => this
  end.

Definition reader_onload (result : string) (this : t) : t :=
  set_imagePreview (Some result) this.

Definition loadCategories (st : t * Browser) : Promise unit * (t * Browser) :=
  let '(this, b) := st in
  match DatabaseService.getCategories (dbService this) (indexedDB b) with
  | Rejected r => (Rejected r, (this, b))
  | Fulfilled cs => (Fulfilled (), (set_categories cs this, b))
  end.

Definition ngOnInit (st : t * Browser) : Promise unit * (t * Browser) :=
  match loadCategories st with
  | (Rejected r, st') => (Rejected r, st')
  | (Fulfilled _, (this, b)) => (Fulfilled (), (set_isLoading false this, b))
  end.

(** A call of an async method that has been started and is not awaited:
    what it does to the component when it goes on. *)
Definition Detached : Type := t → Promise unit * t.

(** [selectCategory] from its [await] on, [listed] being the answer of
    [getItems]. *)
Definition selectCategory_then (listed : Promise (list Item.t)) : Detached :=
  λ this,
  match listed with
  | Rejected r => (Rejected r, this)
  | Fulfilled its =>
    (Fulfilled (), resetFormState (set_currentView View.items (set_items its this)))
  end.

(** [selectCategory] up to its [await]: the category is selected and
    [getItems] is asked; the rest waits for the answer. *)
Definition selectCategory_start (category : Category.t) (st : t * Browser)
  : t * Detached :=
  let '(this, b) := st in
  let this := set_selectedCategory (Some category) this in
  (this, selectCategory_then (getItems_of category (dbService this) (indexedDB b))).


(** [addCategory(event)]: [name] is the form's name field. *)
Definition addCategory (name : option string) (st : t * Browser)
  : Promise unit * (t * Browser) :=
  let '(this, b) := st in
  match name, imageFile this with
  | Some name', Some picture =>
    if truthy name then
      match DatabaseService.addCategory (Category.mk None name' picture)
              (dbService this) (indexedDB b) with
      | (Rejected r, f') => (Rejected r, (this, set_indexedDB f' b))
      | (Fulfilled _, f') =>
        match loadCategories (this, set_indexedDB f' b) with
        | (Rejected r, st') => (Rejected r, st')
        | (Fulfilled _, (this', b')) => (Fulfilled (), (goHome this', b'))
        end
      end
    else (Fulfilled (), (this, b))
  | _, _ => (Fulfilled (), (this, b))
  end.

(** [addItem(event)], with the call it leaves running.  The closing
    [selectCategory(category)] is called and not awaited: when the promise
    of [addItem] is fulfilled that call has selected the category and asked
    [getItems], and nothing more; the list, the view and the form are
    touched only when it goes on, and its outcome is dropped. *)
Definition addItem_run (name : option string) (st : t * Browser)
  : Promise unit * (t * Browser) * option Detached :=
  let '(this, b) := st in
  match name, imageFile this, recordedSoundBlob this, selectedCategory this with
  | Some name', Some picture, Some sound, Some category' =>
    if truthy name then
      match numbered (Category.id category') with
      | Rejected r => (Rejected r, (this, b), None)
      | Fulfilled categoryId =>
        match DatabaseService.addItem
                (Item.mk None categoryId name' picture sound)
                (dbService this) (indexedDB b) with
        | (Rejected r, f') => (Rejected r, (this, set_indexedDB f' b), None)
        | (Fulfilled _, f') =>
          let '(this', rest) := selectCategory_start category' (this, set_indexedDB f' b) in
          (Fulfilled (), (this', set_indexedDB f' b), Some rest)
        end
      end
    else (Fulfilled (), (this, b), None)
  | _, _, _, _ => (Fulfilled (), (this, b), None)
  end.

(** [addItem(event)]: the promise it returns and the state at that
    moment. *)
Definition addItem (name : option string) (st : t * Browser)
  : Promise unit * (t * Browser) :=
  (addItem_run name st).1.

(** The call of [selectCategory] still running when [addItem] has
    returned, if it made one. *)
Definition addItem_detached (name : option string) (st : t * Browser)
  : option Detached :=
  (addItem_run name st).2.

(** *** Deletion *)

Definition requestDeleteCategory (c : Category.t) (this : t) : t :=
  set_deleteConfirmation (Some (mkConfirmation category (inl c))) this.

Definition requestDeleteItem (i : Item.t) (this : t) : t :=
  set_deleteConfirmation (Some (mkConfirmation item (inr i))) this.

Definition cancelDeletion (this : t) : t := set_deleteConfirmation None this.

(** The [try] block of [confirmDeletion]. *)
Definition confirmDeletion_try (confirmation : Confirmation) (st : t * Browser)
  : Promise unit * (t * Browser) :=
  let '(this, b) := st in
  match valid_key (data_id confirmation) with
  | Rejected r => (Rejected r, (this, b))
  | Fulfilled id =>
    match type confirmation with
    | category =>
      match DatabaseService.deleteCategory id (dbService this) (indexedDB b) with
      | (Rejected r, f') => (Rejected r, (this, set_indexedDB f' b))
      | (Fulfilled _, f') => loadCategories (this, set_indexedDB f' b)
      end
    | item =>
      match DatabaseService.deleteItem id (dbService this) (indexedDB b) with
      | (Rejected r, f') => (Rejected r, (this, set_indexedDB f' b))
      | (Fulfilled _, f') =>
        let b' := set_indexedDB f' b in
        match non_null (selectedCategory this) with
        | Rejected r => (Rejected r, (this, b'))
        | Fulfilled category' =>
          match getItems_of category' (dbService this) f' with
          | Rejected r => (Rejected r, (this, b'))
          | Fulfilled its => (Fulfilled (), (set_items its this, b'))
          end
        end
      end
    end
  end.

Definition confirmDeletion (st : t * Browser) : Promise unit * (t * Browser) :=
  let '(this, b) := st in
  match deleteConfirmation this with
  | None => (Fulfilled (), (this, b))
  | Some confirmation =>
    let '(res, (this', b')) :=
      confirmDeletion_try confirmation (set_isDeleting true this, b) in
    let b'' :=
      match res with
      | Rejected error => console_error "Failed to delete:" error b'
      | Fulfilled _ => b'
      end in
    (Fulfilled (), (set_deleteConfirmation None (set_isDeleting false this'), b''))
  end.

(** *** Audio handling *)

(** How the [try] block of [startRecording] can go: the stream is granted
    and the recorder starts; [getUserMedia] rejects (access denied, no
    device, device not readable); or the stream is granted and
    [new MediaRecorder] throws. *)
Inductive Outcome :=
  | granted
  | refused (err : DOMException)
  | unsupported (err : DOMException).

Definition denied_alert : string :=
  "Microphone access was denied. Please allow microphone access in your browser settings to record audio.".

(** The [catch] block of [startRecording]. *)
Definition startRecording_catch (err : DOMException) (st : t * Browser)
  : t * Browser :=
  let '(this, b) := st in
  let b := console_error "Error starting recording:" (Exception err) b in
  let b := alert denied_alert b in
  (set_isRecording false this, b).

Definition startRecording (o : Outcome) (st : t * Browser)
  : Promise unit * (t * Browser) :=
  let '(this, b) := st in
  match o with
  | refused err => (Fulfilled (), startRecording_catch err (this, b))
  | granted | unsupported _ =>
    let '(stream, b) := getUserMedia b in
    let this := set_isRecording true this in
    let this := set_recordedSoundBlob None this in
    let this := set_recordedSoundUrl None this in
    let this := set_audioChunks [] this in
    match o with
    | unsupported err => (Fulfilled (), startRecording_catch err (this, b))
    | _ =>
      (Fulfilled (),
       (set_mediaRecorder (Some (mkRecorder stream recording)) this, b))
    end
  end.

(** [mediaRecorder.ondataavailable] *)
Definition ondataavailable (data : Blob.t) (this : t) : t :=
  set_audioChunks (audioChunks this ++ [data]) this.

(** [mediaRecorder.onstop], with the [stream] its closure holds. *)
Definition onstop (stream : nat) (st : t * Browser) : t * Browser :=
  let '(this, b) := st in
  let audioBlob := Blob.new (audioChunks this) "audio/wav" in
  let this := set_recordedSoundBlob (Some audioBlob) this in
  let '(url, b) := createObjectURL audioBlob b in
  let this := set_recordedSoundUrl (Some (bypassSecurityTrustUrl url)) this in
  (this, stopTracks stream b).

Definition stopRecording (this : t) : t :=
  match mediaRecorder this with
  | Some r =>
    if isRecording this
    then set_isRecording false (set_mediaRecorder (Some (MediaRecorder_stop r)) this)
    else this
  | None => this
  end.

(** What happens to the session: the two methods, and the recorder's
    events. *)
Inductive Event :=
  | StartRecording (o : Outcome)
  | DataAvailable (data : Blob.t)
  | Stop (stream : nat)
  | StopRecording.

Definition handle (e : Event) (st : t * Browser) : t * Browser :=
  match e with
  | StartRecording o => (startRecording o st).2
  | DataAvailable data => (ondataavailable data st.1, st.2)
  | Stop stream => onstop stream st
  | StopRecording => (stopRecording st.1, st.2)
  end.

Fixpoint play (es : list Event) (st : t * Browser) : t * Browser :=
  match es with
  | [] => st
  | e :: es' => play es' (handle e st)
  end.

(** The chunks a list of events delivers, in order. *)
Definition chunks (es : list Event) : list Blob.t :=
  omap (λ e, match e with DataAvailable data => Some data | _ => None end) es.

(** Between the start and the stop event of a recording: chunks arriving
    and calls of [stopRecording]. *)
Definition during_recording (e : Event) : bool :=
  match e with
  | DataAvailable _ | StopRecording => true
  | _ => false
  end.

(** One recording on [stream]: the start, chunks arriving, the call of
    [stopRecording], the chunks the recorder still delivers, and its stop
    event.  [recording_events] is the part between the start and the stop
    event. *)
Definition recording_events (chunks1 chunks2 : list Blob.t) : list Event :=
  (DataAvailable <$> chunks1) ++ StopRecording :: (DataAvailable <$> chunks2).

Definition session (stream : nat) (chunks1 chunks2 : list Blob.t) : list Event :=
  StartRecording granted :: recording_events chunks1 chunks2 ++ [Stop stream].

(** The page as first loaded on a fresh profile. *)
Definition firstBrowser : Browser :=
  mkBrowser DatabaseService.boot.2 [] [] [] 0 [].
Definition firstComponent : t := new DatabaseService.boot.1.

End AppComponent.

(** ** Playing sounds and previewing blobs ([playItemSound], [createBlobUrl])

    The browser's object URLs can be revoked; the page state of
    [AppComponent] is extended with the revoked URLs and the audio elements
    that are playing, each known by the URL it plays. *)

Module Playback.
Import AppComponent.

Record Media := mkMedia {
  page : Browser;
  revoked : list nat;
  playing : list nat
}.

(** A page on which nothing has been played yet. *)
Definition silent (b : Browser) : Media := mkMedia b [] [].

(** What an object URL stands for: the blob it was created for, until it is
    revoked. *)
Definition resolve (url : nat) (m : Media) : option Blob.t :=
  if bool_decide (url ∈ revoked m) then None else objectURLs (page m) !! url.

(** [URL.revokeObjectURL(url)] *)
Definition revokeObjectURL (url : nat) (m : Media) : Media :=
  mkMedia (page m) (url :: revoked m) (playing m).

(** [playItemSound(soundBlob)]: a URL is made for the blob and an audio
    element starts playing it. *)
Definition playItemSound (soundBlob : Blob.t) (m : Media) : nat * Media :=
  let '(url, b) := createObjectURL soundBlob (page m) in
  (url, mkMedia b (revoked m) (url :: playing m)).

(** [audio.onended] of the element playing [url]. *)
Definition onended (url : nat) (m : Media) : Media :=
  revokeObjectURL url (mkMedia (page m) (revoked m) (filter (λ u, u ≠ url) (playing m))).

(** [createBlobUrl(blob)] *)
Definition createBlobUrl (blob : Blob.t) (m : Media) : SafeUrl * Media :=
  let '(url, b) := createObjectURL blob (page m) in
  (bypassSecurityTrustUrl url, mkMedia b (revoked m) (playing m)).

(** What happens on the page: a sound is played, a preview URL is made, an
    audio element that is playing ends. *)
Inductive MediaEvent :=
  | Play (soundBlob : Blob.t)
  | Ended (url : nat)
  | Preview (blob : Blob.t).

(** [Ended] only happens to an element that is playing. *)
Definition media_step (e : MediaEvent) (m : Media) : Media :=
  match e with
  | Play soundBlob => (playItemSound soundBlob m).2
  | Ended url => if bool_decide (url ∈ playing m) then onended url m else m
  | Preview blob => (createBlobUrl blob m).2
  end.

Fixpoint media_run (es : list MediaEvent) (m : Media) : Media :=
  match es with
  | [] => m
  | e :: es' => media_run es' (media_step e m)
  end.

(** Only URLs that were made are revoked or playing. *)
Definition made_only (m : Media) : Prop :=
  Forall (λ u, (u < length (objectURLs (page m)))%nat) (revoked m) ∧
  Forall (λ u, (u < length (objectURLs (page m)))%nat) (playing m).

(** A URL that stands for a blob and is neither revoked nor playing. *)
Definition kept (u : nat) (blob : Blob.t) (m : Media) : Prop :=
  objectURLs (page m) !! u = Some blob ∧ (u ∉ revoked m) ∧ (u ∉ playing m).

End Playback.

(** ** The service worker ([sw.js]) *)

Module ServiceWorker.

(** A response: its status and its body. *)
Record Response := mkResponse { status : Z; body : string }.

Definition ok (r : Response) : bool := bool_decide (200 ≤ status r ≤ 299).

Inductive RequestMode := navigate | same_origin | no_cors | cors.

Record Request := mkRequest { url : string; mode : RequestMode; method : string }.

(** The request [fetch] and the cache build from a URL string. *)
Definition get (u : string) : Request := mkRequest u cors "GET".

(** The network: what [fetch(request)] resolves with, [None] when it
    rejects. *)
Definition Network : Type := Request → option Response.

(** A cache maps URLs to responses; the cache storage lists the caches by
    name, in the order they were created. *)
Abbreviation CacheStorage := (list (string * gmap string Response)).

Record Worker := mkWorker { caches : CacheStorage; console : list string }.

Definition CACHE_NAME : string := "kids-soundboard-cache-v1".
Definition urlsToCache : list string := ["/"; "/index.html"].

(** The cache of a name, if there is one. *)
Fixpoint cache_of (name : string) (cs : CacheStorage) : option (gmap string Response) :=
  match cs with
  | [] => None
  | (n, c) :: cs' => if decide (n = name) then Some c else cache_of name cs'
  end.

Fixpoint cache_update (name : string) (f : gmap string Response → gmap string Response)
    (cs : CacheStorage) : CacheStorage :=
  match cs with
  | [] => []
  | (n, c) :: cs' =>
    if decide (n = name) then (n, f c) :: cs' else (n, c) :: cache_update name f cs'
  end.

(** [caches.open(name)]: the cache is created when there is none. *)
Definition caches_open (name : string) (cs : CacheStorage) : CacheStorage :=
  match cache_of name cs with
  | Some _ => cs
  | None => cs ++ [(name, ∅)]
  end.

(** [cache.match(request)]: only GET requests match. *)
Definition cache_match (request : Request) (c : gmap string Response)
  : option Response :=
  if decide (method request = "GET") then c !! url request else None.

(** [cache.put(request, response)]: refused, with the cache as it was, for
    a request that is not GET and for a partial (206) response. *)
Definition cache_put (request : Request) (response : Response)
    (c : gmap string Response) : gmap string Response :=
  if decide (method request = "GET") then
    if decide (status response = 206) then c else <[url request := response]> c
  else c.

(** [cache.addAll(urls)]: every URL is fetched; unless each answer is there,
    ok and not partial, nothing is stored. *)
Definition cache_addAll (network : Network) (urls : list string)
    (c : gmap string Response) : option (gmap string Response) :=
  match mapM (λ u, network (get u)) urls with
  | Some responses =>
    if forallb (λ r, ok r && negb (bool_decide (status r = 206))) responses
    then Some (foldl (λ c ur, <[ur.1 := ur.2]> c) c (zip urls responses))
    else None
  | None => None
  end.

(** [caches.match(url)]: the first cache, in creation order, that has the
    URL. *)
Fixpoint caches_match (u : string) (cs : CacheStorage) : option Response :=
  match cs with
  | [] => None
  | (_, c) :: cs' =>
    match cache_match (get u) c with
    | Some r => Some r
    | None => caches_match u cs'
    end
  end.

(** The [install] listener: [true] when the promise given to [waitUntil]
    is fulfilled. *)
Definition install (network : Network) (w : Worker) : bool * Worker :=
  let cs := caches_open CACHE_NAME (caches w) in
  let log := console w ++ ["Opened cache and caching app shell"] in
  match cache_of CACHE_NAME cs with
  | Some c =>
    match cache_addAll network urlsToCache c with
    | Some c' => (true, mkWorker (cache_update CACHE_NAME (λ _, c') cs) log)
    | None => (false, mkWorker cs log)
    end
  | None => (false, mkWorker cs log)
  end.

(** The [fetch] listener: what the page gets ([None]: a network error) and
    the worker afterwards. *)
Definition fetch (network : Network) (request : Request) (w : Worker)
  : option Response * Worker :=
  match mode request with
  | navigate =>
    match network request with
    | Some r => (Some r, w)
    | None => (caches_match "/index.html" (caches w), w)
    end
  | _ =>
    let cs := caches_open CACHE_NAME (caches w) in
    let response := from_option (cache_match request) None (cache_of CACHE_NAME cs) in
    match network request with
    | Some networkResponse =>
      (Some (default networkResponse response),
       mkWorker (cache_update CACHE_NAME (cache_put request networkResponse) cs)
                (console w))
    | None => (response, mkWorker cs (console w))
    end
  end.

(** The [activate] listener: every cache not on the whitelist is
    deleted. *)
Definition activate (w : Worker) : Worker :=
  let cacheWhitelist := [CACHE_NAME] in
  mkWorker (filter (λ nc, nc.1 ∈ cacheWhitelist) (caches w)) (console w).

(** A new worker in a browser profile without caches. *)
Definition firstWorker : Worker := mkWorker [] [].

(** A response that can be cached: ok and not partial. *)
Definition cacheable (r : Response) : bool :=
  ok r && negb (bool_decide (status r = 206)).

(** What the current cache holds; nothing when it does not exist. *)
Definition current_cache (w : Worker) : gmap string Response :=
  default ∅ (cache_of CACHE_NAME (caches w)).

(** Sample networks: a server that answers every request with the same
    page, and no connection at all. *)
Definition online : Network := λ _, Some (mkResponse 200 "<html>").
Definition offline : Network := λ _, None.

(** The fetch events a worker handles one after the other, each with the
    network as it is at that moment. *)
Fixpoint serve (visits : list (Network * Request)) (w : Worker) : Worker :=
  match visits with
  | [] => w
  | (network, request) :: visits' => serve visits' (fetch network request w).2
  end.

(** The response a fetch event puts under [/index.html], if it puts one:
    the network's answer to a GET of that URL that is not a navigation,
    unless the answer is partial.  Its status is not looked at. *)
Definition refreshed (visit : Network * Request) : option Response :=
  match mode visit.2 with
  | navigate => None
  | _ =>
    if decide (method visit.2 = "GET" ∧ url visit.2 = "/index.html") then
      match visit.1 visit.2 with
      | Some networkResponse =>
        if decide (status networkResponse = 206) then None else Some networkResponse
      | None => None
      end
    else None
  end.

(** The response held for [/index.html] after some fetch events, [first]
    being held before them: the last one put there. *)
Definition shell (first : Response) (visits : list (Network * Request)) : Response :=
  foldl (λ held visit, default held (refreshed visit)) first visits.

(** A server that is failing: every request is answered with status 500. *)
Definition failing : Network := λ _, Some (mkResponse 500 "").

End ServiceWorker.

(** ** Histories that leave the ids to the key generator *)

Module Histories.
Import IDB DatabaseService.

(** A call that does not choose a category id itself. *)
Definition generated (c : Call) : bool :=
  match c with
  | AddCategory category => bool_decide (Category.id category = None)
  | _ => true
  end.

(** How many [addCategory] calls a history holds. *)
Fixpoint adds (cs : list Call) : nat :=
  match cs with
  | [] => 0
  | AddCategory _ :: cs' => S (adds cs')
  | _ :: cs' => adds cs'
  end.

End Histories.

(** ** Leaving a view *)

Module Navigation.
Import AppComponent.

(** The three methods that change the view and reset the form. *)
Inductive Nav := Home | AddCategoryForm | AddItemForm.

Definition navigate (n : Nav) (this : t) : t :=
  match n with
  | Home => goHome this
  | AddCategoryForm => showAddCategoryForm this
  | AddItemForm => showAddItemForm this
  end.

End Navigation.

(** ** The open request in flight

    The constructor only issues the open request: [dbPromise] is pending
    until the browser, in a later task, delivers the request's events
    (the upgrade, then success or error).  A method called in between
    waits in [getStore] at [await this.dbPromise]; when the promise
    settles the waiting callers go on in the order they called, each with
    the value the promise settled with.  The store operations of callers
    run in the order their transactions are opened, as IndexedDB runs
    transactions on the same store. *)

Module Opening.
Import IDB DatabaseService.

(** The methods of the service. *)
Inductive Method :=
  | CallGetCategories
  | CallAddCategory (category : Category.t)
  | CallGetItems (categoryId : Z)
  | CallAddItem (item : Item.t)
  | CallDeleteCategory (id : Z)
  | CallDeleteItem (id : Z).

Definition to_call (m : Method) : Call :=
  match m with
  | CallGetCategories => GetCategories
  | CallAddCategory category => AddCategory category
  | CallGetItems categoryId => GetItems categoryId
  | CallAddItem item => AddItem item
  | CallDeleteCategory id => DeleteCategory id
  | CallDeleteItem id => DeleteItem id
  end.

(** [dbPromise] as time passes. *)
Inductive Awaited :=
  | Pending
  | Settled (p : Promise IDBConnection).

(** A transaction as the browser sees it: the connection it was opened
    on, its store and its mode. *)
Record IDBTransaction := mkTransaction {
  tx_db : IDBConnection;
  tx_store : string;
  tx_mode : IDBTransactionMode
}.

(** The transaction behind the store handle [getStore] answers with; none
    when [getStore] is rejected. *)
Definition transaction_of {V} (store : Promise (IDBObjectStore V))
  : list IDBTransaction :=
  match store with
  | Fulfilled store =>
    [mkTransaction (os_db store) (ref_name (os_ref store)) (os_mode store)]
  | Rejected _ => []
  end.

(** The transaction a method opens: each method starts with one call of
    [getStore]. *)
Definition opened_by (m : Method) (this : t) (f : IDBFactory) : list IDBTransaction :=
  match m with
  | CallGetCategories => transaction_of (getStore categoriesRef readonly this f)
  | CallAddCategory _ => transaction_of (getStore categoriesRef readwrite this f)
  | CallGetItems _ => transaction_of (getStore itemsRef readonly this f)
  | CallAddItem _ => transaction_of (getStore itemsRef readwrite this f)
  | CallDeleteCategory _ => transaction_of (getStore categoriesRef readwrite this f)
  | CallDeleteItem _ => transaction_of (getStore itemsRef readwrite this f)
  end.

(** A page with its one service: the promise, the callers waiting for it
    in the order they called, the origin's storage, and every transaction
    opened since the page was loaded, oldest first. *)
Record Page := mkPage {
  promise : Awaited;
  awaiting : list Method;
  storage : IDBFactory;
  transactions : list IDBTransaction
}.

(** The page right after [new DatabaseService()] in a browser that has
    IndexedDB: the request is issued, nothing has happened yet. *)
Definition load (f : IDBFactory) : Page := mkPage Pending [] f [].

(** A method going on after [await this.dbPromise] gave [p]. *)
Definition perform (p : Promise IDBConnection) (m : Method) (pg : Page) : Page :=
  let this := DatabaseService.mk p in
  mkPage (promise pg) (awaiting pg)
         (step (to_call m) (this, storage pg)).2
         (transactions pg ++ opened_by m this (storage pg)).

Definition resume (p : Promise IDBConnection) (ms : list Method) (pg : Page) : Page :=
  foldl (λ pg m, perform p m pg) pg ms.

(** What happens to the page: a caller invokes a method, or the browser
    delivers the events of the constructor's open request. *)
Inductive Event :=
  | Invoke (m : Method)
  | OpenSettles.

Definition handle (e : Event) (pg : Page) : Page :=
  match e with
  | Invoke m =>
    match promise pg with
    | Pending => mkPage Pending (awaiting pg ++ [m]) (storage pg) (transactions pg)
    | Settled p => perform p m pg
    end
  | OpenSettles =>
    match promise pg with
    | Pending =>
      let '(this, window_indexedDB) := constructor (Some (storage pg)) in
      resume (dbPromise this) (awaiting pg)
        (mkPage (Settled (dbPromise this)) []
                (default (storage pg) window_indexedDB) (transactions pg))
    | Settled _ => pg
    end
  end.

Fixpoint play (es : list Event) (pg : Page) : Page :=
  match es with
  | [] => pg
  | e :: es' => play es' (handle e pg)
  end.

(** Callers that invoke before the request's events arrive, the events,
    and callers that invoke afterwards. *)
Definition around_opening (before after : list Method) : list Event :=
  (Invoke <$> before) ++ OpenSettles :: (Invoke <$> after).

End Opening.

(** ** The recorder's events

    [stopRecording] makes no blob: it calls [mediaRecorder.stop()], and the
    blob is made by the [onstop] handler when the browser fires the
    recorder's stop event.  The browser fires that event once for a
    recorder, after [stop()] was called on it while it was recording; a
    recorder delivers data from its start until its stop event.  (A
    recorder whose stream ends on its own is left out.)  A recorder is
    named by its stream. *)

Module Capture.
Import AppComponent.

Inductive RecorderEvent :=
  | dataavailable (recorder : nat) (data : Blob.t)
  | stop (recorder : nat).

(** What happens to the page: the two methods are called, and the browser
    fires events of recorders. *)
Inductive Event :=
  | CallStartRecording (o : Outcome)
  | CallStopRecording
  | Fire (e : RecorderEvent).

(** The page, and the browser's recorders: those started whose stop event
    has not been fired, and those among them on which [stop()] has been
    called. *)
Record Studio := mkStudio {
  page : t * Browser;
  live : list nat;
  stopping : list nat
}.

(** A page on which no recorder is running. *)
Definition studio (st : t * Browser) : Studio := mkStudio st [] [].

(** The recorder a call of [startRecording] starts: [new MediaRecorder]
    and [start()] are reached, and succeed, when the stream is granted and
    the recorder can be built. *)
Definition started_by (o : Outcome) (b : Browser) : list nat :=
  match o with
  | granted => [streams b]
  | _ => []
  end.

(** The recorder on which a call of [stopRecording] has called [stop()]:
    the component's recorder, when the call has turned it from recording
    to inactive. *)
Definition stopped_by (before after : t) : list nat :=
  match mediaRecorder before, mediaRecorder after with
  | Some r, Some r' =>
    match state r, state r' with
    | recording, inactive => [stream r]
    | _, _ => []
    end
  | _, _ => []
  end.

(** An event the browser cannot fire at that point does not happen: the
    studio stays as it is. *)
Definition deliver (e : Event) (sd : Studio) : Studio :=
  match e with
  | CallStartRecording o =>
    mkStudio (startRecording o (page sd)).2
             (live sd ++ started_by o (page sd).2) (stopping sd)
  | CallStopRecording =>
    let this := stopRecording (page sd).1 in
    mkStudio (this, (page sd).2) (live sd)
             (stopping sd ++ filter (λ r, r ∈ live sd) (stopped_by (page sd).1 this))
  | Fire (dataavailable recorder data) =>
    if decide (recorder ∈ live sd)
    then mkStudio (ondataavailable data (page sd).1, (page sd).2) (live sd) (stopping sd)
    else sd
  | Fire (stop recorder) =>
    if decide (recorder ∈ stopping sd)
    then mkStudio (onstop recorder (page sd))
                  (filter (λ r, r ≠ recorder) (live sd))
                  (filter (λ r, r ≠ recorder) (stopping sd))
    else sd
  end.

Fixpoint deliver_all (es : list Event) (sd : Studio) : Studio :=
  match es with
  | [] => sd
  | e :: es' => deliver_all es' (deliver e sd)
  end.

(** A recorder delivering chunks, one event each. *)
Definition delivered (recorder : nat) (chunks : list Blob.t) : list Event :=
  (λ data, Fire (dataavailable recorder data)) <$> chunks.

(** A recording on [recorder]: the start and the chunks delivered before
    [stopRecording] is called; then the call and the chunks delivered after
    it; then the recorder's stop event. *)
Definition started (recorder : nat) (chunks1 : list Blob.t) : list Event :=
  CallStartRecording granted :: delivered recorder chunks1.

Definition stopped (recorder : nat) (chunks1 chunks2 : list Blob.t) : list Event :=
  started recorder chunks1 ++ CallStopRecording :: delivered recorder chunks2.

Definition finished (recorder : nat) (chunks1 chunks2 : list Blob.t) : list Event :=
  stopped recorder chunks1 chunks2 ++ [Fire (stop recorder)].

End Capture.

(** * Properties *)

(** ** Object stores *)

Module StoreFacts.
Import IDB.

Section store_facts.
Context {V : Type} `{!Storable V}.
Implicit Types (s : ObjectStore V) (ix : Index) (v : V).

Lemma any_conflict_false v s : no_unique s → any_conflict v s = false.
Proof.
  intros Hu. apply bool_decide_eq_false. rewrite Exists_exists.
  intros (ix & Hin & Hc).
  apply list_elem_of_fmap in Hin as ([name ix'] & -> & Hin).
  apply elem_of_map_to_list in Hin. simpl in Hc.
  unfold index_conflict in Hc. by rewrite (Hu _ _ Hin) in Hc.
Qed.

Lemma fresh_key s :
  gen_ok s → currentNumber s ≤ MAX_KEY → records s !! currentNumber s = None.
Proof.
  intros Hg Hle. destruct (records s !! currentNumber s) eqn:E; [|done].
  specialize (Hg (currentNumber s)). rewrite E in Hg.
  specialize (Hg (mk_is_Some _ _ eq_refl)). lia.
Qed.

Lemma put_record_ok k v n s :
  store_ok s → records s !! k = None → evaluate "id" v = Some k →
  Z.min k MAX_KEY < n → currentNumber s ≤ n →
  store_ok (put_record k v n s).
Proof.
  intros [Hkp Hai Hk Hg Hi Hu] Hnone Hev Hlt Hle.
  split; unfold keys_ok, gen_ok, index_ok, no_unique; simpl; try done.
  - intros k' v'. rewrite lookup_insert. case_decide as E.
    + intros [= <-]. subst k'. by rewrite Hkp.
    + apply Hk.
  - intros k'. rewrite lookup_insert. case_decide as E.
    + subst k'. intros _. done.
    + intros Hs. specialize (Hg _ Hs). lia.
  - intros name ix. rewrite lookup_fmap.
    destruct (indexes s !! name) as [ix0|] eqn:E; [|done].
    intros [= <-] p k'. simpl. rewrite elem_of_union, (Hi _ _ E).
    unfold entry_of. split.
    + intros [(v' & Hv' & Hp)|Hin].
      * exists v'. rewrite lookup_insert_ne; [done|congruence].
      * destruct (evaluate (ix_keyPath ix0) v) as [p'|] eqn:Ev.
        -- apply elem_of_singleton in Hin as [= -> ->].
           exists v. by rewrite lookup_insert_eq.
        -- by apply not_elem_of_empty in Hin.
    + intros (v' & Hv' & Hp). rewrite lookup_insert in Hv'.
      case_decide as Ek.
      * injection Hv' as <-. subst k'. right. rewrite Hp.
        by apply elem_of_singleton.
      * left. eauto.
  - intros name ix. rewrite lookup_fmap.
    destruct (indexes s !! name) as [ix0|] eqn:E; [|done].
    intros [= <-]. simpl. by eapply Hu.
Qed.

Lemma add_ok mode v s : store_ok s → store_ok (add mode v s).2.
Proof.
  intros Hok. pose proof Hok as [Hkp Hai Hk Hg Hi Hu].
  unfold add. destruct mode; [done|].
  rewrite Hai, (any_conflict_false _ _ Hu), Hkp.
  destruct (evaluate "id" v) as [k|] eqn:Ev.
  - case_decide as Hin; [done|]. simpl.
    apply put_record_ok; try done.
    + by apply eq_None_not_Some.
    + unfold bump. simpl. case_decide; lia.
    + unfold bump. simpl. case_decide; lia.
  - case_decide as Hmax; [done|]. simpl.
    apply put_record_ok; try done.
    + apply fresh_key; [done|lia].
    + apply evaluate_inject_id.
    + lia.
    + lia.
Qed.

Lemma delete_ok mode k s : store_ok s → store_ok (delete mode k s).2.
Proof.
  intros [Hkp Hai Hk Hg Hi Hu]. unfold delete. destruct mode; [done|].
  split; unfold keys_ok, gen_ok, index_ok, no_unique; simpl; try done.
  - intros k' v'. rewrite lookup_delete. case_decide; [done|apply Hk].
  - intros k'. rewrite lookup_delete. case_decide.
    + by intros [? ?].
    + apply Hg.
  - intros name ix. rewrite lookup_fmap.
    destruct (indexes s !! name) as [ix0|] eqn:E; [|done].
    intros [= <-] p k'. simpl. rewrite elem_of_filter, (Hi _ _ E).
    simpl. split.
    + intros (Hne & v' & Hv' & Hp). exists v'. by rewrite lookup_delete_ne.
    + intros (v' & Hv' & Hp). rewrite lookup_delete in Hv'.
      case_decide; [done|]. split; eauto.
  - intros name ix. rewrite lookup_fmap.
    destruct (indexes s !! name) as [ix0|] eqn:E; [|done].
    intros [= <-]. simpl. by eapply Hu.
Qed.

(** A value without a key gets the generator's number, unless the
    generator is exhausted. *)
Lemma add_generated v s :
  store_ok s → evaluate "id" v = None → currentNumber s ≤ MAX_KEY →
  add readwrite v s =
    (Fulfilled (currentNumber s),
     put_record (currentNumber s) (inject (currentNumber s) v)
                (currentNumber s + 1) s).
Proof.
  intros [Hkp Hai Hk Hg Hi Hu] Hev Hle. unfold add.
  rewrite Hkp, Hev, Hai, (any_conflict_false _ _ Hu).
  by rewrite decide_False by lia.
Qed.

Lemma add_exhausted v s :
  store_ok s → evaluate "id" v = None → MAX_KEY < currentNumber s →
  add readwrite v s = (Rejected (Exception ConstraintError), s).
Proof.
  intros [Hkp Hai Hk Hg Hi Hu] Hev Hlt. unfold add.
  rewrite Hkp, Hev, Hai. by rewrite decide_True.
Qed.

Lemma elem_of_getAll v s : v ∈ getAll s ↔ ∃ k, records s !! k = Some v.
Proof.
  unfold getAll. rewrite list_elem_of_fmap. split.
  - intros ([k v'] & -> & Hin). rewrite merge_sort_Permutation in Hin.
    apply elem_of_map_to_list in Hin. eauto.
  - intros (k & Hk). exists (k, v). split; [done|].
    rewrite merge_sort_Permutation. by apply elem_of_map_to_list.
Qed.

Lemma elem_of_index_keys ix q k : k ∈ index_keys ix q ↔ (q, k) ∈ entries ix.
Proof.
  unfold index_keys. rewrite merge_sort_Permutation, list_elem_of_fmap.
  split.
  - intros ([p k'] & -> & Hin). apply elem_of_elements, elem_of_filter in Hin.
    simpl in Hin. by destruct Hin as [-> ?].
  - intros Hin. exists (q, k). split; [done|].
    apply elem_of_elements, elem_of_filter. done.
Qed.

(** With a consistent index, [index.getAll(q)] is exactly the stored
    values whose index key path evaluates to [q]. *)
Lemma elem_of_index_getAll name ix q v s :
  index_ok s → indexes s !! name = Some ix →
  v ∈ index_getAll s ix q ↔
  ∃ k, records s !! k = Some v ∧ evaluate (ix_keyPath ix) v = Some q.
Proof.
  intros Hi Hix. unfold index_getAll. rewrite list_elem_of_omap. split.
  - intros (k & Hin & Hk). exists k. split; [done|].
    apply elem_of_index_keys, (Hi _ _ Hix) in Hin as (v' & Hv' & Hp).
    congruence.
  - intros (k & Hk & Hp). exists k. split; [|done].
    apply elem_of_index_keys, (Hi _ _ Hix). eauto.
Qed.

Lemma add_keyPaths mode v s name :
  ix_keyPath <$> (indexes (add mode v s).2 !! name)
  = ix_keyPath <$> (indexes s !! name).
Proof.
  unfold add. repeat (case_match; try done); simpl;
    rewrite lookup_fmap; by destruct (indexes s !! name).
Qed.

Lemma delete_keyPaths mode k s name :
  ix_keyPath <$> (indexes (delete mode k s).2 !! name)
  = ix_keyPath <$> (indexes s !! name).
Proof.
  unfold delete. destruct mode; [done|]. simpl.
  rewrite lookup_fmap. by destruct (indexes s !! name).
Qed.

(** The generator never moves backwards. *)
Lemma add_currentNumber_mono mode v s :
  currentNumber s ≤ currentNumber (add mode v s).2.
Proof.
  unfold add, bump. repeat (case_match; try done); simpl; lia.
Qed.

Lemma delete_currentNumber mode k s :
  currentNumber (delete mode k s).2 = currentNumber s.
Proof. unfold delete. by destruct mode. Qed.

(** Whatever key [add] answers with, the generator is past it
    afterwards. *)
Lemma add_key_below mode v s k :
  store_ok s → (add mode v s).1 = Fulfilled k →
  Z.min k MAX_KEY < currentNumber (add mode v s).2.
Proof.
  intros Hok Hk. pose proof (add_ok mode v s Hok) as [_ _ _ Hg _ _].
  apply Hg. revert Hk. unfold add.
  repeat (case_match; try done); simpl; intros [= <-];
    by rewrite lookup_insert_eq.
Qed.

(** Deleting a key removes that record and no other. *)
Lemma delete_records k k' s :
  records (delete readwrite k s).2 !! k'
  = if decide (k = k') then None else records s !! k'.
Proof. simpl. apply lookup_delete. Qed.

(** Deleting a key that is not stored changes nothing at all. *)
Lemma delete_absent k s :
  index_ok s → records s !! k = None →
  delete readwrite k s = (Fulfilled (), s).
Proof.
  intros Hi Hnone. unfold delete. f_equal. destruct s as [kp ai rs n ixs].
  simpl in *. f_equal.
  - by apply delete_id.
  - apply map_eq. intros name. rewrite lookup_fmap.
    destruct (ixs !! name) as [ix|] eqn:E; [|done]. simpl. f_equal.
    destruct ix as [ikp iu es]. unfold index_remove. simpl. f_equal.
    apply set_eq. intros [p k']. rewrite elem_of_filter. simpl.
    split; [by intros [_ ?]|]. intros Hin. split; [|done].
    intros ->. apply (Hi _ _ E) in Hin as (v & Hv & _). simpl in Hv.
    congruence.
Qed.

Lemma emptyStore_ok : store_ok (emptyStore (V := V) "id" true).
Proof.
  split; unfold keys_ok, gen_ok, index_ok, no_unique; simpl; try done.
  intros k [v Hv]. by rewrite lookup_empty in Hv.
Qed.

(** The values [index.getAll] returns are distinct. *)
Lemma NoDup_index_getAll ix q s :
  keys_ok s → NoDup (index_getAll s ix q).
Proof.
  intros Hk. unfold index_getAll.
  assert (NoDup (index_keys ix q)) as Hnd.
  { unfold index_keys. rewrite merge_sort_Permutation.
    apply NoDup_fmap_2_strong; [|apply NoDup_elements].
    intros [p1 k1] [p2 k2] H1 H2 Heq. simpl in Heq. subst k2.
    apply elem_of_elements, elem_of_filter in H1 as [H1 _].
    apply elem_of_elements, elem_of_filter in H2 as [H2 _].
    simpl in *. congruence. }
  induction Hnd as [|k ks Hnotin Hnd IH]; simpl; [constructor|].
  destruct (records s !! k) as [v|] eqn:E; [|done].
  constructor; [|done]. rewrite list_elem_of_omap.
  intros (k' & Hin & Hk'). apply Hk in E, Hk'.
  rewrite E in Hk'. by injection Hk' as ->.
Qed.

(** After a delete, [getAll] lists what it listed before, less the value
    with that key. *)
Lemma getAll_delete k v s :
  keys_ok s →
  v ∈ getAll (delete readwrite k s).2 ↔
  v ∈ getAll s ∧ evaluate (keyPath s) v ≠ Some k.
Proof.
  intros Hk. rewrite !elem_of_getAll. split.
  - intros (k' & Hk'). rewrite delete_records in Hk'. case_decide; [done|].
    split; [eauto|]. rewrite (Hk _ _ Hk'). congruence.
  - intros ((k' & Hk') & Hne). exists k'. rewrite delete_records.
    rewrite (Hk _ _ Hk') in Hne. rewrite decide_False; [done|congruence].
Qed.

(** After a successful add, [getAll] lists the new value and what it
    listed before. *)
Lemma getAll_put k v n s v' :
  records s !! k = None →
  v' ∈ getAll (put_record k v n s) ↔ v' = v ∨ v' ∈ getAll s.
Proof.
  intros Hnone. rewrite !elem_of_getAll. simpl. split.
  - intros (k' & Hk'). rewrite lookup_insert in Hk'. case_decide.
    + left. congruence.
    + right. eauto.
  - intros [->|(k' & Hk')].
    + exists k. by rewrite lookup_insert_eq.
    + exists k'. rewrite lookup_insert_ne; [done|congruence].
Qed.
End store_facts.

End StoreFacts.

(** ** The service *)

Module ServiceFacts.
Import IDB DatabaseService StoreFacts.

Implicit Types (this : t) (f : IDBFactory) (db : IDBDatabase) (st : t * IDBFactory).

#[local] Arguments add : simpl never.
#[local] Arguments IDB.delete : simpl never.
#[local] Arguments getAll : simpl never.
#[local] Arguments index_getAll : simpl never.

Lemma boot_eq : boot = (mk (Fulfilled (mkConnection 0)), mkFactory bootDatabase 1 1).
Proof. reflexivity. Qed.

Lemma bootDatabase_ok : db_ok bootDatabase.
Proof.
  split; try done.
  - apply emptyStore_ok.
  - split; unfold keys_ok, gen_ok, index_ok, no_unique; simpl; try done.
    + intros k [v Hv]. by rewrite lookup_empty in Hv.
    + intros name ix [[_ <-]|[_ Hv]]%lookup_insert_Some p k;
        [|by rewrite lookup_empty in Hv].
      simpl. split; [by intros ?%not_elem_of_empty|].
      intros (v & Hv & _). by rewrite lookup_empty in Hv.
    + intros name ix [[_ <-]|[_ Hv]]%lookup_insert_Some; [done|].
      by rewrite lookup_empty in Hv.
Qed.

Lemma boot_opened : opened boot.
Proof. rewrite boot_eq. split; [done|apply bootDatabase_ok]. Qed.

(** *** The methods on an opened database *)

Lemma addCategory_opened c st :
  opened st →
  addCategory c st.1 st.2 =
    ((add readwrite c (categoriesStore (database st.2))).1,
     mkFactory (ref_set categoriesRef
                  (add readwrite c (categoriesStore (database st.2))).2
                  (database st.2))
               (connections st.2) (upgrades st.2)).
Proof.
  destruct st as [this f]. intros [Hp [_ Hn _ _ _]]. simpl in *.
  unfold addCategory, getStore, request. destruct (dbPromise this); [|done].
  rewrite Hn. simpl. rewrite Hn. by destruct (add readwrite c _).
Qed.

Lemma addItem_opened i st :
  opened st →
  addItem i st.1 st.2 =
    ((add readwrite i (itemsStore (database st.2))).1,
     mkFactory (ref_set itemsRef
                  (add readwrite i (itemsStore (database st.2))).2
                  (database st.2))
               (connections st.2) (upgrades st.2)).
Proof.
  destruct st as [this f]. intros [Hp [_ Hn _ _ _]]. simpl in *.
  unfold addItem, getStore, request. destruct (dbPromise this); [|done].
  rewrite Hn. simpl. rewrite Hn. by destruct (add readwrite i _).
Qed.

Lemma deleteCategory_opened id st :
  opened st →
  deleteCategory id st.1 st.2 =
    (Fulfilled (),
     mkFactory (ref_set categoriesRef
                  (IDB.delete readwrite id (categoriesStore (database st.2))).2
                  (database st.2))
               (connections st.2) (upgrades st.2)).
Proof.
  destruct st as [this f]. intros [Hp [_ Hn _ _ _]]. simpl in *.
  unfold deleteCategory, getStore, request. destruct (dbPromise this); [|done].
  rewrite Hn. unfold IDB.delete. simpl. by rewrite Hn.
Qed.

Lemma deleteItem_opened id st :
  opened st →
  deleteItem id st.1 st.2 =
    (Fulfilled (),
     mkFactory (ref_set itemsRef
                  (IDB.delete readwrite id (itemsStore (database st.2))).2
                  (database st.2))
               (connections st.2) (upgrades st.2)).
Proof.
  destruct st as [this f]. intros [Hp [_ Hn _ _ _]]. simpl in *.
  unfold deleteItem, getStore, request. destruct (dbPromise this); [|done].
  rewrite Hn. unfold IDB.delete. simpl. by rewrite Hn.
Qed.

Lemma getCategories_opened st :
  opened st →
  getCategories st.1 st.2 = Fulfilled (getAll (categoriesStore (database st.2))).
Proof.
  destruct st as [this f]. intros [Hp [_ Hn _ _ _]]. simpl in *.
  unfold getCategories, getStore. destruct (dbPromise this); [|done].
  by rewrite Hn.
Qed.

Lemma getItems_opened cid st :
  opened st →
  ∃ index,
    indexes (itemsStore (database st.2)) !! "categoryId" = Some index ∧
    ix_keyPath index = "categoryId" ∧
    getItems cid st.1 st.2
    = Fulfilled (index_getAll (itemsStore (database st.2)) index cid).
Proof.
  destruct st as [this f]. intros [Hp [_ Hn _ _ Hix]]. simpl in *.
  unfold getItems, getStore. destruct (dbPromise this); [|done].
  rewrite Hn. simpl.
  destruct (indexes (itemsStore (database f)) !! "categoryId") as [ix|]; [|done].
  exists ix. injection Hix as Hix. done.
Qed.

(** Reloading the page on an opened database changes nothing stored. *)
Lemma reload_opened st :
  opened st →
  step Reload st =
    (mk (Fulfilled (mkConnection (connections st.2))),
     mkFactory (database st.2) (S (connections st.2)) (upgrades st.2)).
Proof.
  destruct st as [this f]. intros [Hp [Hv _ _ _ _]]. simpl in *.
  unfold open. rewrite Hv. done.
Qed.

Lemma step_opened c st : opened st → opened (step c st).
Proof.
  intros Hop. pose proof Hop as [Hp [Hv Hn Hc Hi Hix]].
  destruct c.
  - by destruct st.
  - destruct st as [this f]. unfold step.
    rewrite (addCategory_opened _ (this, f) Hop). split; [done|].
    split; simpl; try done. by apply add_ok.
  - by destruct st.
  - destruct st as [this f]. unfold step.
    rewrite (addItem_opened _ (this, f) Hop). split; [done|].
    split; simpl; try done; [by apply add_ok|].
    etrans; [|exact Hix]. apply (add_keyPaths readwrite).
  - destruct st as [this f]. unfold step.
    rewrite (deleteCategory_opened _ (this, f) Hop). split; [done|].
    split; simpl; try done. by apply (delete_ok readwrite).
  - destruct st as [this f]. unfold step.
    rewrite (deleteItem_opened _ (this, f) Hop). split; [done|].
    split; simpl; try done; [by apply (delete_ok readwrite)|].
    etrans; [|exact Hix]. apply (delete_keyPaths readwrite).
  - rewrite (reload_opened _ Hop). split; [done|]. by destruct st.
Qed.

Lemma run_opened cs st : opened st → opened (run cs st).
Proof.
  revert st. induction cs as [|c cs IH]; intros st Hop; [done|].
  simpl. by apply IH, step_opened.
Qed.

(** Every state a history of calls reaches from the first page load. *)
Lemma reachable_opened cs : opened (run cs boot).
Proof. apply run_opened, boot_opened. Qed.

(** *** Listing the items of a category *)

Lemma evaluate_categoryId (it : Item.t) q :
  evaluate "categoryId" it = Some q ↔ Item.categoryId it = q.
Proof. simpl. unfold Item_evaluate. simpl. split; congruence. Qed.

Lemma getItems_characterised st categoryId :
  opened st →
  ∃ result,
    getItems categoryId st.1 st.2 = Fulfilled result ∧
    NoDup result ∧
    ∀ it, it ∈ result ↔
          it ∈ getAll (itemsStore (database st.2)) ∧
          Item.categoryId it = categoryId.
Proof.
  intros Hop.
  destruct (getItems_opened categoryId st Hop) as (ix & Hix & Hkp & ->).
  destruct Hop as [_ [_ _ _ [Hid _ Hk _ Hi _] _]].
  exists (index_getAll (itemsStore (database st.2)) ix categoryId).
  split; [done|]. split; [by apply NoDup_index_getAll|].
  intros it. rewrite (elem_of_index_getAll _ _ _ _ _ Hi Hix), Hkp.
  rewrite elem_of_getAll. split.
  - intros (k & Hr & He). split; [eauto|]. by apply evaluate_categoryId.
  - intros ((k & Hr) & He). exists k. split; [done|].
    by apply evaluate_categoryId.
Qed.

(** C3: in every state the service reaches, [getItems(categoryId)] answers
    with exactly the stored Item records whose [categoryId] is the argument:
    each of them once, and no item of another category. *)
Theorem getItems_exact (calls : list Call) (categoryId : Z) :
  let st := run calls boot in
  ∃ result,
    getItems categoryId st.1 st.2 = Fulfilled result ∧
    NoDup result ∧
    ∀ it, it ∈ result ↔
          it ∈ getAll (itemsStore (database st.2)) ∧
          Item.categoryId it = categoryId.
Proof.
  intros st. apply getItems_characterised, reachable_opened.
Qed.

(** *** Deleting *)

(** C1: in every state the service reaches, [deleteCategory(id)] completes
    and the categories are afterwards those listed before less the record
    with that id; when no listed category has the id, nothing at all
    changes.  [deleteItem(id)] does the same on the items. *)
Theorem delete_removes_or_noop (calls : list Call) (id : Z) :
  let st := run calls boot in
  (∃ f',
     deleteCategory id st.1 st.2 = (Fulfilled (), f') ∧
     (∀ c, c ∈ getAll (categoriesStore (database f')) ↔
           c ∈ getAll (categoriesStore (database st.2)) ∧ Category.id c ≠ Some id) ∧
     ((∀ c, c ∈ getAll (categoriesStore (database st.2)) → Category.id c ≠ Some id) →
      f' = st.2)) ∧
  (∃ f',
     deleteItem id st.1 st.2 = (Fulfilled (), f') ∧
     (∀ i, i ∈ getAll (itemsStore (database f')) ↔
           i ∈ getAll (itemsStore (database st.2)) ∧ Item.id i ≠ Some id) ∧
     ((∀ i, i ∈ getAll (itemsStore (database st.2)) → Item.id i ≠ Some id) →
      f' = st.2)).
Proof.
  intros st. pose proof (reachable_opened calls) as Hop. fold st in Hop.
  pose proof Hop as [_ [_ _ [Hkc _ Hc _ Hic _] [Hki _ Hi _ Hii _] _]].
  split.
  - rewrite (deleteCategory_opened id st Hop). eexists. split; [done|]. split.
    + intros c. etrans; [apply (getAll_delete id c _ Hc)|]. by rewrite Hkc.
    + intros Hnone. rewrite delete_absent; [by destruct st as [? [[] ? ?]]|done|].
      destruct (records (categoriesStore (database st.2)) !! id) as [c|] eqn:E;
        [|done].
      exfalso. apply (Hnone c); [apply elem_of_getAll; eauto|].
      apply Hc in E. by rewrite Hkc in E.
  - rewrite (deleteItem_opened id st Hop). eexists. split; [done|]. split.
    + intros i. etrans; [apply (getAll_delete id i _ Hi)|]. by rewrite Hki.
    + intros Hnone. rewrite delete_absent; [by destruct st as [? [[] ? ?]]|done|].
      destruct (records (itemsStore (database st.2)) !! id) as [i|] eqn:E;
        [|done].
      exfalso. apply (Hnone i); [apply elem_of_getAll; eauto|].
      apply Hi in E. by rewrite Hki in E.
Qed.

(** C8: in every state the service reaches, [deleteCategory(id)] leaves
    the items store as it was: [getItems] answers as before for every
    category, and every stored item of the deleted category is still
    returned by [getItems(id)]. *)
Theorem deleteCategory_keeps_items (calls : list Call) (id : Z) :
  let st := run calls boot in
  let f' := (deleteCategory id st.1 st.2).2 in
  itemsStore (database f') = itemsStore (database st.2) ∧
  (∀ categoryId, getItems categoryId st.1 f' = getItems categoryId st.1 st.2) ∧
  (∀ it, it ∈ getAll (itemsStore (database st.2)) → Item.categoryId it = id →
         ∃ result, getItems id st.1 f' = Fulfilled result ∧ it ∈ result).
Proof.
  intros st f'. pose proof (reachable_opened calls) as Hop. fold st in Hop.
  assert (itemsStore (database f') = itemsStore (database st.2)
          ∧ objectStoreNames (database f') = objectStoreNames (database st.2))
    as [Hsame Hnames].
  { unfold f'. by rewrite (deleteCategory_opened id st Hop). }
  assert (∀ categoryId, getItems categoryId st.1 f' = getItems categoryId st.1 st.2)
    as Hget.
  { intros categoryId. unfold getItems, getStore. cbn [ref_name ref_get itemsRef os_ref].
    rewrite Hnames. destruct (dbPromise st.1); [|done].
    destruct (contains _ _); [|done]. cbn [ref_name ref_get itemsRef os_ref].
    by rewrite Hsame. }
  split; [done|]. split; [done|].
  intros it Hin Hcat. rewrite Hget.
  destruct (getItems_characterised st id Hop) as (result & Hres & _ & Hex).
  exists result. split; [done|]. apply Hex. done.
Qed.

(** *** Identity assignment *)

Lemma step_categoryNumber_mono c st :
  opened st → categoryNumber st ≤ categoryNumber (step c st).
Proof.
  intros Hop. unfold categoryNumber. destruct c; try (destruct st; simpl; lia).
  - destruct st as [this f]. unfold step.
    rewrite (addCategory_opened _ (this, f) Hop). apply add_currentNumber_mono.
  - destruct st as [this f]. unfold step.
    rewrite (addItem_opened _ (this, f) Hop). simpl. lia.
  - destruct st as [this f]. unfold step.
    rewrite (deleteCategory_opened _ (this, f) Hop). simpl. lia.
  - destruct st as [this f]. unfold step.
    rewrite (deleteItem_opened _ (this, f) Hop). simpl. lia.
  - rewrite (reload_opened _ Hop). simpl. lia.
Qed.

Lemma run_categoryNumber_mono cs st :
  opened st → categoryNumber st ≤ categoryNumber (run cs st).
Proof.
  revert st. induction cs as [|c cs IH]; intros st Hop; simpl; [lia|].
  etrans; [by apply (step_categoryNumber_mono c)|]. by apply IH, step_opened.
Qed.

(** The generator stays past every id [addCategory] has answered with,
    whether the record is still stored or not. *)
Lemma history_below cs st k :
  opened st → k ∈ history cs st →
  Z.min k MAX_KEY < categoryNumber (run cs st).
Proof.
  revert st. induction cs as [|c cs IH]; intros st Hop; simpl.
  - by intros ?%not_elem_of_nil.
  - rewrite elem_of_app. intros [Hin|Hin]; [|by apply IH; [apply step_opened|]].
    eapply Z.lt_le_trans; [|by apply run_categoryNumber_mono, step_opened].
    destruct c; simpl in Hin; try by apply not_elem_of_nil in Hin.
    destruct st as [this f]. unfold step, categoryNumber.
    rewrite (addCategory_opened _ (this, f) Hop) in Hin |- *.
    cbn [fst snd] in Hin.
    destruct ((add readwrite category _).1) as [k'|] eqn:E;
      [|by apply not_elem_of_nil in Hin].
    apply list_elem_of_singleton in Hin as ->.
    destruct Hop as [_ [_ _ Hc _ _]]. by apply add_key_below.
Qed.

Lemma addCategory_generated st category :
  opened st → Category.id category = None → categoryNumber st ≤ MAX_KEY →
  ∃ f',
    addCategory category st.1 st.2 = (Fulfilled (categoryNumber st), f') ∧
    (∀ c, c ∈ getAll (categoriesStore (database f')) ↔
          c = Category_inject (categoryNumber st) category ∨
          c ∈ getAll (categoriesStore (database st.2))) ∧
    records (categoriesStore (database st.2)) !! categoryNumber st = None.
Proof.
  intros Hop Hid Hle. rewrite (addCategory_opened _ st Hop).
  destruct Hop as [_ [_ _ Hc _ _]].
  rewrite (add_generated _ _ Hc) by done. eexists. split; [done|].
  assert (records (categoriesStore (database st.2)) !! categoryNumber st = None)
    as Hnone by (apply fresh_key; [apply Hc|done]).
  split; [|done]. intros c. apply (getAll_put _ _ _ _ _ Hnone).
Qed.

Lemma addItem_generated st item :
  opened st → Item.id item = None →
  currentNumber (itemsStore (database st.2)) ≤ MAX_KEY →
  ∃ f',
    addItem item st.1 st.2
    = (Fulfilled (currentNumber (itemsStore (database st.2))), f') ∧
    (∀ i, i ∈ getAll (itemsStore (database f')) ↔
          i = Item_inject (currentNumber (itemsStore (database st.2))) item ∨
          i ∈ getAll (itemsStore (database st.2))).
Proof.
  intros Hop Hid Hle. rewrite (addItem_opened _ st Hop).
  destruct Hop as [_ [_ _ _ Hi _]].
  rewrite (add_generated _ _ Hi) by done. eexists. split; [done|].
  intros i. apply getAll_put. apply fresh_key; [apply Hi|done].
Qed.

(** With the generator exhausted the request fails and nothing is
    stored. *)
Lemma addCategory_exhausted st category :
  opened st → Category.id category = None → MAX_KEY < categoryNumber st →
  addCategory category st.1 st.2 = (Rejected (Exception ConstraintError), st.2).
Proof.
  intros Hop Hid Hlt. rewrite (addCategory_opened _ st Hop).
  destruct Hop as [_ [_ _ Hc _ _]].
  rewrite (add_exhausted _ _ Hc) by done. by destruct st as [? [[] ? ?]].
Qed.

Lemma addItem_exhausted st item :
  opened st → Item.id item = None →
  MAX_KEY < currentNumber (itemsStore (database st.2)) →
  addItem item st.1 st.2 = (Rejected (Exception ConstraintError), st.2).
Proof.
  intros Hop Hid Hlt. rewrite (addItem_opened _ st Hop).
  destruct Hop as [_ [_ _ _ Hi _]].
  rewrite (add_exhausted _ _ Hi) by done. by destruct st as [? [[] ? ?]].
Qed.

(** C4: in every state the service reaches, with the key generator not
    exhausted, [addCategory] of a record without id answers with an id;
    [getCategories] then lists the record with that name, picture and id
    along with every record listed before, unchanged; and the id is none of
    those [addCategory] ever answered with, nor the id of a listed record. *)
Theorem addCategory_fresh (calls : list Call) (name : string) (picture : Blob.t) :
  let st := run calls boot in
  currentNumber (categoriesStore (database st.2)) ≤ MAX_KEY →
  ∃ id f',
    addCategory (Category.mk None name picture) st.1 st.2 = (Fulfilled id, f') ∧
    (∃ l, getCategories st.1 f' = Fulfilled l ∧
          Category.mk (Some id) name picture ∈ l ∧
          ∀ c, c ∈ getAll (categoriesStore (database st.2)) → c ∈ l) ∧
    (id ∉ history calls boot) ∧
    (∀ c, c ∈ getAll (categoriesStore (database st.2)) → Category.id c ≠ Some id).
Proof.
  intros st Hle. pose proof (reachable_opened calls) as Hop. fold st in Hop.
  destruct (addCategory_generated st (Category.mk None name picture) Hop eq_refl Hle)
    as (f' & Hadd & Hall & Hnone).
  exists (categoryNumber st), f'. split; [done|].
  assert (opened (st.1, f')) as Hop'.
  { pose proof (step_opened (AddCategory (Category.mk None name picture)) st Hop)
      as Hs. destruct st as [this f]. simpl in Hs, Hadd. by rewrite Hadd in Hs. }
  split; [|split].
  - exists (getAll (categoriesStore (database f'))).
    split; [apply (getCategories_opened _ Hop')|].
    split; [apply Hall; by left|]. intros c Hc. apply Hall. by right.
  - intros Hin. apply (history_below _ _ _ boot_opened) in Hin.
    fold st in Hin. unfold categoryNumber in *. lia.
  - intros c [k Hk]%elem_of_getAll Hid.
    destruct Hop as [_ [_ _ [Hkp _ Hkeys _ _ _] _ _]].
    apply Hkeys in Hk as Hev. rewrite Hkp in Hev. simpl in Hev.
    unfold Category_evaluate in Hev. simpl in Hev.
    assert (k = categoryNumber st) as -> by congruence. congruence.
Qed.

(** The same at the sample history: the next category gets id 3, and 1,
    freed by the deletion, is not handed out again. *)
Lemma addCategory_fresh_witness :
  currentNumber (categoriesStore (database (run sample_history boot).2)) ≤ MAX_KEY ∧
  ∃ id f',
    addCategory (Category.mk None "Birds" png)
      (run sample_history boot).1 (run sample_history boot).2
    = (Fulfilled id, f') ∧
    id ∉ history sample_history boot.
Proof.
  assert (currentNumber (categoriesStore (database (run sample_history boot).2))
          ≤ MAX_KEY) as Hle by (by vm_compute).
  split; [exact Hle|].
  destruct (addCategory_fresh sample_history "Birds" png Hle)
    as (id & f' & Hadd & _ & Hfresh & _).
  exists id, f'. split; [exact Hadd|exact Hfresh].
Defined.

(** *** Opening *)

Lemma onupgradeneeded_version db db' :
  onupgradeneeded db = inr db' → version db' = version db.
Proof.
  unfold onupgradeneeded, createObjectStore, createIndex.
  repeat (case_match; simplify_eq/=; try done); by intros [= <-].
Qed.

Lemma open_database_idempotent f :
  database (open DB_VERSION onupgradeneeded
              (open DB_VERSION onupgradeneeded f).2).2
  = database (open DB_VERSION onupgradeneeded f).2.
Proof.
  unfold open at 2 3. destruct (decide (version (database f) < DB_VERSION)) as [Hlt|Hge].
  - destruct (onupgradeneeded _) as [e|db'] eqn:E; simpl.
    + unfold open. simpl. rewrite decide_True by done. by rewrite E.
    + apply onupgradeneeded_version in E. simpl in E.
      unfold open. simpl. rewrite E.
      rewrite decide_False by lia. by rewrite decide_False by lia.
  - destruct (decide (DB_VERSION < version (database f))) as [Hgt|Hle]; simpl.
    + unfold open. rewrite decide_False by done. by rewrite decide_True.
    + unfold open. simpl. rewrite decide_False by done.
      by rewrite decide_False by done.
Qed.

Lemma run_connections cs st n :
  opened st → dbPromise st.1 = Fulfilled (mkConnection n) →
  connections st.2 = S n →
  dbPromise (run cs st).1 = Fulfilled (mkConnection (n + reloads cs)) ∧
  connections (run cs st).2 = S (n + reloads cs) ∧
  upgrades (run cs st).2 = upgrades st.2.
Proof.
  revert st n. induction cs as [|c cs IH]; intros st n Hop Hp Hc.
  - simpl. by rewrite Nat.add_0_r.
  - pose proof (step_opened c st Hop) as Hop'.
    assert (c = Reload ∨
            (step c st).1 = st.1 ∧ connections (step c st).2 = connections st.2
            ∧ upgrades (step c st).2 = upgrades st.2 ∧ reloads (c :: cs) = reloads cs)
      as [->|(H1 & H2 & H3 & H4)].
    { destruct c; [right|right|right|right|right|right|left]; try done;
        destruct st as [this f]; unfold step.
      - done.
      - by rewrite (addCategory_opened _ (this, f) Hop).
      - done.
      - by rewrite (addItem_opened _ (this, f) Hop).
      - by rewrite (deleteCategory_opened _ (this, f) Hop).
      - by rewrite (deleteItem_opened _ (this, f) Hop). }
    + destruct (IH (step Reload st) (S n) Hop') as (IH1 & IH2 & IH3).
      * by rewrite (reload_opened _ Hop), Hc.
      * by rewrite (reload_opened _ Hop), Hc.
      * cbn [run reloads]. rewrite IH1, IH2, IH3, (reload_opened _ Hop).
        by rewrite <- !Nat.add_succ_comm.
    + destruct (IH (step c st) n Hop') as (IH1 & IH2 & IH3); [congruence..|].
      rewrite H4. cbn [run]. rewrite IH1, IH2, IH3, H3. done.
Qed.

(** Along every history from the first page load the upgrade event has
    fired once, however often the page was reloaded; the database holds
    the two stores, each once; the promise of the current page load holds
    the connection opened last; and on any stored database at all, opening
    a second time leaves the database as the first opening left it. *)
Lemma upgrade_once (calls : list Call) :
  let st := run calls boot in
  upgrades st.2 = 1%nat ∧
  objectStoreNames (database st.2) = [CATEGORIES_STORE; ITEMS_STORE] ∧
  NoDup (objectStoreNames (database st.2)) ∧
  dbPromise st.1 = Fulfilled (mkConnection (reloads calls)) ∧
  connections st.2 = S (reloads calls) ∧
  database (step Reload (step Reload st)).2 = database (step Reload st).2 ∧
  ∀ f, database (open DB_VERSION onupgradeneeded
                   (open DB_VERSION onupgradeneeded f).2).2
       = database (open DB_VERSION onupgradeneeded f).2.
Proof.
  intros st. pose proof (reachable_opened calls) as Hop. fold st in Hop.
  destruct (run_connections calls boot 0 boot_opened eq_refl eq_refl)
    as (H1 & H2 & H3). fold st in H1, H2, H3.
  pose proof Hop as [_ [_ Hn _ _ _]].
  split; [by rewrite H3|]. split; [done|].
  split.
  { rewrite Hn. apply NoDup_cons. split; [|apply NoDup_singleton].
    by intros [=]%list_elem_of_singleton. }
  split; [done|]. split; [done|].
  split; [|apply open_database_idempotent].
  rewrite (reload_opened _ (step_opened Reload st Hop)).
  by rewrite (reload_opened _ Hop).
Qed.

End ServiceFacts.

(** ** Opening: one connection for every caller *)

Module OpeningFacts.
Import IDB DatabaseService StoreFacts ServiceFacts Opening.

(** A method call keeps the service and opens no connection. *)
Lemma step_method m this f :
  step (to_call m) (this, f) = (this, (step (to_call m) (this, f)).2) ∧
  connections (step (to_call m) (this, f)).2 = connections f ∧
  upgrades (step (to_call m) (this, f)).2 = upgrades f.
Proof.
  destruct m; cbn [to_call step snd]; (split; [done|]); try done;
    unfold addCategory, addItem, deleteCategory, deleteItem, getStore, request;
    destruct (dbPromise this); try done; destruct (contains _ _); try done;
    cbn [os_mode os_ref].
  - by destruct (add readwrite category _).
  - by destruct (add readwrite item _).
Qed.

(** The transaction of a method is on the connection [dbPromise] holds. *)
Lemma opened_by_db m this f tx :
  tx ∈ opened_by m this f → dbPromise this = Fulfilled (tx_db tx).
Proof.
  destruct m; cbn [opened_by]; unfold getStore;
    (destruct (dbPromise this) as [db|]; [|by intros ?%elem_of_nil]);
    (destruct (contains _ _); [|by intros ?%elem_of_nil]);
    by intros ->%list_elem_of_singleton.
Qed.

Lemma opened_by_opened m st conn :
  opened st → dbPromise st.1 = Fulfilled conn →
  ∃ tx, opened_by m st.1 st.2 = [tx] ∧ tx_db tx = conn.
Proof.
  destruct st as [this f]. intros [_ [_ Hn _ _ _]] Hp. cbn [fst snd] in *.
  destruct m; cbn [opened_by]; unfold getStore; rewrite Hp, Hn; cbn; by eexists.
Qed.

(** What the open request of the constructor can do to the storage. *)
Lemma constructor_outcome f :
  (∀ conn, dbPromise (constructor (Some f)).1 = Fulfilled conn →
           conn = mkConnection (connections f)) ∧
  (connections (default f (constructor (Some f)).2) ≤ S (connections f))%nat ∧
  (upgrades (default f (constructor (Some f)).2) ≤ S (upgrades f))%nat.
Proof.
  unfold constructor, open.
  repeat (case_match; simplify_eq/=); (split; [by intros ? [= <-]|]); lia.
Qed.

Lemma constructor_opened st :
  opened st →
  constructor (Some st.2)
  = (mk (Fulfilled (mkConnection (connections st.2))),
     Some (mkFactory (database st.2) (S (connections st.2)) (upgrades st.2))).
Proof.
  destruct st as [this f]. intros [Hp [Hv _ _ _ _]]. simpl in *.
  unfold open. rewrite Hv. done.
Qed.

Lemma play_events_app es1 es2 pg : play (es1 ++ es2) pg = play es2 (play es1 pg).
Proof. revert pg. induction es1 as [|e es1 IH]; intros pg; [done|]. apply IH. Qed.

Lemma play_pending ms aw f txs :
  play (Invoke <$> ms) (mkPage Pending aw f txs) = mkPage Pending (aw ++ ms) f txs.
Proof.
  revert aw. induction ms as [|m ms IH]; intros aw; [by rewrite app_nil_r|].
  cbn. rewrite IH. by rewrite <- app_assoc.
Qed.

Lemma perform_promise p m pg : promise (perform p m pg) = promise pg.
Proof. done. Qed.

Lemma resume_promise p ms pg : promise (resume p ms pg) = promise pg.
Proof.
  revert pg. induction ms as [|m ms IH]; intros pg; [done|].
  cbn [resume foldl]. fold (resume p ms (perform p m pg)). by rewrite IH.
Qed.

Lemma play_settled p ms pg :
  promise pg = Settled p → play (Invoke <$> ms) pg = resume p ms pg.
Proof.
  revert pg. induction ms as [|m ms IH]; intros pg Hp; [done|].
  cbn [fmap list_fmap play handle]. rewrite Hp.
  cbn [resume foldl]. fold (resume p ms (perform p m pg)). by apply IH.
Qed.

(** Callers going on with a fulfilled promise over an opened database:
    they act as a history of calls does, each in one transaction on the
    connection of the promise. *)
Lemma resume_opened conn ms pg :
  opened (mk (Fulfilled conn), storage pg) →
  promise (resume (Fulfilled conn) ms pg) = promise pg ∧
  awaiting (resume (Fulfilled conn) ms pg) = awaiting pg ∧
  storage (resume (Fulfilled conn) ms pg)
  = (run (to_call <$> ms) (mk (Fulfilled conn), storage pg)).2 ∧
  tx_db <$> transactions (resume (Fulfilled conn) ms pg)
  = (tx_db <$> transactions pg) ++ replicate (length ms) conn.
Proof.
  revert pg. induction ms as [|m ms IH]; intros pg Hop.
  - cbn. by rewrite app_nil_r.
  - cbn [resume foldl].
    fold (resume (Fulfilled conn) ms (perform (Fulfilled conn) m pg)).
    destruct (step_method m (mk (Fulfilled conn)) (storage pg)) as (Hs & _).
    pose proof (step_opened (to_call m) _ Hop) as Hop'. rewrite Hs in Hop'.
    destruct (IH (perform (Fulfilled conn) m pg) Hop') as (H1 & H2 & H3 & H4).
    rewrite H1, H2, H3, H4.
    destruct (opened_by_opened m _ conn Hop eq_refl) as (tx & Htx & Hdb).
    cbn [fst snd] in Htx.
    cbn [perform promise awaiting storage transactions fmap list_fmap run length
         replicate].
    rewrite <- Hs, Htx, fmap_app. cbn [fmap list_fmap]. rewrite Hdb.
    by rewrite <- app_assoc.
Qed.

(** Callers before and after the opening, over a storage that the
    constructor opens. *)
Lemma around_opening_opened f this f' conn before after :
  constructor (Some f) = (this, Some f') →
  dbPromise this = Fulfilled conn →
  opened (this, f') →
  let pg := play (around_opening before after) (load f) in
  promise pg = Settled (Fulfilled conn) ∧
  awaiting pg = [] ∧
  tx_db <$> transactions pg = replicate (length (before ++ after)) conn ∧
  storage pg = (run (to_call <$> (before ++ after)) (this, f')).2.
Proof.
  intros Hc Hp Hop pg. unfold pg, around_opening, load.
  destruct this as [p]. cbn [dbPromise] in Hp. subst p.
  rewrite play_events_app, play_pending. cbn [app play handle promise awaiting storage
                                        transactions].
  rewrite Hc. cbn [dbPromise default]. change (id f') with f'.
  set (pg0 := mkPage (Settled (Fulfilled conn)) [] f' []).
  destruct (resume_opened conn before pg0 Hop) as (B1 & B2 & B3 & B4).
  assert (opened (mk (Fulfilled conn), storage (resume (Fulfilled conn) before pg0)))
    as Hop1.
  { rewrite B3. pose proof (run_opened (to_call <$> before) _ Hop) as H.
    destruct Hop as [Hr _]. destruct H as [_ H]. by split. }
  rewrite (play_settled (Fulfilled conn)) by (by rewrite B1).
  destruct (resume_opened conn after _ Hop1) as (A1 & A2 & A3 & A4).
  rewrite A1, A2, A3, A4, B1, B2, B3, B4. unfold pg0.
  cbn [promise awaiting transactions storage fmap list_fmap app].
  split; [done|]. split; [done|]. split.
  - by rewrite length_app, replicate_add.
  - rewrite fmap_app. clear.
    set (st := (mk (Fulfilled conn), f')).
    assert (∀ ms st, (run (to_call <$> ms) st).1 = st.1) as Hfst.
    { clear. induction ms as [|m ms IH]; intros [this f]; [done|].
      cbn [fmap list_fmap run]. rewrite IH.
      by destruct (step_method m this f) as (-> & _). }
    assert (∀ cs1 cs2 st, run (cs1 ++ cs2) st = run cs2 (run cs1 st)) as Happ.
    { clear. induction cs1 as [|c cs1 IH]; intros cs2 st; [done|]. apply IH. }
    rewrite Happ. f_equal. f_equal.
    destruct (run (to_call <$> before) st) as [this1 f1] eqn:E.
    pose proof (Hfst before st) as H1. rewrite E in H1. cbn [fst snd] in *.
    by rewrite H1.
Qed.

(** Whatever the interleaving of calls and the opening, and whatever the
    storage holds, every transaction of the page is on the connection its
    one open request produced, and no other connection or upgrade
    happens. *)
Lemma play_shares f schedule :
  let pg := play schedule (load f) in
  (∀ tx, tx ∈ transactions pg → tx_db tx = mkConnection (connections f)) ∧
  (connections (storage pg) ≤ S (connections f))%nat ∧
  (upgrades (storage pg) ≤ S (upgrades f))%nat.
Proof.
  set (inv := λ pg : Page,
    (∀ tx, tx ∈ transactions pg → tx_db tx = mkConnection (connections f)) ∧
    (connections (storage pg) ≤ S (connections f))%nat ∧
    (upgrades (storage pg) ≤ S (upgrades f))%nat ∧
    match promise pg with
    | Pending => storage pg = f
    | Settled p => ∀ conn, p = Fulfilled conn → conn = mkConnection (connections f)
    end).
  assert (∀ p m pg,
            (∀ conn, p = Fulfilled conn → conn = mkConnection (connections f)) →
            (∀ tx, tx ∈ transactions pg → tx_db tx = mkConnection (connections f)) ∧
            (connections (storage pg) ≤ S (connections f))%nat ∧
            (upgrades (storage pg) ≤ S (upgrades f))%nat →
            (∀ tx, tx ∈ transactions (perform p m pg) →
                   tx_db tx = mkConnection (connections f)) ∧
            (connections (storage (perform p m pg)) ≤ S (connections f))%nat ∧
            (upgrades (storage (perform p m pg)) ≤ S (upgrades f))%nat) as Hperform.
  { intros p m pg Hp (Htx & Hc & Hu). cbn [perform transactions storage].
    destruct (step_method m (mk p) (storage pg)) as (_ & -> & ->).
    split; [|done]. intros tx [Hin|Hin]%elem_of_app; [by apply Htx|].
    apply opened_by_db in Hin. cbn in Hin. by apply Hp. }
  assert (∀ p ms pg,
            (∀ conn, p = Fulfilled conn → conn = mkConnection (connections f)) →
            (∀ tx, tx ∈ transactions pg → tx_db tx = mkConnection (connections f)) ∧
            (connections (storage pg) ≤ S (connections f))%nat ∧
            (upgrades (storage pg) ≤ S (upgrades f))%nat →
            (∀ tx, tx ∈ transactions (resume p ms pg) →
                   tx_db tx = mkConnection (connections f)) ∧
            (connections (storage (resume p ms pg)) ≤ S (connections f))%nat ∧
            (upgrades (storage (resume p ms pg)) ≤ S (upgrades f))%nat) as Hresume.
  { intros p ms. induction ms as [|m ms IH]; intros pg Hp H; [done|].
    cbn [resume foldl]. fold (resume p ms (perform p m pg)).
    apply IH; [done|]. by apply Hperform. }
  assert (∀ e pg, inv pg → inv (handle e pg)) as Hstep.
  { intros e pg (Htx & Hc & Hu & Hp). destruct e as [m|]; cbn [handle].
    - destruct (promise pg) as [|p] eqn:E.
      + unfold inv. cbn. done.
      + destruct (Hperform p m pg Hp (conj Htx (conj Hc Hu))) as (H1 & H2 & H3).
        unfold inv. rewrite perform_promise, E. done.
    - destruct (promise pg) as [|p] eqn:E; [|unfold inv; by rewrite E].
      rewrite Hp. destruct (constructor_outcome f) as (Hconn & Hc' & Hu').
      destruct (constructor (Some f)) as [this w]. cbn [fst snd] in *.
      destruct (Hresume (dbPromise this) (awaiting pg)
                  (mkPage (Settled (dbPromise this)) [] (default f w) (transactions pg))
                  Hconn (conj Htx (conj Hc' Hu'))) as (H1 & H2 & H3).
      unfold inv. rewrite resume_promise. done. }
  assert (inv (load f)) as H0.
  { unfold inv, load. cbn. split; [by intros ? ?%elem_of_nil|]. repeat split; lia. }
  cbv zeta. generalize dependent (load f).
  induction schedule as [|e schedule IH]; intros pg0 H0.
  - destruct H0 as (? & ? & ? & _). done.
  - cbn [play]. by apply IH, Hstep.
Qed.

(** C9: opening is idempotent, and every caller shares its one connection.
    Along every history from the first page load the upgrade event has
    fired once, however often the page was reloaded; the database holds
    the two stores, each once; opening a second time leaves any stored
    database as the first opening left it.  On a page load, whatever the
    storage holds and however calls of the methods and the arrival of the
    open request's events interleave, every transaction any caller opens
    is on the connection that the one open request of the constructor
    produced, and no second connection is opened and no second upgrade
    runs.  Callers that call before the request's events arrive (the
    concurrent first callers) wait and are then served, each on that same
    connection, with the same outcome in the storage as if they had called
    after the opening; this holds on the first load of a fresh profile and
    on a load after any history. *)
Theorem open_idempotent
    (calls : list Call) (schedule : list Event) (before after : list Method) :
  let st := run calls boot in
  upgrades st.2 = 1%nat ∧
  objectStoreNames (database st.2) = [CATEGORIES_STORE; ITEMS_STORE] ∧
  NoDup (objectStoreNames (database st.2)) ∧
  dbPromise st.1 = Fulfilled (mkConnection (reloads calls)) ∧
  connections st.2 = S (reloads calls) ∧
  database (step Reload (step Reload st)).2 = database (step Reload st).2 ∧
  (∀ f, database (open DB_VERSION onupgradeneeded
                    (open DB_VERSION onupgradeneeded f).2).2
        = database (open DB_VERSION onupgradeneeded f).2) ∧
  (∀ f, let pg := play schedule (load f) in
        (∀ tx, tx ∈ transactions pg → tx_db tx = mkConnection (connections f)) ∧
        (connections (storage pg) ≤ S (connections f))%nat ∧
        (upgrades (storage pg) ≤ S (upgrades f))%nat) ∧
  (let pg := play (around_opening before after) (load freshFactory) in
   promise pg = Settled (Fulfilled (mkConnection 0)) ∧
   awaiting pg = [] ∧
   tx_db <$> transactions pg
   = replicate (length (before ++ after)) (mkConnection 0) ∧
   connections (storage pg) = 1%nat ∧
   upgrades (storage pg) = 1%nat ∧
   storage pg = (run (to_call <$> (before ++ after)) boot).2) ∧
  (let pg := play (around_opening before after) (load st.2) in
   promise pg = Settled (Fulfilled (mkConnection (S (reloads calls)))) ∧
   awaiting pg = [] ∧
   tx_db <$> transactions pg
   = replicate (length (before ++ after)) (mkConnection (S (reloads calls))) ∧
   connections (storage pg) = S (S (reloads calls)) ∧
   upgrades (storage pg) = 1%nat ∧
   storage pg = (run (to_call <$> (before ++ after)) (step Reload st)).2).
Proof.
  intros st. pose proof (reachable_opened calls) as Hop. fold st in Hop.
  destruct (upgrade_once calls) as (U1 & U2 & U3 & U4 & U5 & U6 & U7).
  fold st in U1, U2, U3, U4, U5, U6.
  do 7 (split; [done|]).
  split; [intros f; apply play_shares|].
  assert (∀ ms st0, opened st0 →
            connections (run (to_call <$> ms) st0).2 = connections st0.2 ∧
            upgrades (run (to_call <$> ms) st0).2 = upgrades st0.2) as Hcount.
  { induction ms as [|m ms IH]; intros [this f] Hop0; [done|].
    cbn [fmap list_fmap run].
    destruct (step_method m this f) as (Hs & Hc & Hu).
    destruct (IH _ (step_opened (to_call m) _ Hop0)) as [-> ->]. done. }
  split.
  - destruct (around_opening_opened freshFactory (mk (Fulfilled (mkConnection 0)))
                (mkFactory bootDatabase 1 1) (mkConnection 0) before after
                eq_refl eq_refl) as (H1 & H2 & H3 & H4).
    { rewrite <- boot_eq. apply boot_opened. }
    rewrite <- boot_eq in H4.
    destruct (Hcount (before ++ after) boot boot_opened) as [Hc Hu].
    cbv zeta. rewrite H1, H2, H3, H4, Hc, Hu. done.
  - pose proof (reload_opened _ Hop) as Hre.
    pose proof (step_opened Reload _ Hop) as Hop'.
    destruct (around_opening_opened st.2 _ _ (mkConnection (S (reloads calls)))
                before after (constructor_opened _ Hop))
      as (H1 & H2 & H3 & H4).
    { cbn [dbPromise]. by rewrite U5. }
    { by rewrite <- Hre. }
    rewrite <- Hre in H4.
    destruct (Hcount (before ++ after) _ Hop') as [Hc Hu].
    cbv zeta. rewrite H1, H2, H3, H4, Hc, Hu, Hre. cbn [snd connections upgrades].
    by rewrite U5, U1.
Qed.

End OpeningFacts.

(** ** The recording session *)

Module SessionFacts.
Import IDB AppComponent.

Implicit Types (this : t) (b : Browser) (st : t * Browser) (es : list Event).

Lemma play_app es1 es2 st : play (es1 ++ es2) st = play es2 (play es1 st).
Proof. revert st. induction es1 as [|e es1 IH]; intros st; simpl; [done|apply IH]. Qed.

(** Between start and stop event only the chunk buffer, the recording flag
    and the recorder change; the buffer grows by the chunks delivered. *)
Lemma play_during es st :
  forallb during_recording es = true →
  audioChunks (play es st).1 = audioChunks st.1 ++ chunks es ∧
  recordedSoundBlob (play es st).1 = recordedSoundBlob st.1 ∧
  recordedSoundUrl (play es st).1 = recordedSoundUrl st.1 ∧
  (play es st).2 = st.2.
Proof.
  revert st. induction es as [|e es IH]; intros [this b] Hd; simpl.
  - by rewrite app_nil_r.
  - simpl in Hd. apply andb_prop in Hd as [He Hd].
    destruct (IH (handle e (this, b)) Hd) as (IH1 & IH2 & IH3 & IH4).
    rewrite IH1, IH2, IH3, IH4. destruct e; try done; simpl.
    + by rewrite <- app_assoc.
    + unfold stopRecording. by repeat case_match.
Qed.

Lemma during_take n es :
  forallb during_recording es = true →
  forallb during_recording (take n es) = true.
Proof.
  revert n. induction es as [|e es IH]; intros [|n] Hd; simpl; try done.
  simpl in Hd. apply andb_prop in Hd as [-> Hd]. by apply IH.
Qed.

Lemma during_data cs : forallb during_recording (DataAvailable <$> cs) = true.
Proof. by induction cs. Qed.

Lemma chunks_data cs : chunks (DataAvailable <$> cs) = cs.
Proof.
  induction cs as [|c cs IH]; [done|].
  change (chunks (DataAvailable <$> c :: cs)) with (c :: chunks (DataAvailable <$> cs)).
  by rewrite IH.
Qed.

Lemma during_recording_session chunks1 chunks2 :
  forallb during_recording (recording_events chunks1 chunks2) = true.
Proof.
  unfold recording_events. rewrite forallb_app. simpl. by rewrite !during_data.
Qed.

Lemma chunks_recording chunks1 chunks2 :
  chunks (recording_events chunks1 chunks2) = chunks1 ++ chunks2.
Proof.
  unfold recording_events, chunks. rewrite omap_app. simpl.
  fold (chunks (DataAvailable <$> chunks1)) (chunks (DataAvailable <$> chunks2)).
  by rewrite !chunks_data.
Qed.

(** Chunks arriving change the chunk buffer only. *)
Lemma play_data cs this b :
  play (DataAvailable <$> cs) (this, b)
  = (set_audioChunks (audioChunks this ++ cs) this, b).
Proof.
  revert this. induction cs as [|c cs IH]; intros this.
  - cbn. rewrite app_nil_r. by destruct this.
  - cbn [fmap list_fmap play handle fst snd]. rewrite IH.
    unfold ondataavailable. cbn. by rewrite <- app_assoc.
Qed.

(** What a granted start leaves behind, whatever came before. *)
Lemma startRecording_granted this b :
  let started := (startRecording granted (this, b)).2 in
  audioChunks started.1 = [] ∧
  recordedSoundBlob started.1 = None ∧
  recordedSoundUrl started.1 = None ∧
  isRecording started.1 = true ∧
  mediaRecorder started.1 = Some (mkRecorder (streams b) recording) ∧
  objectURLs started.2 = objectURLs b ∧
  streams started.2 = S (streams b).
Proof. done. Qed.

(** One session from any state: the blob at the stop event. *)
Lemma session_blob this b stream chunks1 chunks2 :
  let st := play (session stream chunks1 chunks2) (this, b) in
  recordedSoundBlob st.1 = Some (Blob.new (chunks1 ++ chunks2) "audio/wav") ∧
  objectURLs st.2 = objectURLs b ++ [Blob.new (chunks1 ++ chunks2) "audio/wav"] ∧
  streams st.2 = S (streams b).
Proof.
  unfold session. cbn [play handle]. rewrite play_app.
  set (started := (startRecording granted (this, b)).2).
  destruct (play_during (recording_events chunks1 chunks2) started
              (during_recording_session _ _)) as (Hc & _ & _ & Hb).
  rewrite chunks_recording in Hc. simpl in Hc.
  destruct (play (recording_events chunks1 chunks2) started) as [this' b'].
  simpl in *. subst b'. by rewrite Hc.
Qed.

(** C10: a granted start, from any state of the page, empties the chunk
    buffer and clears the captured blob and its URL; and of two recordings
    in a row the second ends with the blob of its own chunks only. *)
Theorem startRecording_discards_previous
    (this : t) (b : Browser) (earlier1 earlier2 chunks1 chunks2 : list Blob.t) :
  let started := (startRecording granted (this, b)).2 in
  let finished :=
    play (session (streams b) earlier1 earlier2
          ++ session (S (streams b)) chunks1 chunks2) (this, b) in
  audioChunks started.1 = [] ∧
  recordedSoundBlob started.1 = None ∧
  recordedSoundUrl started.1 = None ∧
  recordedSoundBlob finished.1
  = Some (Blob.mk (concat (map Blob.bytes (chunks1 ++ chunks2))) "audio/wav").
Proof.
  intros started finished. do 3 (split; [done|]).
  unfold finished. rewrite play_app.
  destruct (play (session (streams b) earlier1 earlier2) (this, b))
    as [this1 b1] eqn:E.
  by destruct (session_blob this1 b1 (S (streams b)) chunks1 chunks2) as (-> & _).
Qed.

(** C6: [stopRecording] with the recording flag off, or without a
    recorder, changes nothing, neither in the component nor in the browser
    (no alert, no console error, no blob); so it is on the page as first
    loaded, where the flag is off and no blob is captured. *)
Theorem stopRecording_noop (this : t) (b : Browser) :
  isRecording this = false ∨ mediaRecorder this = None →
  stopRecording this = this ∧
  handle StopRecording (this, b) = (this, b) ∧
  recordedSoundBlob (stopRecording this) = recordedSoundBlob this ∧
  isRecording (stopRecording this) = isRecording this.
Proof.
  intros Hidle.
  assert (stopRecording this = this) as Heq.
  { unfold stopRecording. destruct Hidle as [-> | ->]; [|done].
    by destruct (mediaRecorder this). }
  simpl. by rewrite !Heq.
Qed.

(** [stopRecording] before any start: the page as first loaded stays as it
    is, not recording and without a blob. *)
Lemma stopRecording_noop_witness :
  (isRecording firstComponent = false ∨ mediaRecorder firstComponent = None) ∧
  handle StopRecording (firstComponent, firstBrowser) = (firstComponent, firstBrowser) ∧
  isRecording (stopRecording firstComponent) = false ∧
  recordedSoundBlob (stopRecording firstComponent) = None.
Proof.
  assert (isRecording firstComponent = false ∨ mediaRecorder firstComponent = None)
    as Hidle by (left; reflexivity).
  split; [exact Hidle|].
  destruct (stopRecording_noop firstComponent firstBrowser Hidle)
    as (_ & Hh & Hb & Hr).
  split; [exact Hh|]. split; [by rewrite Hr|by rewrite Hb].
Defined.

(** C7, as the code has it: when [getUserMedia] is refused, [startRecording]
    signals nothing to its caller.  On the first page, with access denied,
    its promise is fulfilled, not rejected; the user gets an alert. *)
Lemma startRecording_denied_fulfils :
  is_rejected (startRecording (refused NotAllowedError)
                 (firstComponent, firstBrowser)).1 = false ∧
  (startRecording (refused NotAllowedError) (firstComponent, firstBrowser)).1
  = Fulfilled () ∧
  alerts (startRecording (refused NotAllowedError)
            (firstComponent, firstBrowser)).2.2 = [denied_alert].
Proof. done. Qed.

(** C7, amended: when [getUserMedia] is refused, or the recorder cannot be
    built, [startRecording] catches the error: it logs it, shows the alert,
    turns the recording flag off and completes normally, so that its caller
    is given no failure.  After a refusal the component is otherwise as it
    was, and a granted start afterwards records. *)
Theorem startRecording_failure_caught
    (err : DOMException) (this : t) (b : Browser) :
  let refusal := startRecording (refused err) (this, b) in
  let broken := startRecording (unsupported err) (this, b) in
  let retry := startRecording granted refusal.2 in
  (refusal.1 = Fulfilled () ∧
   refusal.2.1 = set_isRecording false this ∧
   alerts refusal.2.2 = alerts b ++ [denied_alert] ∧
   console refusal.2.2
   = console b ++ [("Error starting recording:", Exception err)]) ∧
  (broken.1 = Fulfilled () ∧
   isRecording broken.2.1 = false ∧
   alerts broken.2.2 = alerts b ++ [denied_alert] ∧
   console broken.2.2
   = console b ++ [("Error starting recording:", Exception err)]) ∧
  (retry.1 = Fulfilled () ∧
   isRecording retry.2.1 = true ∧
   mediaRecorder retry.2.1 = Some (mkRecorder (streams b) recording)).
Proof. done. Qed.
End SessionFacts.

(** ** The recording session, with the recorder's events as the browser
    fires them *)

Module CaptureFacts.
Import IDB AppComponent SessionFacts Capture.

Lemma deliver_all_app es1 es2 sd :
  deliver_all (es1 ++ es2) sd = deliver_all es2 (deliver_all es1 sd).
Proof. revert sd. induction es1 as [|e es1 IH]; intros sd; [done|]. apply IH. Qed.

(** A live recorder's chunks reach the page's handler. *)
Lemma delivered_live recorder cs sd :
  recorder ∈ live sd →
  deliver_all (delivered recorder cs) sd
  = mkStudio (play (DataAvailable <$> cs) (page sd)) (live sd) (stopping sd).
Proof.
  revert sd. induction cs as [|c cs IH]; intros sd Hl; [by destruct sd|].
  cbn [delivered fmap list_fmap deliver_all deliver].
  rewrite decide_True by done. fold (delivered recorder cs).
  rewrite IH by done. by destruct sd as [[this b] ? ?].
Qed.

(** With no recorder running, recorder events do nothing. *)
Lemma idle_ignores (noise : list RecorderEvent) sd :
  live sd = [] → stopping sd = [] → deliver_all (Fire <$> noise) sd = sd.
Proof.
  intros Hl Hs. induction noise as [|[recorder data|recorder] noise IH]; [done|..];
    cbn [fmap list_fmap deliver_all deliver].
  - rewrite decide_False; [done|]. rewrite Hl. by intros ?%elem_of_nil.
  - rewrite decide_False; [done|]. rewrite Hs. by intros ?%elem_of_nil.
Qed.

(** As long as [stop()] has been called on no recorder, recorder events
    make no blob and no URL. *)
Lemma unstopped_no_blob (noise : list RecorderEvent) sd :
  stopping sd = [] →
  stopping (deliver_all (Fire <$> noise) sd) = [] ∧
  recordedSoundBlob (page (deliver_all (Fire <$> noise) sd)).1
  = recordedSoundBlob (page sd).1 ∧
  (page (deliver_all (Fire <$> noise) sd)).2 = (page sd).2.
Proof.
  revert sd. induction noise as [|[recorder data|recorder] noise IH]; intros sd Hs;
    [done|..]; cbn [fmap list_fmap deliver_all deliver].
  - case_decide; [|by apply IH].
    destruct (IH (mkStudio (ondataavailable data (page sd).1, (page sd).2)
                           (live sd) (stopping sd)) Hs) as (-> & -> & ->).
    done.
  - rewrite decide_False; [by apply IH|]. rewrite Hs. by intros ?%elem_of_nil.
Qed.

(** A recording before [stopRecording] is called: the page has handled
    the start and the chunks, and the recorder is live. *)
Lemma started_studio this b chunks1 :
  deliver_all (started (streams b) chunks1) (studio (this, b))
  = mkStudio (play (StartRecording granted :: (DataAvailable <$> chunks1)) (this, b))
             [streams b] [].
Proof.
  unfold started, studio.
  cbn [deliver_all deliver page live stopping started_by app snd].
  rewrite delivered_live by (cbn; by left). done.
Qed.

(** A recording up to the call of [stopRecording], chunks after it
    included: the page has handled the same events, and the recorder is
    live and owed its stop event. *)
Lemma stopped_studio this b chunks1 chunks2 :
  deliver_all (stopped (streams b) chunks1 chunks2) (studio (this, b))
  = mkStudio (play (StartRecording granted :: recording_events chunks1 chunks2) (this, b))
             [streams b] [streams b].
Proof.
  unfold stopped, recording_events.
  rewrite deliver_all_app, started_studio.
  cbn [play handle].
  set (begun := (startRecording granted (this, b)).2).
  assert (mediaRecorder begun.1 = Some (mkRecorder (streams b) recording) ∧
          isRecording begun.1 = true) as [Hr Hi] by done.
  destruct begun as [this1 b1]. cbn [fst snd] in Hr, Hi.
  rewrite play_app, !play_data.
  cbn [deliver_all deliver page live stopping fst snd play handle].
  assert (stopped_by (set_audioChunks (audioChunks this1 ++ chunks1) this1)
            (stopRecording (set_audioChunks (audioChunks this1 ++ chunks1) this1))
          = [streams b]) as ->.
  { unfold stopped_by, stopRecording. cbn [mediaRecorder set_audioChunks isRecording].
    rewrite Hr, Hi. done. }
  rewrite filter_cons_True by (by left). cbn [filter list_filter app].
  rewrite delivered_live by (cbn; by left).
  cbn [page live stopping]. done.
Qed.

Lemma finished_studio this b chunks1 chunks2 :
  deliver_all (finished (streams b) chunks1 chunks2) (studio (this, b))
  = studio (play (session (streams b) chunks1 chunks2) (this, b)).
Proof.
  unfold finished. rewrite deliver_all_app, stopped_studio.
  cbn [deliver_all deliver stopping live page].
  rewrite decide_True by (by left).
  rewrite !filter_cons_False by (by intros H; apply H).
  unfold session, studio. cbn [play]. rewrite play_app. cbn [play handle]. done.
Qed.

(** C5: one recording from start to stop gives exactly one blob.  On a
    page where no recorder is running, in whatever state it is, let
    [startRecording] be granted and the recorder deliver chunks.  As long
    as [stopRecording] is not called no blob is made and no URL, whatever
    events of recorders the browser is asked to fire: the stop event of the
    recorder cannot come.  When [stopRecording] has been called the blob is
    still not there; the recorder's stop event, which that call brought
    about, makes it: its bytes are those of the chunks delivered since the
    start, before and after the call, in the order they arrived, and its
    type is [audio/wav].  After that no recorder event whatever makes
    another blob or changes this one: one object URL has been made, for
    this blob. *)
Theorem recording_yields_one_blob
    (this : t) (b : Browser) (chunks1 chunks2 : list Blob.t)
    (noise : list RecorderEvent) :
  let recorder := streams b in
  let blob := Blob.mk (concat (map Blob.bytes (chunks1 ++ chunks2))) "audio/wav" in
  let after es := page (deliver_all es (studio (this, b))) in
  recordedSoundBlob (after (started recorder chunks1 ++ (Fire <$> noise))).1 = None ∧
  objectURLs (after (started recorder chunks1 ++ (Fire <$> noise))).2 = objectURLs b ∧
  recordedSoundBlob (after (stopped recorder chunks1 chunks2)).1 = None ∧
  objectURLs (after (stopped recorder chunks1 chunks2)).2 = objectURLs b ∧
  recordedSoundBlob (after (finished recorder chunks1 chunks2)).1 = Some blob ∧
  String.prefix "audio/" (Blob.type blob) = true ∧
  recordedSoundBlob (after (finished recorder chunks1 chunks2 ++ (Fire <$> noise))).1
  = Some blob ∧
  objectURLs (after (finished recorder chunks1 chunks2 ++ (Fire <$> noise))).2
  = objectURLs b ++ [blob].
Proof.
  intros recorder blob after. unfold after, recorder.
  destruct (session_blob this b (streams b) chunks1 chunks2) as (Hb & Hu & _).
  rewrite !deliver_all_app, finished_studio, stopped_studio.
  rewrite (idle_ignores noise (studio (play (session (streams b) chunks1 chunks2)
                                          (this, b)))) by done.
  cbn [studio page].
  destruct (play_during (recording_events chunks1 chunks2)
              (startRecording granted (this, b)).2 (during_recording_session _ _))
    as (_ & Hblob & _ & Hbr).
  cbn [play handle]. rewrite Hblob, Hbr.
  rewrite started_studio.
  match goal with
  | |- context [deliver_all (Fire <$> noise) ?sd] =>
    destruct (unstopped_no_blob noise sd eq_refl) as (_ & -> & ->)
  end.
  cbn [page play handle].
  destruct (play_during (DataAvailable <$> chunks1)
              (startRecording granted (this, b)).2 (during_data _))
    as (_ & -> & _ & ->).
  done.
Qed.

End CaptureFacts.

(** ** Creating records: the service and the forms *)

Module FormFacts.
Import IDB DatabaseService StoreFacts ServiceFacts.

(** C2, as the code has it: nothing validates with an error.  On the first
    page the service stores a category whose name is empty and answers with
    its id; and the form handler, given an empty name, or a name but no
    picture, completes without an error and stores nothing. *)
Lemma addCategory_accepts_empty_name :
  addCategory (Category.mk None "" png) boot.1 boot.2
  = (Fulfilled 1, (step (AddCategory (Category.mk None "" png)) boot).2) ∧
  getCategories boot.1 (step (AddCategory (Category.mk None "" png)) boot).2
  = Fulfilled [Category.mk (Some 1) "" png] ∧
  AppComponent.addCategory (Some "")
    (AppComponent.set_imageFile (Some png) AppComponent.firstComponent,
     AppComponent.firstBrowser)
  = (Fulfilled (),
     (AppComponent.set_imageFile (Some png) AppComponent.firstComponent,
      AppComponent.firstBrowser)) ∧
  AppComponent.addCategory (Some "Animals")
    (AppComponent.firstComponent, AppComponent.firstBrowser)
  = (Fulfilled (), (AppComponent.firstComponent, AppComponent.firstBrowser)).
Proof. repeat split; by vm_compute. Qed.

Lemma addCategory_skipped name this b :
  AppComponent.truthy name = false ∨ AppComponent.imageFile this = None →
  AppComponent.addCategory name (this, b) = (Fulfilled (), (this, b)).
Proof.
  unfold AppComponent.addCategory. intros [Hn|Hf].
  - rewrite Hn. by repeat case_match.
  - rewrite Hf. by repeat case_match.
Qed.

Lemma addItem_skipped name this b :
  AppComponent.truthy name = false ∨ AppComponent.imageFile this = None ∨
  AppComponent.recordedSoundBlob this = None ∨
  AppComponent.selectedCategory this = None →
  AppComponent.addItem name (this, b) = (Fulfilled (), (this, b)).
Proof.
  unfold AppComponent.addItem, AppComponent.addItem_run. intros [Hn|[Hf|[Hs|Hc]]].
  - rewrite Hn. by repeat case_match.
  - rewrite Hf. by repeat case_match.
  - rewrite Hs. by repeat case_match.
  - rewrite Hc. by repeat case_match.
Qed.

(** C2, amended: [DatabaseService.addCategory] and [addItem] validate
    nothing.  In every state the service reaches, a record without id,
    whatever its name and blobs, is stored under the generator's number and
    that number is the answer; only with the generator exhausted does the
    request fail, with the store's own [ConstraintError], and then nothing
    is stored.  The presence checks are the form handlers': with the name
    empty or absent, or no picture (for an item also: no sound, no selected
    category), [AppComponent.addCategory] and [addItem] do not call the
    service and complete without an error. *)
Theorem add_without_validation
    (calls : list Call) (category : Category.t) (item : Item.t) :
  Category.id category = None → Item.id item = None →
  let st := run calls boot in
  let n := currentNumber (categoriesStore (database st.2)) in
  let m := currentNumber (itemsStore (database st.2)) in
  (n ≤ MAX_KEY →
   ∃ f', addCategory category st.1 st.2 = (Fulfilled n, f') ∧
         Category_inject n category ∈ getAll (categoriesStore (database f'))) ∧
  (MAX_KEY < n →
   addCategory category st.1 st.2 = (Rejected (Exception ConstraintError), st.2)) ∧
  (m ≤ MAX_KEY →
   ∃ f', addItem item st.1 st.2 = (Fulfilled m, f') ∧
         Item_inject m item ∈ getAll (itemsStore (database f'))) ∧
  (MAX_KEY < m →
   addItem item st.1 st.2 = (Rejected (Exception ConstraintError), st.2)) ∧
  (∀ name this b,
     AppComponent.truthy name = false ∨ AppComponent.imageFile this = None →
     AppComponent.addCategory name (this, b) = (Fulfilled (), (this, b))) ∧
  (∀ name this b,
     AppComponent.truthy name = false ∨ AppComponent.imageFile this = None ∨
     AppComponent.recordedSoundBlob this = None ∨
     AppComponent.selectedCategory this = None →
     AppComponent.addItem name (this, b) = (Fulfilled (), (this, b))).
Proof.
  intros Hc Hi st n m. pose proof (reachable_opened calls) as Hop. fold st in Hop.
  split; [|split; [|split; [|split; [|split]]]].
  - intros Hn.
    destruct (addCategory_generated st category Hop Hc Hn) as (f' & Hadd & Hall & _).
    exists f'. split; [exact Hadd|]. apply Hall. by left.
  - intros Hn. by apply addCategory_exhausted.
  - intros Hm.
    destruct (addItem_generated st item Hop Hi Hm) as (f' & Hadd & Hall).
    exists f'. split; [exact Hadd|]. apply Hall. by left.
  - intros Hm. by apply addItem_exhausted.
  - intros name this b. apply addCategory_skipped.
  - intros name this b. apply addItem_skipped.
Qed.

(** At the sample history a category and an item with empty names are
    stored, under ids 3 and 2. *)
Lemma add_without_validation_witness :
  Category.id (Category.mk None "" png) = None ∧
  Item.id (Item.mk None 7 "" png wav) = None ∧
  (∃ f', addCategory (Category.mk None "" png)
           (run sample_history boot).1 (run sample_history boot).2
         = (Fulfilled 3, f')) ∧
  (∃ f', addItem (Item.mk None 7 "" png wav)
           (run sample_history boot).1 (run sample_history boot).2
         = (Fulfilled 2, f')).
Proof.
  split; [reflexivity|]. split; [reflexivity|].
  assert (currentNumber (categoriesStore (database (run sample_history boot).2)) = 3)
    as Hn by (vm_compute; reflexivity).
  assert (currentNumber (itemsStore (database (run sample_history boot).2)) = 2)
    as Hm by (vm_compute; reflexivity).
  destruct (add_without_validation sample_history
              (Category.mk None "" png) (Item.mk None 7 "" png wav)
              eq_refl eq_refl) as (Hcat & _ & Hitem & _).
  rewrite Hn in Hcat. rewrite Hm in Hitem. split.
  - destruct Hcat as (f' & Hadd & _); [by vm_compute|]. exists f'. exact Hadd.
  - destruct Hitem as (f' & Hadd & _); [by vm_compute|]. exists f'. exact Hadd.
Defined.

(** The failing branch is not empty: a category stored under the explicit
    id 2^53 exhausts the generator, and the next [addCategory] fails. *)
Lemma generator_exhausted_example :
  let st := run [AddCategory (Category.mk (Some MAX_KEY) "Last" png)] boot in
  (addCategory (Category.mk None "More" png) st.1 st.2).1
  = Rejected (Exception ConstraintError).
Proof. by vm_compute. Qed.

(** *** Deleting from the page *)

(** Confirming the deletion of a listed category: the record goes, the
    list on the page is reloaded without it, the dialog closes and nothing
    is logged. *)
Lemma confirmDeletion_category
    (calls : list Call) (c : Category.t) (id : Z)
    (this : AppComponent.t) (b : AppComponent.Browser) :
  Category.id c = Some id →
  (AppComponent.dbService this, AppComponent.indexedDB b) = run calls boot →
  let confirmed :=
    AppComponent.confirmDeletion (AppComponent.requestDeleteCategory c this, b) in
  confirmed.1 = Fulfilled () ∧
  AppComponent.deleteConfirmation confirmed.2.1 = None ∧
  AppComponent.isDeleting confirmed.2.1 = false ∧
  AppComponent.console confirmed.2.2 = AppComponent.console b ∧
  AppComponent.indexedDB confirmed.2.2
  = (deleteCategory id (AppComponent.dbService this) (AppComponent.indexedDB b)).2 ∧
  ∀ c', c' ∈ AppComponent.categories confirmed.2.1 ↔
        c' ∈ getAll (categoriesStore (database (AppComponent.indexedDB b))) ∧
        Category.id c' ≠ Some id.
Proof.
  intros Hid Hst confirmed.
  pose proof (reachable_opened calls) as Hop. rewrite <- Hst in Hop.
  pose proof (step_opened (DeleteCategory id) _ Hop) as Hop'.
  pose proof (getCategories_opened _ Hop') as Hget.
  pose proof (deleteCategory_opened id _ Hop) as Hd.
  cbn [fst snd step] in Hget, Hop', Hd.
  set (f' := (deleteCategory id (AppComponent.dbService this)
                (AppComponent.indexedDB b)).2) in *.
  assert (deleteCategory id (AppComponent.dbService this) (AppComponent.indexedDB b)
          = (Fulfilled (), f')) as Hdel.
  { unfold f'. by rewrite Hd. }
  assert (∀ c', c' ∈ getAll (categoriesStore (database f')) ↔
                c' ∈ getAll (categoriesStore (database (AppComponent.indexedDB b))) ∧
                Category.id c' ≠ Some id) as Hlist.
  { intros c'. unfold f'. rewrite Hd.
    destruct Hop as [_ [_ _ [Hkp _ Hk _ _ _] _ _]]. cbn [snd] in Hkp, Hk.
    etrans; [apply (getAll_delete id c' _ Hk)|]. by rewrite Hkp. }
  clearbody f'.
  unfold confirmed, AppComponent.confirmDeletion, AppComponent.requestDeleteCategory,
    AppComponent.confirmDeletion_try, AppComponent.data_id,
    AppComponent.loadCategories.
  cbn [AppComponent.deleteConfirmation AppComponent.set_deleteConfirmation
       AppComponent.data AppComponent.type AppComponent.dbService
       AppComponent.set_isDeleting].
  rewrite Hid. cbn [AppComponent.valid_key]. rewrite Hdel.
  cbn [AppComponent.indexedDB AppComponent.set_indexedDB]. rewrite Hget.
  cbn. done.
Qed.

(** *** The scenarios of the specification *)

Example scenario_categories :
  let st := run [AddCategory (Category.mk None "Animals" png);
                 AddCategory (Category.mk None "Vehicles" png)] boot in
  history [AddCategory (Category.mk None "Animals" png);
           AddCategory (Category.mk None "Vehicles" png)] boot = [1; 2] ∧
  getCategories st.1 st.2
  = Fulfilled [Category.mk (Some 1) "Animals" png;
               Category.mk (Some 2) "Vehicles" png] ∧
  getCategories (step Reload st).1 (step Reload st).2 = getCategories st.1 st.2.
Proof. repeat split; by vm_compute. Qed.

Example scenario_items :
  let st := run [AddCategory (Category.mk None "Animals" png);
                 AddCategory (Category.mk None "Vehicles" png)] boot in
  let added := addItem (Item.mk None 1 "Dog" png wav) st.1 st.2 in
  added.1 = Fulfilled 1 ∧
  getItems 1 st.1 added.2 = Fulfilled [Item.mk (Some 1) 1 "Dog" png wav] ∧
  getItems 2 st.1 added.2 = Fulfilled [].
Proof. repeat split; by vm_compute. Qed.

(** An explicit id can take the place of a deleted one; only generated
    ids are never handed out twice. *)
Example explicit_id_reuse :
  let st := run [AddCategory (Category.mk None "Animals" png);
                 DeleteCategory 1] boot in
  (addCategory (Category.mk (Some 1) "Again" png) st.1 st.2).1 = Fulfilled 1 ∧
  (addCategory (Category.mk None "Next" png) st.1 st.2).1 = Fulfilled 2.
Proof. repeat split; by vm_compute. Qed.
End FormFacts.

(** * Further properties *)

(** ** Object stores: order of listings, frames *)

Module StoreExtras.
Import IDB StoreFacts.

Lemma sorted_distinct (l : list Z) :
  StronglySorted Z.le l → NoDup l → StronglySorted Z.lt l.
Proof.
  induction 1 as [|x l Hs IH Hall]; intros Hnd; [constructor|].
  apply NoDup_cons in Hnd as [Hx Hnd]. constructor; [by apply IH|].
  rewrite Forall_forall in Hall |- *. intros y Hy.
  specialize (Hall y Hy). assert (x ≠ y) by (by intros ->). lia.
Qed.

Section store_extras.
Context {V : Type} `{!Storable V}.
Implicit Types (s : ObjectStore V) (ix : Index) (v : V).

#[local] Instance by_key_trans : Transitive (by_key (V := V)).
Proof. intros a b c. unfold by_key. lia. Qed.

#[local] Instance by_key_total : Total (by_key (V := V)).
Proof. intros a b. unfold by_key. lia. Qed.

(** [getAll] lists the records by strictly ascending key, and each value
    carries its key. *)
Lemma getAll_keys s :
  keys_ok s →
  ∃ ks, evaluate (keyPath s) <$> getAll s = Some <$> ks ∧ StronglySorted Z.lt ks.
Proof.
  intros Hk. unfold getAll.
  set (l := merge_sort by_key (map_to_list (records s))).
  exists (l.*1). split.
  - assert (Forall (λ kv, evaluate (keyPath s) kv.2 = Some kv.1) l) as Hall.
    { apply Forall_forall. intros [k v] Hin. unfold l in Hin.
      rewrite merge_sort_Permutation in Hin.
      apply elem_of_map_to_list in Hin. simpl. by apply Hk. }
    clearbody l. induction Hall as [|[k v] l' Hkv _ IH]; [done|].
    csimpl. simpl in Hkv. by rewrite Hkv, IH.
  - apply sorted_distinct.
    + apply (StronglySorted_fmap fst by_key Z.le); [done|].
      apply StronglySorted_merge_sort; apply _.
    + unfold l. rewrite merge_sort_Permutation. apply NoDup_fst_map_to_list.
Qed.

Lemma index_keys_sorted ix q : StronglySorted Z.lt (index_keys ix q).
Proof.
  apply sorted_distinct.
  - unfold index_keys. apply StronglySorted_merge_sort; apply _.
  - unfold index_keys. rewrite merge_sort_Permutation.
    apply NoDup_fmap_2_strong; [|apply NoDup_elements].
    intros [p1 k1] [p2 k2] H1 H2 Heq. simpl in Heq. subst k2.
    apply elem_of_elements, elem_of_filter in H1 as [H1 _].
    apply elem_of_elements, elem_of_filter in H2 as [H2 _].
    simpl in *. congruence.
Qed.

(** [index.getAll] lists the records of an index key by strictly ascending
    primary key, and each value carries its key. *)
Lemma index_getAll_keys name ix q s :
  keys_ok s → index_ok s → indexes s !! name = Some ix →
  ∃ ks, evaluate (keyPath s) <$> index_getAll s ix q = Some <$> ks ∧
        StronglySorted Z.lt ks.
Proof.
  intros Hk Hi Hix. exists (index_keys ix q). split; [|apply index_keys_sorted].
  unfold index_getAll.
  assert (Forall (λ k, is_Some (records s !! k)) (index_keys ix q)) as Hall.
  { apply Forall_forall. intros k Hin.
    apply elem_of_index_keys, (Hi _ _ Hix) in Hin as (v & Hv & _). eauto. }
  induction Hall as [|k ks [v Hv] _ IH]; [done|]. csimpl.
  rewrite Hv. csimpl. by rewrite (Hk _ _ Hv), IH.
Qed.

(** Adding a record changes what an index lists under the record's own
    index key only. *)
Lemma index_getAll_put_other name ix k v n q s :
  index_ok s → indexes s !! name = Some ix → records s !! k = None →
  evaluate (ix_keyPath ix) v ≠ Some q →
  index_getAll (put_record k v n s) (index_add k v ix) q = index_getAll s ix q.
Proof.
  intros Hi Hix Hnone Hne. unfold index_getAll.
  assert (index_keys (index_add k v ix) q = index_keys ix q) as ->.
  { unfold index_keys. do 3 f_equal. simpl. apply set_eq. intros [p k'].
    rewrite !elem_of_filter, elem_of_union. unfold entry_of. simpl.
    split; [|by intros [-> Hin]; auto]. intros [-> [Hin|Hin]]; [done|].
    destruct (evaluate (ix_keyPath ix) v) as [p'|]; [|by apply not_elem_of_empty in Hin].
    by apply elem_of_singleton in Hin as [= -> ->]. }
  assert (Forall (λ k', k' ≠ k) (index_keys ix q)) as Hall.
  { apply Forall_forall. intros k' Hin.
    apply elem_of_index_keys, (Hi _ _ Hix) in Hin as (v' & Hv' & _). congruence. }
  simpl. induction Hall as [|k' ks Hk' _ IH]; [done|]. csimpl.
  rewrite lookup_insert_ne by done. by rewrite IH.
Qed.

End store_extras.

End StoreExtras.

(** ** The service: failure, upgrade, order, frames, persistence *)

Module ServiceExtras.
Import IDB DatabaseService StoreFacts ServiceFacts StoreExtras Histories.

Implicit Types (this : t) (f : IDBFactory) (db : IDBDatabase) (st : t * IDBFactory).

#[local] Arguments add : simpl never.
#[local] Arguments IDB.delete : simpl never.
#[local] Arguments getAll : simpl never.
#[local] Arguments index_getAll : simpl never.

(** X1: in a browser without IndexedDB the constructor's promise is
    rejected with the message ['IndexedDB not supported'], every method of
    the service is rejected with that message and leaves the storage it is
    given untouched, and [ngOnInit] is rejected too, with the page still
    marked as loading. *)
Theorem unsupported_browser_rejects_all
    (f : IDBFactory) (category : Category.t) (item : Item.t) (categoryId : Z)
    (b : AppComponent.Browser) :
  let this := (constructor None).1 in
  let started := AppComponent.ngOnInit (AppComponent.new this, b) in
  dbPromise this = Rejected (Message "IndexedDB not supported") ∧
  getCategories this f = Rejected (Message "IndexedDB not supported") ∧
  getItems categoryId this f = Rejected (Message "IndexedDB not supported") ∧
  addCategory category this f = (Rejected (Message "IndexedDB not supported"), f) ∧
  addItem item this f = (Rejected (Message "IndexedDB not supported"), f) ∧
  started.1 = Rejected (Message "IndexedDB not supported") ∧
  AppComponent.isLoading started.2.1 = true ∧
  started.2.2 = b.
Proof. done. Qed.

Lemma createObjectStore_categories kp ai db :
  CATEGORIES_STORE ∉ objectStoreNames db →
  createObjectStore CATEGORIES_STORE kp ai db
  = inr (mkDatabase (version db) (objectStoreNames db ++ [CATEGORIES_STORE])
                    (emptyStore kp ai) (itemsStore db)).
Proof.
  intros Hn. unfold createObjectStore, contains.
  by rewrite (bool_decide_eq_false_2 _ Hn), decide_True.
Qed.

Lemma createObjectStore_items kp ai db :
  ITEMS_STORE ∉ objectStoreNames db →
  createObjectStore ITEMS_STORE kp ai db
  = inr (mkDatabase (version db) (objectStoreNames db ++ [ITEMS_STORE])
                    (categoriesStore db) (emptyStore kp ai)).
Proof.
  intros Hn. unfold createObjectStore, contains.
  rewrite (bool_decide_eq_false_2 _ Hn), decide_False by done.
  by rewrite decide_True.
Qed.

Lemma onupgradeneeded_present db :
  CATEGORIES_STORE ∈ objectStoreNames db → ITEMS_STORE ∈ objectStoreNames db →
  onupgradeneeded db = inr db.
Proof.
  intros Hc Hi. unfold onupgradeneeded, contains.
  rewrite (bool_decide_eq_true_2 _ Hc). cbn [negb].
  by rewrite (bool_decide_eq_true_2 _ Hi).
Qed.

Lemma onupgradeneeded_items db :
  CATEGORIES_STORE ∈ objectStoreNames db → ITEMS_STORE ∉ objectStoreNames db →
  onupgradeneeded db
  = inr (mkDatabase (version db) (objectStoreNames db ++ [ITEMS_STORE])
                    (categoriesStore db) (itemsStore bootDatabase)).
Proof.
  intros Hc Hi. unfold onupgradeneeded, contains.
  rewrite (bool_decide_eq_true_2 _ Hc). cbn [negb].
  rewrite (bool_decide_eq_false_2 _ Hi). cbn [negb].
  by rewrite createObjectStore_items.
Qed.

Lemma onupgradeneeded_categories db :
  CATEGORIES_STORE ∉ objectStoreNames db → ITEMS_STORE ∈ objectStoreNames db →
  onupgradeneeded db
  = inr (mkDatabase (version db) (objectStoreNames db ++ [CATEGORIES_STORE])
                    (emptyStore "id" true) (itemsStore db)).
Proof.
  intros Hc Hi. unfold onupgradeneeded, contains.
  rewrite (bool_decide_eq_false_2 _ Hc). cbn [negb].
  rewrite createObjectStore_categories by done. cbn [objectStoreNames].
  rewrite bool_decide_eq_true_2; [done|]. apply elem_of_app. by left.
Qed.

Lemma onupgradeneeded_both db :
  CATEGORIES_STORE ∉ objectStoreNames db → ITEMS_STORE ∉ objectStoreNames db →
  onupgradeneeded db
  = inr (mkDatabase (version db)
           ((objectStoreNames db ++ [CATEGORIES_STORE]) ++ [ITEMS_STORE])
           (emptyStore "id" true) (itemsStore bootDatabase)).
Proof.
  intros Hc Hi. unfold onupgradeneeded, contains.
  rewrite (bool_decide_eq_false_2 _ Hc). cbn [negb].
  rewrite createObjectStore_categories by done. cbn [objectStoreNames].
  assert (ITEMS_STORE ∉ objectStoreNames db ++ [CATEGORIES_STORE]) as Hi'.
  { rewrite elem_of_app, list_elem_of_singleton. by intros [?|[=]]. }
  rewrite (bool_decide_eq_false_2 _ Hi'). cbn [negb].
  by rewrite createObjectStore_items.
Qed.

(** X2: the upgrade handler never throws and never wipes a store: on any
    database it succeeds, keeps the version, leaves a store that exists
    under its name exactly as it is, ends with both stores present, and
    running it again changes nothing. *)
Theorem upgrade_keeps_existing_stores (db : IDBDatabase) :
  ∃ db',
    onupgradeneeded db = inr db' ∧
    version db' = version db ∧
    (CATEGORIES_STORE ∈ objectStoreNames db →
     categoriesStore db' = categoriesStore db) ∧
    (ITEMS_STORE ∈ objectStoreNames db → itemsStore db' = itemsStore db) ∧
    CATEGORIES_STORE ∈ objectStoreNames db' ∧
    ITEMS_STORE ∈ objectStoreNames db' ∧
    onupgradeneeded db' = inr db'.
Proof.
  destruct (decide (CATEGORIES_STORE ∈ objectStoreNames db)) as [Hc|Hc];
    destruct (decide (ITEMS_STORE ∈ objectStoreNames db)) as [Hi|Hi];
    eexists;
    (split; [first [by apply onupgradeneeded_present
                   |by apply onupgradeneeded_items
                   |by apply onupgradeneeded_categories
                   |by apply onupgradeneeded_both]|]);
    (split; [done|]); (split; [done|]); (split; [done|]);
    cbn [objectStoreNames];
    (assert (∀ x (l : list string), x ∈ l ++ [x]) as Hlast
       by (intros; apply elem_of_app; right; by apply list_elem_of_singleton));
    (assert (∀ x y (l : list string), x ∈ l → x ∈ l ++ [y]) as Hfront
       by (intros; apply elem_of_app; by left));
    (split; [by auto|]); (split; [by auto|]);
    apply onupgradeneeded_present; cbn [objectStoreNames]; by auto.
Qed.

(** X3: in every state the service reaches, [getCategories] and
    [getItems] list their records by strictly ascending id, and every listed
    record carries an id (so the [id!] of the callers never meets an absent
    id on a listed record). *)
Theorem listings_ascend_by_id (calls : list Call) (categoryId : Z) :
  let st := run calls boot in
  ∃ categories items category_ids item_ids,
    getCategories st.1 st.2 = Fulfilled categories ∧
    Category.id <$> categories = Some <$> category_ids ∧
    StronglySorted Z.lt category_ids ∧
    getItems categoryId st.1 st.2 = Fulfilled items ∧
    Item.id <$> items = Some <$> item_ids ∧
    StronglySorted Z.lt item_ids.
Proof.
  intros st. pose proof (reachable_opened calls) as Hop. fold st in Hop.
  pose proof Hop as [_ [_ _ [Hkc _ Hc _ _ _] [Hki _ Hi _ Hii _] _]].
  destruct (getAll_keys _ Hc) as (kcs & Hcs & Hsc).
  destruct (getItems_opened categoryId st Hop) as (ix & Hix & _ & Hget).
  destruct (index_getAll_keys _ _ categoryId _ Hi Hii Hix) as (kis & His & Hsi).
  rewrite Hkc in Hcs. rewrite Hki in His.
  exists (getAll (categoriesStore (database st.2))),
    (index_getAll (itemsStore (database st.2)) ix categoryId), kcs, kis.
  split; [by apply getCategories_opened|]. done.
Qed.

(** X4: [add] never overwrites.  In every state the service reaches,
    [addCategory] of a category whose id is that of a listed category fails
    with [ConstraintError] and leaves the storage as it was, whatever the
    items store holds; and likewise, on its own, [addItem] of an item whose
    id is that of a stored item. *)
Theorem add_never_overwrites
    (calls : list Call) (category : Category.t) (item : Item.t) :
  let st := run calls boot in
  ((∃ c, c ∈ getAll (categoriesStore (database st.2)) ∧
         Category.id c = Category.id category) →
   addCategory category st.1 st.2 = (Rejected (Exception ConstraintError), st.2)) ∧
  ((∃ i, i ∈ getAll (itemsStore (database st.2)) ∧ Item.id i = Item.id item) →
   addItem item st.1 st.2 = (Rejected (Exception ConstraintError), st.2)).
Proof.
  intros st.
  pose proof (reachable_opened calls) as Hop. fold st in Hop.
  pose proof Hop as [_ [_ _ [Hpc _ Hc _ _ _] [Hpi _ Hi _ _ _] _]].
  split.
  - intros (c & [kc Hkc]%elem_of_getAll & Hidc).
    rewrite (addCategory_opened _ st Hop).
    apply Hc in Hkc as Hevc. rewrite Hpc in Hevc.
    assert (add readwrite category (categoriesStore (database st.2))
            = (Rejected (Exception ConstraintError), categoriesStore (database st.2)))
      as ->.
    { unfold add. rewrite Hpc.
      assert (evaluate "id" category = Some kc) as ->
        by (rewrite <- Hevc; exact (eq_sym Hidc)).
      rewrite decide_True; [done|]. by rewrite Hkc. }
    by destruct st as [? [[] ? ?]].
  - intros (i & [ki Hki]%elem_of_getAll & Hidi).
    rewrite (addItem_opened _ st Hop).
    apply Hi in Hki as Hevi. rewrite Hpi in Hevi.
    assert (add readwrite item (itemsStore (database st.2))
            = (Rejected (Exception ConstraintError), itemsStore (database st.2)))
      as ->.
    { unfold add. rewrite Hpi.
      assert (evaluate "id" item = Some ki) as ->
        by (rewrite <- Hevi; exact (eq_sym Hidi)).
      rewrite decide_True; [done|]. by rewrite Hki. }
    by destruct st as [? [[] ? ?]].
Qed.

(** With one category stored and no item at all, a second category with
    id 1 is refused; at the sample history, where the item with id 1 is
    stored, so is an item with id 1. *)
Lemma add_never_overwrites_witness :
  addCategory (Category.mk (Some 1) "Trains" png)
    (run [AddCategory (Category.mk None "Animals" png)] boot).1
    (run [AddCategory (Category.mk None "Animals" png)] boot).2
  = (Rejected (Exception ConstraintError),
     (run [AddCategory (Category.mk None "Animals" png)] boot).2) ∧
  getAll (itemsStore
            (database (run [AddCategory (Category.mk None "Animals" png)] boot).2))
  = [] ∧
  addItem (Item.mk (Some 1) 2 "Cat" png wav)
    (run sample_history boot).1 (run sample_history boot).2
  = (Rejected (Exception ConstraintError), (run sample_history boot).2).
Proof.
  split; [|split].
  - apply (add_never_overwrites [AddCategory (Category.mk None "Animals" png)]
             (Category.mk (Some 1) "Trains" png) (Item.mk None 0 "" png wav)).
    exists (Category.mk (Some 1) "Animals" png). split; [|reflexivity].
    apply elem_of_getAll. exists 1. vm_compute. reflexivity.
  - vm_compute. reflexivity.
  - apply (add_never_overwrites sample_history
             (Category.mk None "" png) (Item.mk (Some 1) 2 "Cat" png wav)).
    exists (Item.mk (Some 1) 1 "Dog" png wav). split; [|reflexivity].
    apply elem_of_getAll. exists 1. vm_compute. reflexivity.
Defined.

(** X5: the two stores are independent.  Whatever the state, [addCategory]
    leaves the items store and every answer of [getItems] as they were, and
    [addItem] leaves the categories store and the answer of [getCategories]
    as they were: no category is looked up or required when an item is
    added. *)
Theorem add_touches_one_store
    (this : t) (f : IDBFactory) (category : Category.t) (item : Item.t) :
  itemsStore (database (addCategory category this f).2) = itemsStore (database f) ∧
  (∀ categoryId,
     getItems categoryId this (addCategory category this f).2
     = getItems categoryId this f) ∧
  categoriesStore (database (addItem item this f).2) = categoriesStore (database f) ∧
  getCategories this (addItem item this f).2 = getCategories this f.
Proof.
  assert (itemsStore (database (addCategory category this f).2) = itemsStore (database f)
          ∧ objectStoreNames (database (addCategory category this f).2)
            = objectStoreNames (database f)) as [Hi Hni].
  { unfold addCategory, getStore, request. destruct (dbPromise this); [|done].
    destruct (contains _ _); [|done]. cbn [os_mode os_ref].
    by destruct (add readwrite category _). }
  assert (categoriesStore (database (addItem item this f).2)
          = categoriesStore (database f)
          ∧ objectStoreNames (database (addItem item this f).2)
            = objectStoreNames (database f)) as [Hc Hnc].
  { unfold addItem, getStore, request. destruct (dbPromise this); [|done].
    destruct (contains _ _); [|done]. cbn [os_mode os_ref].
    by destruct (add readwrite item _). }
  split; [done|]. split.
  - intros categoryId. unfold getItems, getStore.
    cbn [ref_name ref_get itemsRef os_ref]. rewrite Hni.
    destruct (dbPromise this); [|done]. destruct (contains _ _); [|done].
    cbn [ref_name ref_get itemsRef os_ref]. by rewrite Hi.
  - split; [done|]. unfold getCategories, getStore.
    cbn [ref_name ref_get categoriesRef os_ref]. rewrite Hnc.
    destruct (dbPromise this); [|done]. destruct (contains _ _); [|done].
    cbn [ref_name ref_get categoriesRef os_ref]. by rewrite Hc.
Qed.

Lemma addItem_lists st item :
  opened st → Item.id item = None →
  currentNumber (itemsStore (database st.2)) ≤ MAX_KEY →
  ∃ f' before after,
    addItem item st.1 st.2
    = (Fulfilled (currentNumber (itemsStore (database st.2))), f') ∧
    opened (st.1, f') ∧
    getItems (Item.categoryId item) st.1 st.2 = Fulfilled before ∧
    getItems (Item.categoryId item) st.1 f' = Fulfilled after ∧
    (∀ i, i ∈ after ↔
          i = Item_inject (currentNumber (itemsStore (database st.2))) item ∨
          i ∈ before) ∧
    (Item_inject (currentNumber (itemsStore (database st.2))) item ∉ before) ∧
    ∀ categoryId, categoryId ≠ Item.categoryId item →
                  getItems categoryId st.1 f' = getItems categoryId st.1 st.2.
Proof.
  intros Hop Hid Hle.
  set (n := currentNumber (itemsStore (database st.2))) in *.
  pose proof (step_opened (AddItem item) st Hop) as Hop'.
  pose proof (addItem_opened item st Hop) as Hadd.
  pose proof Hop as [_ [_ _ _ Hi _]]. pose proof Hi as [Hkp _ Hkeys Hgen Hidx _].
  rewrite (add_generated _ _ Hi Hid Hle) in Hadd. fold n in Hadd.
  cbn [fst snd] in Hadd.
  assert (records (itemsStore (database st.2)) !! n = None) as Hnone
    by (by apply fresh_key).
  destruct st as [this f]. cbn [fst snd] in *. cbn [step] in Hop'.
  rewrite Hadd in Hop' |- *. cbn [snd] in Hop'.
  set (f' := mkFactory _ _ _) in *.
  destruct (getItems_characterised (this, f) (Item.categoryId item) Hop)
    as (before & Hb & _ & Hbm).
  destruct (getItems_characterised (this, f') (Item.categoryId item) Hop')
    as (after & Ha & _ & Ham).
  cbn [fst snd] in *.
  exists f', before, after. do 4 (split; [done|]). split; [|split].
  - intros i. rewrite Ham, Hbm. unfold f'. cbn [database itemsStore ref_set itemsRef].
    rewrite (getAll_put _ _ _ _ _ Hnone). split.
    + intros [[->|Hin] Hc]; [by left|by right].
    + intros [->|[Hin Hc]]; [by split; [left|]|by split; [right|]].
  - intros [[k Hk]%elem_of_getAll _]%Hbm. apply Hkeys in Hk as Hev.
    rewrite Hkp in Hev. simpl in Hev. unfold Item_evaluate in Hev. simpl in Hev.
    assert (k = n) as -> by congruence. congruence.
  - intros categoryId Hne.
    destruct (getItems_opened categoryId (this, f) Hop) as (ix & Hix & Hp & Hg).
    destruct (getItems_opened categoryId (this, f') Hop') as (ix' & Hix' & _ & Hg').
    cbn [fst snd] in *. rewrite Hg, Hg'. f_equal.
    unfold f' in Hix' |- *. cbn [database itemsStore ref_set itemsRef] in Hix' |- *.
    cbn [indexes put_record] in Hix'. rewrite lookup_fmap, Hix in Hix'.
    injection Hix' as <-.
    apply (index_getAll_put_other "categoryId"); try done.
    rewrite Hp. simpl. unfold Item_evaluate. simpl. congruence.
Qed.

(** X6: adding an item and listing its category.  In every state the
    service reaches, with the items' key generator not exhausted, [addItem]
    of an item without id answers with an id, and [getItems] of the item's
    [categoryId] then lists the item under that id besides what it listed
    before, while for every other category it answers exactly as before.
    Whether a category with that id exists plays no part. *)
Theorem addItem_then_getItems (calls : list Call) (item : Item.t) :
  let st := run calls boot in
  Item.id item = None →
  currentNumber (itemsStore (database st.2)) ≤ MAX_KEY →
  ∃ id f' before after,
    addItem item st.1 st.2 = (Fulfilled id, f') ∧
    getItems (Item.categoryId item) st.1 st.2 = Fulfilled before ∧
    getItems (Item.categoryId item) st.1 f' = Fulfilled after ∧
    (∀ i, i ∈ after ↔ i = Item_inject id item ∨ i ∈ before) ∧
    (Item_inject id item ∉ before) ∧
    ∀ categoryId, categoryId ≠ Item.categoryId item →
                  getItems categoryId st.1 f' = getItems categoryId st.1 st.2.
Proof.
  intros st Hid Hle.
  destruct (addItem_lists st item (reachable_opened calls) Hid Hle)
    as (f' & before & after & H1 & _ & H2 & H3 & H4 & H5 & H6).
  by exists (currentNumber (itemsStore (database st.2))), f', before, after.
Qed.

(** At the sample history: a second item for category 1, which was
    deleted, is stored and listed with the first. *)
Lemma addItem_then_getItems_witness :
  Item.id (Item.mk None 1 "Cat" png wav) = None ∧
  currentNumber (itemsStore (database (run sample_history boot).2)) ≤ MAX_KEY ∧
  ∃ id f' after,
    addItem (Item.mk None 1 "Cat" png wav)
      (run sample_history boot).1 (run sample_history boot).2
    = (Fulfilled id, f') ∧
    getItems 1 (run sample_history boot).1 f' = Fulfilled after ∧
    Item.mk (Some id) 1 "Cat" png wav ∈ after.
Proof.
  assert (currentNumber (itemsStore (database (run sample_history boot).2))
          ≤ MAX_KEY) as Hle by (by vm_compute).
  split; [reflexivity|]. split; [exact Hle|].
  destruct (addItem_then_getItems sample_history (Item.mk None 1 "Cat" png wav)
              eq_refl Hle) as (id & f' & before & after & Hadd & _ & Hget & Hm & _).
  exists id, f', after. split; [exact Hadd|]. split; [exact Hget|].
  apply Hm. left. reflexivity.
Defined.

(** X7: a reload loses nothing.  In every state the service reaches,
    building the service anew leaves the database as it is: the listings
    are the same, and [addCategory] answers the same as it would have
    without the reload. *)
Theorem reload_keeps_data
    (calls : list Call) (categoryId : Z) (category : Category.t) :
  let st := run calls boot in
  let reloaded := step Reload st in
  database reloaded.2 = database st.2 ∧
  getCategories reloaded.1 reloaded.2 = getCategories st.1 st.2 ∧
  getItems categoryId reloaded.1 reloaded.2 = getItems categoryId st.1 st.2 ∧
  (addCategory category reloaded.1 reloaded.2).1
  = (addCategory category st.1 st.2).1.
Proof.
  intros st reloaded. pose proof (reachable_opened calls) as Hop. fold st in Hop.
  pose proof (step_opened Reload st Hop) as Hop'. fold reloaded in Hop'.
  assert (database reloaded.2 = database st.2) as Hdb
    by (unfold reloaded; by rewrite (reload_opened _ Hop)).
  split; [done|]. split; [|split].
  - by rewrite (getCategories_opened _ Hop'), (getCategories_opened _ Hop), Hdb.
  - destruct (getItems_opened categoryId _ Hop') as (ix' & Hix' & _ & ->).
    destruct (getItems_opened categoryId _ Hop) as (ix & Hix & _ & ->).
    rewrite Hdb in Hix' |- *. by simplify_eq.
  - by rewrite (addCategory_opened _ _ Hop'), (addCategory_opened _ _ Hop), Hdb.
Qed.

(** *** Generated ids count up *)

Lemma step_other_number c st :
  opened st → adds [c] = 0%nat →
  categoryNumber (step c st) = categoryNumber st ∧ assigned c st = [].
Proof.
  intros Hop Hc. unfold categoryNumber.
  destruct c as [|category|cid|item|id|id|]; try done; destruct st as [this f];
    try done.
  - pose proof (addItem_opened item _ Hop) as H. cbn [fst snd] in H.
    cbn [step]. by rewrite H.
  - pose proof (deleteCategory_opened id _ Hop) as H. cbn [fst snd] in H.
    cbn [step]. by rewrite H.
  - pose proof (deleteItem_opened id _ Hop) as H. cbn [fst snd] in H.
    cbn [step]. by rewrite H.
  - by rewrite (reload_opened _ Hop).
Qed.

Lemma step_add_number category st :
  opened st → Category.id category = None → categoryNumber st ≤ MAX_KEY →
  categoryNumber (step (AddCategory category) st) = categoryNumber st + 1 ∧
  assigned (AddCategory category) st = [categoryNumber st].
Proof.
  intros Hop Hid Hle. unfold assigned, categoryNumber in *.
  destruct st as [this f].
  pose proof (addCategory_opened category _ Hop) as H.
  destruct Hop as [_ [_ _ Hc _ _]]. cbn [fst snd] in *.
  rewrite (add_generated _ _ Hc Hid Hle) in H. cbn [fst snd] in H.
  cbn [step]. by rewrite H.
Qed.

Lemma history_counts_up cs st :
  opened st → forallb generated cs = true →
  categoryNumber st + Z.of_nat (adds cs) - 1 ≤ MAX_KEY →
  history cs st = seqZ (categoryNumber st) (Z.of_nat (adds cs)).
Proof.
  revert st. induction cs as [|c cs IH]; intros st Hop Hg Hle; [done|].
  cbn [forallb] in Hg. apply andb_prop in Hg as [Hc Hg].
  pose proof (step_opened c st Hop) as Hop'. cbn [history].
  destruct (decide (adds [c] = 0%nat)) as [Hz|Hnz].
  - destruct (step_other_number c st Hop Hz) as [Hn ->].
    assert (adds (c :: cs) = adds cs) as Ha by (by destruct c).
    rewrite Ha in *. rewrite IH by (try done; lia). by rewrite Hn.
  - destruct c as [|category| | | | |]; try done.
    apply bool_decide_eq_true in Hc.
    change (adds (AddCategory category :: cs)) with (S (adds cs)) in *.
    destruct (step_add_number category st Hop Hc) as [Hn ->]; [lia|].
    rewrite IH by (try done; lia). rewrite Hn.
    rewrite (seqZ_cons (categoryNumber st)) by lia.
    cbn [app]. do 2 f_equal; lia.
Qed.

(** X8: generated ids count up from 1 and deleting never renumbers.
    Along a history from the first page load in which no [addCategory]
    brings an id of its own, whatever is deleted, listed or reloaded in
    between, the k-th [addCategory] answers with the id k. *)
Theorem generated_ids_count_up (calls : list Call) :
  forallb generated calls = true →
  Z.of_nat (adds calls) ≤ MAX_KEY →
  history calls boot = seqZ 1 (Z.of_nat (adds calls)).
Proof.
  intros Hg Hle. apply (history_counts_up calls boot boot_opened Hg).
  change (categoryNumber boot) with 1. lia.
Qed.

(** At the sample history, with one more category added after the
    deletion and the reload: the ids are 1, 2, 3. *)
Lemma generated_ids_count_up_witness :
  forallb generated (sample_history ++ [AddCategory (Category.mk None "Birds" png)])
  = true ∧
  Z.of_nat (adds (sample_history ++ [AddCategory (Category.mk None "Birds" png)]))
  ≤ MAX_KEY ∧
  history (sample_history ++ [AddCategory (Category.mk None "Birds" png)]) boot
  = [1; 2; 3].
Proof.
  split; [reflexivity|]. split; [by vm_compute|].
  exact (generated_ids_count_up
           (sample_history ++ [AddCategory (Category.mk None "Birds" png)])
           eq_refl ltac:(by vm_compute)).
Defined.
(** *** [getItems] without a category id *)


End ServiceExtras.

(** ** The page: forms, deletion, recording *)

Module ComponentExtras.
Import IDB DatabaseService StoreFacts ServiceFacts ServiceExtras AppComponent
  SessionFacts Navigation.

Implicit Types (this : AppComponent.t) (b : Browser).

#[local] Arguments add : simpl never.
#[local] Arguments IDB.delete : simpl never.
#[local] Arguments getAll : simpl never.
#[local] Arguments index_getAll : simpl never.

(** X9: submitting the category form.  With a name that is not empty and
    a picture chosen, on a service in any state it reaches and with the key
    generator not exhausted, [addCategory] of the page completes; the list
    on the page is then the stored list, which is the former one and the new
    record under its id; the view is the category list and the form is
    empty. *)
Theorem form_addCategory_stores
    (calls : list Call) (name : string) (picture : Blob.t) this b :
  name ≠ "" →
  imageFile this = Some picture →
  (dbService this, indexedDB b) = run calls boot →
  categoryNumber (run calls boot) ≤ MAX_KEY →
  let submitted := AppComponent.addCategory (Some name) (this, b) in
  submitted.1 = Fulfilled () ∧
  DatabaseService.getCategories (dbService this) (indexedDB submitted.2.2)
  = Fulfilled (categories submitted.2.1) ∧
  (∀ c, c ∈ categories submitted.2.1 ↔
        c = Category.mk (Some (categoryNumber (run calls boot))) name picture ∨
        c ∈ getAll (categoriesStore (database (indexedDB b)))) ∧
  currentView submitted.2.1 = View.categories ∧
  imageFile submitted.2.1 = None ∧
  imagePreview submitted.2.1 = None ∧
  recordedSoundBlob submitted.2.1 = None ∧
  recordedSoundUrl submitted.2.1 = None.
Proof.
  intros Hname Himg Hst Hle submitted.
  pose proof (reachable_opened calls) as Hop. rewrite <- Hst in Hop, Hle.
  destruct (addCategory_generated _ (Category.mk None name picture) Hop eq_refl Hle)
    as (f' & Hadd & Hall & _).
  cbn [fst snd] in Hadd, Hall.
  pose proof (step_opened (AddCategory (Category.mk None name picture)) _ Hop) as Hop'.
  cbn [step] in Hop'. rewrite Hadd in Hop'. cbn [snd] in Hop'.
  pose proof (getCategories_opened _ Hop') as Hget. cbn [fst snd] in Hget.
  unfold submitted, AppComponent.addCategory, truthy, loadCategories.
  rewrite Himg, (bool_decide_eq_true_2 _ Hname), Hadd.
  cbn [indexedDB set_indexedDB dbService]. rewrite Hget. cbn.
  split; [done|]. split; [done|]. split; [|done].
  intros c. rewrite <- Hst. apply Hall.
Qed.

(** On the first page, with a picture chosen, the category ["Animals"] is
    stored and the page returns to the list. *)
Lemma form_addCategory_stores_witness :
  "Animals" ≠ "" ∧
  imageFile (set_imageFile (Some png) firstComponent) = Some png ∧
  (dbService (set_imageFile (Some png) firstComponent), indexedDB firstBrowser)
  = run [] boot ∧
  categoryNumber (run [] boot) ≤ MAX_KEY ∧
  (AppComponent.addCategory (Some "Animals")
     (set_imageFile (Some png) firstComponent, firstBrowser)).1 = Fulfilled () ∧
  currentView (AppComponent.addCategory (Some "Animals")
                 (set_imageFile (Some png) firstComponent, firstBrowser)).2.1
  = View.categories.
Proof.
  assert ("Animals" ≠ "") as H1 by done.
  assert ((dbService (set_imageFile (Some png) firstComponent), indexedDB firstBrowser)
          = run [] boot) as H3 by reflexivity.
  assert (categoryNumber (run [] boot) ≤ MAX_KEY) as H4 by (by vm_compute).
  split; [exact H1|]. split; [reflexivity|]. split; [exact H3|]. split; [exact H4|].
  destruct (form_addCategory_stores [] "Animals" png
              (set_imageFile (Some png) firstComponent) firstBrowser
              H1 eq_refl H3 H4) as (Hres & _ & _ & Hview & _).
  split; [exact Hres|exact Hview].
Defined.

(** X10: submitting the item form.  With a name that is not empty, a
    picture, a recorded sound and a selected category that has an id, on a
    service in any state it reaches and with the items' key generator not
    exhausted, the promise of [addItem] is fulfilled as soon as the item is
    stored.  At that moment the item is in the storage with the category's
    id, the picture and the recorded sound, and [getItems] lists it for the
    category; the page itself is exactly as it was before the submission:
    item list, view and form are untouched.  The refresh is left to the
    call of [selectCategory] that is not awaited: whenever that call goes
    on, and whatever the page has become by then, it puts the listing
    taken right after the store on the page, shows the item list and
    empties the form, recording included. *)
Theorem form_addItem_stores
    (calls : list Call) (name : string) (picture sound : Blob.t)
    (category : Category.t) (categoryId : Z) this b :
  name ≠ "" →
  imageFile this = Some picture →
  recordedSoundBlob this = Some sound →
  selectedCategory this = Some category →
  Category.id category = Some categoryId →
  (dbService this, indexedDB b) = run calls boot →
  currentNumber (itemsStore (database (indexedDB b))) ≤ MAX_KEY →
  let submitted := AppComponent.addItem (Some name) (this, b) in
  let id := currentNumber (itemsStore (database (indexedDB b))) in
  ∃ listed refresh,
    submitted.1 = Fulfilled () ∧
    DatabaseService.getItems categoryId (dbService this) (indexedDB submitted.2.2)
    = Fulfilled listed ∧
    Item.mk (Some id) categoryId name picture sound ∈ listed ∧
    submitted.2.1 = this ∧
    addItem_detached (Some name) (this, b) = Some refresh ∧
    ∀ later,
      (refresh later).1 = Fulfilled () ∧
      items (refresh later).2 = listed ∧
      currentView (refresh later).2 = View.items ∧
      selectedCategory (refresh later).2 = selectedCategory later ∧
      imageFile (refresh later).2 = None ∧
      recordedSoundBlob (refresh later).2 = None ∧
      recordedSoundUrl (refresh later).2 = None.
Proof.
  intros Hname Himg Hsnd Hsel Hcid Hst Hle submitted id.
  pose proof (reachable_opened calls) as Hop. rewrite <- Hst in Hop.
  destruct (addItem_lists _ (Item.mk None categoryId name picture sound)
              Hop eq_refl Hle)
    as (f' & before & after & Hadd & Hop' & _ & Hget & Hm & _).
  cbn [fst snd Item.categoryId] in Hadd, Hget, Hm. fold id in Hadd, Hm.
  exists after, (selectCategory_then (Fulfilled after)).
  unfold submitted, addItem_detached, AppComponent.addItem, addItem_run, truthy,
    selectCategory_start, getItems_of.
  rewrite Himg, Hsnd, Hsel, (bool_decide_eq_true_2 _ Hname), Hcid.
  cbn [numbered]. rewrite Hadd.
  cbn [indexedDB set_indexedDB dbService set_selectedCategory]. rewrite Hget.
  cbn [fst snd indexedDB set_indexedDB].
  split; [done|]. split; [done|]. split; [apply Hm; by left|].
  split; [destruct this; cbn in Hsel |- *; by rewrite Hsel|].
  split; [done|]. intros later. by destruct later.
Qed.

(** On the first page with a category, a picture and a sound at hand, the
    item ["Dog"] is stored, and the page still shows the category list it
    showed. *)
Lemma form_addItem_stores_witness :
  "Dog" ≠ "" ∧
  (AppComponent.addItem (Some "Dog")
     (set_selectedCategory (Some (Category.mk (Some 1) "Animals" png))
        (set_recordedSoundBlob (Some wav) (set_imageFile (Some png) firstComponent)),
      firstBrowser)).1 = Fulfilled () ∧
  currentView
    (AppComponent.addItem (Some "Dog")
       (set_selectedCategory (Some (Category.mk (Some 1) "Animals" png))
          (set_recordedSoundBlob (Some wav) (set_imageFile (Some png) firstComponent)),
        firstBrowser)).2.1 = View.categories.
Proof.
  assert ("Dog" ≠ "") as H1 by done. split; [exact H1|].
  destruct (form_addItem_stores [] "Dog" png wav (Category.mk (Some 1) "Animals" png) 1
              (set_selectedCategory (Some (Category.mk (Some 1) "Animals" png))
                 (set_recordedSoundBlob (Some wav)
                    (set_imageFile (Some png) firstComponent)))
              firstBrowser H1 eq_refl eq_refl eq_refl eq_refl eq_refl
              ltac:(by vm_compute))
    as (listed & refresh & Hres & _ & _ & Hpage & _).
  split; [exact Hres|]. rewrite Hpage. reflexivity.
Defined.



(** X11: [confirmDeletion] always settles.  Whatever the state of the page
    and of the storage, its promise is fulfilled and no confirmation is
    left pending; if one was pending the deleting flag is off afterwards,
    and a failure inside shows only as one [console.error] entry; if none
    was pending nothing changes.  No alert is ever shown. *)
Theorem confirmDeletion_always_settles this b :
  let settled := confirmDeletion (this, b) in
  settled.1 = Fulfilled () ∧
  deleteConfirmation settled.2.1 = None ∧
  (is_Some (deleteConfirmation this) → isDeleting settled.2.1 = false) ∧
  (deleteConfirmation this = None → settled.2 = (this, b)) ∧
  (console settled.2.2 = console b ∨
   ∃ error, console settled.2.2 = console b ++ [("Failed to delete:", error)]) ∧
  alerts settled.2.2 = alerts b.
Proof.
  intros settled. unfold settled, confirmDeletion.
  destruct (deleteConfirmation this) as [confirmation|] eqn:Hc.
  - assert (∀ st, (confirmDeletion_try confirmation st).2.2
                  = set_indexedDB (indexedDB (confirmDeletion_try confirmation st).2.2) st.2)
      as Hframe.
    { intros [this0 [f0 al co ur sn ls]]. unfold confirmDeletion_try, loadCategories.
      repeat (case_match; simplify_eq/=; try done). }
    specialize (Hframe (set_isDeleting true this, b)).
    destruct (confirmDeletion_try confirmation (set_isDeleting true this, b))
      as [res [this' b']].
    cbn [fst snd] in *. rewrite Hframe.
    split; [done|]. split; [done|]. split; [done|]. split; [done|].
    destruct res; cbn; [by split; [left|]|]. split; [|done]. right. by eexists.
  - cbn. split; [done|]. split; [done|]. split; [by intros [? ?]|].
    split; [done|]. split; [by left|done].
Qed.

(** *** The recording session *)

(** The state a session ends in. *)
Lemma session_end this b stream chunks1 chunks2 :
  let blob := Blob.new (chunks1 ++ chunks2) "audio/wav" in
  play (session stream chunks1 chunks2) (this, b)
  = (set_recordedSoundUrl (Some (bypassSecurityTrustUrl (length (objectURLs b))))
       (set_recordedSoundBlob (Some blob)
          (set_audioChunks (chunks1 ++ chunks2)
             (set_isRecording false
                (set_mediaRecorder (Some (mkRecorder (streams b) inactive)) this)))),
     mkBrowser (indexedDB b) (alerts b) (console b) (objectURLs b ++ [blob])
               (S (streams b))
               (filter (λ s, s ≠ stream) (streams b :: liveStreams b))).
Proof.
  destruct this, b. unfold session, recording_events.
  cbn [play handle startRecording getUserMedia snd].
  rewrite !play_app. cbn. rewrite play_data. cbn. rewrite play_data. cbn.
  reflexivity.
Qed.

(** X12: a session releases its microphone.  From any state, after a
    recording is started, stopped and finished by the recorder's stop event,
    the stream it was given has no live track left, every other stream is
    as live as before, the recording flag is off and the recorder is
    inactive. *)
Theorem session_releases_stream this b (chunks1 chunks2 : list Blob.t) :
  let finished := play (session (streams b) chunks1 chunks2) (this, b) in
  (streams b ∉ liveStreams finished.2) ∧
  (∀ s, s ≠ streams b → s ∈ liveStreams finished.2 ↔ s ∈ liveStreams b) ∧
  isRecording finished.1 = false ∧
  mediaRecorder finished.1 = Some (mkRecorder (streams b) inactive).
Proof.
  intros finished. unfold finished. rewrite session_end. cbn [fst snd liveStreams].
  split; [|split; [|done]].
  - rewrite list_elem_of_filter. by intros [? _].
  - intros s Hs. rewrite list_elem_of_filter, elem_of_cons. split.
    + by intros [_ [?|?]].
    + intros Hin. split; [done|by right].
Qed.

(** X13: streams that stay live.  When the stream is granted but the
    recorder cannot be built, the stream keeps its live track and the
    recording captured before is gone; and when a recording is started while
    another is on, the page keeps the second recorder only, so that after
    the second session has ended the first stream is live still. *)
Theorem unreleased_streams
    (err : DOMException) this b (chunks1 chunks2 : list Blob.t) :
  let broken := (startRecording (unsupported err) (this, b)).2 in
  let twice :=
    play (StartRecording granted :: session (S (streams b)) chunks1 chunks2)
         (this, b) in
  streams b ∈ liveStreams broken.2 ∧
  recordedSoundBlob broken.1 = None ∧
  mediaRecorder broken.1 = mediaRecorder this ∧
  streams b ∈ liveStreams twice.2 ∧
  (S (streams b) ∉ liveStreams twice.2) ∧
  mediaRecorder twice.1 = Some (mkRecorder (S (streams b)) inactive).
Proof.
  intros broken twice. split; [by left|]. split; [done|]. split; [done|].
  unfold twice. cbn [play handle]. 
  destruct ((startRecording granted (this, b)).2) as [this1 b1] eqn:E.
  assert (streams b1 = S (streams b) ∧ liveStreams b1 = streams b :: liveStreams b)
    as [Hs Hl] by (injection E as <- <-; done).
  rewrite <- Hs, session_end. cbn [fst snd liveStreams]. rewrite Hl, Hs.
  split; [|split; [|done]].
  - rewrite list_elem_of_filter. split; [lia|]. right. by left.
  - rewrite list_elem_of_filter. by intros [? _].
Qed.

(** X14: the URL of a recording stands for the recording.  From any state,
    after a session the page holds a URL that the browser resolves to the
    captured blob; every URL made earlier resolves as before (the URL of a
    previous recording is not revoked). *)
Theorem recording_url_resolves this b (chunks1 chunks2 : list Blob.t) :
  let finished := play (session (streams b) chunks1 chunks2) (this, b) in
  ∃ u blob,
    recordedSoundUrl finished.1 = Some (bypassSecurityTrustUrl u) ∧
    recordedSoundBlob finished.1 = Some blob ∧
    objectURLs finished.2 !! u = Some blob ∧
    objectURLs b !! u = None ∧
    ∀ u' blob', objectURLs b !! u' = Some blob' →
                objectURLs finished.2 !! u' = Some blob'.
Proof.
  intros finished. unfold finished. rewrite session_end. cbn [fst snd objectURLs].
  exists (length (objectURLs b)), (Blob.new (chunks1 ++ chunks2) "audio/wav").
  split; [done|]. split; [done|]. split; [|split].
  - rewrite lookup_app_r by done. by rewrite Nat.sub_diag.
  - by apply lookup_ge_None.
  - intros u' blob' Hu. by apply lookup_app_l_Some.
Qed.

(** X15: leaving a view does not end a recording.  When one of the three
    navigation methods runs while a recording is on, the recorder goes on:
    the recording flag stays set, the stream stays live, the chunks buffered
    so far are kept, and the blob at the stop event holds the chunks from
    before and after; only a captured blob and the chosen picture are
    cleared, as after a finished session. *)
Theorem navigation_keeps_recording
    (n : Nav) this b (chunks1 chunks2 chunks3 : list Blob.t) :
  let started := (startRecording granted (this, b)).2 in
  let before := play (DataAvailable <$> chunks1) started in
  let moved := (navigate n before.1, before.2) in
  let finished :=
    play (recording_events chunks2 chunks3 ++ [Stop (streams b)]) moved in
  isRecording moved.1 = true ∧
  mediaRecorder moved.1 = Some (mkRecorder (streams b) recording) ∧
  streams b ∈ liveStreams moved.2 ∧
  audioChunks moved.1 = chunks1 ∧
  recordedSoundBlob finished.1
  = Some (Blob.new (chunks1 ++ chunks2 ++ chunks3) "audio/wav") ∧
  recordedSoundBlob (navigate n finished.1) = None ∧
  imageFile (navigate n finished.1) = None.
Proof.
  intros started before moved finished.
  unfold finished, moved, before, started, recording_events.
  destruct this, b. cbn [startRecording getUserMedia snd]. cbn.
  rewrite play_data. cbn.
  destruct n; cbn; rewrite !play_app, play_data; cbn; rewrite play_data; cbn;
    rewrite <- app_assoc; (repeat split; try done; by left).
Qed.
End ComponentExtras.

(** ** Object URLs: playing and previewing *)

Module PlaybackExtras.
Import AppComponent Playback.

Implicit Types (m : Media) (b : Browser).

Lemma media_step_made e m : made_only m → made_only (media_step e m).
Proof.
  intros [Hr Hp]. destruct e as [soundBlob|u|blob]; cbn.
  - split; cbn; rewrite ?length_app; cbn.
    + eapply Forall_impl; [exact Hr|]. cbn. lia.
    + constructor; [lia|]. eapply Forall_impl; [exact Hp|]. cbn. lia.
  - case_bool_decide as Hu; [|done]. split; cbn.
    + constructor; [|done]. rewrite Forall_forall in Hp. by apply Hp.
    + rewrite Forall_forall in Hp |- *. intros x [_ Hx]%list_elem_of_filter.
      by apply Hp.
  - split; cbn; rewrite ?length_app; cbn.
    + eapply Forall_impl; [exact Hr|]. cbn. lia.
    + eapply Forall_impl; [exact Hp|]. cbn. lia.
Qed.

Lemma media_run_made es m : made_only m → made_only (media_run es m).
Proof.
  revert m. induction es as [|e es IH]; intros m Hm; [done|].
  cbn. by apply IH, media_step_made.
Qed.

Lemma media_step_kept u blob e m :
  made_only m → kept u blob m → kept u blob (media_step e m).
Proof.
  intros [_ Hp] (Hu & Hr & Hnp).
  assert ((u < length (objectURLs (page m)))%nat) as Hlt
    by (by eapply lookup_lt_Some).
  destruct e as [soundBlob|u'|blob']; cbn.
  - split; [by apply lookup_app_l_Some|]. split; [done|].
    intros [->|Hin]%elem_of_cons; [lia|done].
  - case_bool_decide as Hu'; [|done]. split; [done|]. split; cbn.
    + intros [->|Hin]%elem_of_cons; done.
    + by intros [_ ?]%list_elem_of_filter.
  - split; [by apply lookup_app_l_Some|done].
Qed.

Lemma media_run_kept u blob es m :
  made_only m → kept u blob m → resolve u (media_run es m) = Some blob.
Proof.
  revert m. induction es as [|e es IH]; intros m Hm Hk.
  - destruct Hk as (Hu & Hr & _). unfold resolve. cbn.
    by rewrite bool_decide_eq_false_2.
  - cbn. apply IH; [by apply media_step_made|by apply media_step_kept].
Qed.

(** X16: the URL of a played sound lives as long as the sound.  After any
    playing, ending and previewing on a page, [playItemSound] makes a URL
    that resolves to the sound's blob while the audio element plays; when
    the element ends, the URL is revoked, and every other URL resolves as
    it did before the sound was played. *)
Theorem played_sound_url b (events : list MediaEvent) (soundBlob : Blob.t) :
  let m := media_run events (silent b) in
  let played := playItemSound soundBlob m in
  let ended := media_step (Ended played.1) played.2 in
  resolve played.1 played.2 = Some soundBlob ∧
  played.1 ∈ playing played.2 ∧
  resolve played.1 ended = None ∧
  ∀ u, u ≠ played.1 → resolve u ended = resolve u m.
Proof.
  intros m played ended.
  assert (made_only m) as [Hr Hp].
  { apply media_run_made. split; constructor. }
  assert (length (objectURLs (page m)) ∉ revoked m) as Hfresh.
  { intros Hin. rewrite Forall_forall in Hr. specialize (Hr _ Hin).
    cbn in Hr. lia. }
  unfold ended, played. clearbody m. clear played ended.
  set (u0 := length (objectURLs (page m))) in *.
  assert (u0 ∈ u0 :: playing m) as Hplaying by (by left).
  unfold media_step, playItemSound, createObjectURL. cbn [fst snd playing].
  fold u0. rewrite (bool_decide_eq_true_2 _ Hplaying).
  unfold resolve, onended, revokeObjectURL. cbn [page revoked objectURLs].
  rewrite (bool_decide_eq_false_2 _ Hfresh).
  split; [|split; [done|split]].
  - rewrite lookup_app_r by done. unfold u0. by rewrite Nat.sub_diag.
  - by rewrite bool_decide_eq_true_2 by (by left).
  - intros u Hu.
    destruct (decide (u ∈ revoked m)) as [Hin|Hnin].
    + rewrite (bool_decide_eq_true_2 _ Hin).
      by rewrite bool_decide_eq_true_2 by (by right).
    + rewrite (bool_decide_eq_false_2 _ Hnin).
      rewrite bool_decide_eq_false_2
        by (by intros [->|?]%elem_of_cons).
      destruct (decide (u < length (objectURLs (page m)))%nat) as [Hlt|Hge].
      * by rewrite lookup_app_l.
      * rewrite !lookup_ge_None_2; [done|lia|]. rewrite length_app. cbn.
        unfold u0 in Hu. lia.
Qed.

(** X17: preview and recording URLs are never revoked.  A URL made by
    [createBlobUrl] keeps resolving to its blob whatever is played, ended or
    previewed afterwards; and so does every URL the page held before
    anything was played, such as the URL of a recording. *)
Theorem unplayed_urls_persist
    b (before after : list MediaEvent) (blob : Blob.t) :
  let made := createBlobUrl blob (media_run before (silent b)) in
  resolve (url made.1) (media_run after made.2) = Some blob ∧
  ∀ u blob', objectURLs b !! u = Some blob' →
             resolve u (media_run after (silent b)) = Some blob'.
Proof.
  intros made. set (m := media_run before (silent b)).
  assert (made_only m) as Hm by (apply media_run_made; split; constructor).
  split.
  - apply media_run_kept.
    + by apply (media_step_made (Preview blob)).
    + destruct Hm as [Hr Hp]. unfold made, kept, createBlobUrl, createObjectURL.
      fold m. cbn [fst snd url page objectURLs revoked playing]. split; [|split].
      * rewrite lookup_app_r by done. by rewrite Nat.sub_diag.
      * intros Hin. rewrite Forall_forall in Hr. specialize (Hr _ Hin).
        cbn in Hr. lia.
      * intros Hin. rewrite Forall_forall in Hp. specialize (Hp _ Hin).
        cbn in Hp. lia.
  - intros u blob' Hu. apply media_run_kept; [split; constructor|].
    split; [done|]. split; apply not_elem_of_nil.
Qed.
End PlaybackExtras.

(** ** The service worker *)

Module WorkerExtras.
Import ServiceWorker.

Implicit Types (cs : CacheStorage) (w : Worker) (network : Network)
  (request : Request) (c : gmap string Response).

Lemma cache_of_app_new name cs :
  cache_of name cs = None → cache_of name (cs ++ [(name, ∅)]) = Some ∅.
Proof.
  induction cs as [|[n c] cs IH]; cbn; [by rewrite decide_True|].
  case_decide; [done|]. apply IH.
Qed.

Lemma cache_of_app_other name name' cs :
  name' ≠ name → cache_of name' (cs ++ [(name, ∅)]) = cache_of name' cs.
Proof.
  intros Hne. induction cs as [|[n c] cs IH]; cbn; [by rewrite decide_False|].
  case_decide; [done|]. apply IH.
Qed.

Lemma cache_of_open name cs :
  cache_of name (caches_open name cs) = Some (default ∅ (cache_of name cs)).
Proof.
  unfold caches_open. destruct (cache_of name cs) eqn:E; [done|].
  by apply cache_of_app_new.
Qed.

Lemma cache_of_open_other name name' cs :
  name' ≠ name → cache_of name' (caches_open name cs) = cache_of name' cs.
Proof.
  intros Hne. unfold caches_open. destruct (cache_of name cs); [done|].
  by apply cache_of_app_other.
Qed.

Lemma cache_of_update name f cs :
  cache_of name (cache_update name f cs) = f <$> cache_of name cs.
Proof.
  induction cs as [|[n c] cs IH]; cbn; [done|].
  case_decide; cbn; [by rewrite decide_True|]. by rewrite decide_False.
Qed.

Lemma cache_of_update_other name name' f cs :
  name' ≠ name → cache_of name' (cache_update name f cs) = cache_of name' cs.
Proof.
  intros Hne. induction cs as [|[n c] cs IH]; cbn; [done|].
  case_decide as Hn; cbn.
  - subst n. by rewrite !decide_False by done.
  - case_decide; [done|]. apply IH.
Qed.

Lemma cache_of_whitelisted name cs :
  cache_of name (filter (λ nc, nc.1 ∈ [name]) cs) = cache_of name cs.
Proof.
  induction cs as [|[n c] cs IH]; [done|]. rewrite filter_cons. cbn.
  case_decide as Hin; case_decide as Hn; cbn.
  - by rewrite decide_True.
  - rewrite decide_False by done. apply IH.
  - exfalso. apply Hin. subst n. by apply list_elem_of_singleton.
  - apply IH.
Qed.

Lemma cache_of_not_whitelisted name name' cs :
  name' ≠ name → cache_of name' (filter (λ nc, nc.1 ∈ [name]) cs) = None.
Proof.
  intros Hne. induction cs as [|[n c] cs IH]; [done|]. rewrite filter_cons. cbn.
  case_decide as Hin; [|apply IH]. cbn.
  apply list_elem_of_singleton in Hin. subst n.
  rewrite decide_False by done. apply IH.
Qed.

(** After [activate] the first cache to answer is the current one. *)
Lemma caches_match_whitelisted u cs c r :
  cache_of CACHE_NAME cs = Some c → c !! u = Some r →
  caches_match u (filter (λ nc, nc.1 ∈ [CACHE_NAME]) cs) = Some r.
Proof.
  intros Hc Hr. induction cs as [|[n c'] cs IH]; [done|].
  cbn in Hc. destruct (decide (n = CACHE_NAME)) as [->|Hn].
  - injection Hc as ->.
    rewrite filter_cons_True by (by apply list_elem_of_singleton).
    cbn. unfold cache_match. cbn. by rewrite Hr.
  - rewrite filter_cons_False by (by intros ?%list_elem_of_singleton).
    by apply IH.
Qed.

(** X18: the old caches go, the current one stays.  After [activate] every
    cache left is named [CACHE_NAME], the cache of that name holds what it
    held, no cache of another name can be found, and activating again
    changes nothing. *)
Theorem activate_keeps_current_cache w :
  Forall (λ nc, nc.1 = CACHE_NAME) (caches (activate w)) ∧
  cache_of CACHE_NAME (caches (activate w)) = cache_of CACHE_NAME (caches w) ∧
  (∀ name, name ≠ CACHE_NAME → cache_of name (caches (activate w)) = None) ∧
  activate (activate w) = activate w.
Proof.
  unfold activate. cbn [caches console]. split; [|split; [|split]].
  - apply Forall_forall. intros nc [Hin _]%list_elem_of_filter.
    by apply list_elem_of_singleton in Hin.
  - apply cache_of_whitelisted.
  - intros name Hne. by apply cache_of_not_whitelisted.
  - f_equal. apply list_filter_filter_l. done.
Qed.

Lemma install_outcome network w :
  install network w
  = match network (get "/"), network (get "/index.html") with
    | Some r1, Some r2 =>
      if cacheable r1 && cacheable r2 then
        (true,
         mkWorker (cache_update CACHE_NAME
                     (λ _, <["/index.html" := r2]> (<["/" := r1]> (current_cache w)))
                     (caches_open CACHE_NAME (caches w)))
                  (console w ++ ["Opened cache and caching app shell"]))
      else
        (false, mkWorker (caches_open CACHE_NAME (caches w))
                         (console w ++ ["Opened cache and caching app shell"]))
    | _, _ =>
      (false, mkWorker (caches_open CACHE_NAME (caches w))
                       (console w ++ ["Opened cache and caching app shell"]))
    end.
Proof.
  unfold install, current_cache. rewrite cache_of_open.
  unfold cache_addAll, urlsToCache, cacheable. cbn.
  destruct (network (get "/")) as [r1|]; cbn; [|done].
  destruct (network (get "/index.html")) as [r2|]; cbn; [|done].
  rewrite andb_true_r. by destruct (_ && _).
Qed.

Lemma install_characterised network w :
  let installed := install network w in
  (installed.1 = true ↔
   ∀ u, u ∈ urlsToCache →
        ∃ r, network (get u) = Some r ∧ cacheable r = true) ∧
  (installed.1 = true →
   (∀ u, u ∈ urlsToCache → current_cache installed.2 !! u = network (get u)) ∧
   (∀ u, u ∉ urlsToCache → current_cache installed.2 !! u = current_cache w !! u)) ∧
  (installed.1 = false → current_cache installed.2 = current_cache w) ∧
  (∀ name, name ≠ CACHE_NAME →
           cache_of name (caches installed.2) = cache_of name (caches w)).
Proof.
  intros installed. unfold installed. rewrite install_outcome.
  assert (∀ P : string → Prop, (∀ u, u ∈ urlsToCache → P u) ↔ P "/" ∧ P "/index.html")
    as Hurls.
  { intros P. unfold urlsToCache. split.
    - intros H. split; apply H; [by left|right; by left].
    - intros [H1 H2] u [->|[->|[]%elem_of_nil]%elem_of_cons]%elem_of_cons; done. }
  assert (current_cache (mkWorker (caches_open CACHE_NAME (caches w))
                                  (console w ++ ["Opened cache and caching app shell"]))
          = current_cache w) as Hsame.
  { unfold current_cache. cbn [caches]. by rewrite cache_of_open. }
  destruct (network (get "/")) as [r1|] eqn:E1;
    destruct (network (get "/index.html")) as [r2|] eqn:E2;
    [destruct (cacheable r1) eqn:C1; destruct (cacheable r2) eqn:C2|..];
    cbn [andb fst snd caches].
  all: split; [rewrite Hurls, ?E1, ?E2; split; [try done|];
               try (intros [(? & [= <-] & ?) (? & [= <-] & ?)]; congruence);
               try (intros [(? & ? & ?) (? & ? & ?)]; congruence);
               try (intros _; split; eauto)|].
  all: split; [try done|].
  all: try (split; [try done; by intros _|]).
  all: try (intros name Hne; rewrite ?cache_of_update_other by done;
            by apply cache_of_open_other).
  intros _. unfold current_cache. cbn [caches].
  rewrite cache_of_update, cache_of_open. cbn. fold (current_cache w). split.
  - apply Hurls. split.
    + rewrite lookup_insert_ne by done. by rewrite lookup_insert_eq.
    + by rewrite lookup_insert_eq.
  - intros u Hu. unfold urlsToCache in Hu.
    rewrite !not_elem_of_cons in Hu. destruct Hu as (H1 & H2 & _).
    by rewrite !lookup_insert_ne by done.
Qed.

(** X19: installing is all or nothing.  [install] succeeds exactly when
    both app-shell URLs are answered with an ok response that is not
    partial; then the current cache answers both URLs with what the network
    gave and every other URL as before; otherwise the cache holds what it
    held.  Caches of other names are never touched. *)
Theorem install_all_or_nothing network w :
  let installed := install network w in
  (installed.1 = true ↔
   ∀ u, u ∈ urlsToCache →
        ∃ r, network (get u) = Some r ∧ cacheable r = true) ∧
  (installed.1 = true →
   (∀ u, u ∈ urlsToCache → current_cache installed.2 !! u = network (get u)) ∧
   (∀ u, u ∉ urlsToCache → current_cache installed.2 !! u = current_cache w !! u)) ∧
  (installed.1 = false → current_cache installed.2 = current_cache w) ∧
  (∀ name, name ≠ CACHE_NAME →
           cache_of name (caches installed.2) = cache_of name (caches w)).
Proof. apply install_characterised. Qed.

Lemma whitelisted_head name cs c :
  cache_of name cs = Some c →
  ∃ rest, filter (λ nc, nc.1 ∈ [name]) cs = (name, c) :: rest.
Proof.
  induction cs as [|[n c'] cs IH]; [done|]. cbn [cache_of].
  destruct (decide (n = name)) as [->|Hn].
  - intros [= ->]. rewrite filter_cons_True by (by apply list_elem_of_singleton).
    by eexists.
  - intros Hc. rewrite filter_cons_False by (by intros ?%list_elem_of_singleton).
    by apply IH.
Qed.

(** Fetch events keep the current cache at the head of the caches, and
    what it holds for [/index.html] is the last response put there. *)
Lemma serve_shell visits w c rest r :
  caches w = (CACHE_NAME, c) :: rest → c !! "/index.html" = Some r →
  ∃ c', caches (serve visits w) = (CACHE_NAME, c') :: rest ∧
        c' !! "/index.html" = Some (shell r visits).
Proof.
  revert w c r. induction visits as [|[network request] visits IH];
    intros w c r Hw Hr; [by exists c|].
  cbn [serve]. unfold shell. cbn [foldl]. fold (shell (default r (refreshed (network, request))) visits).
  assert (caches_open CACHE_NAME (caches w) = caches w) as Hopen.
  { unfold caches_open. rewrite Hw. cbn. by rewrite decide_True. }
  unfold fetch, refreshed. cbn [fst snd]. rewrite Hopen.
  destruct (mode request) eqn:Hm.
  1: { destruct (network request); cbn [snd default]; by apply (IH w c r). }
  all: destruct (network request) as [networkResponse|] eqn:Hn; cbn [snd].
  2,4,6: replace (default r _) with r by (by case_decide);
         by apply (IH _ c r).
  all: rewrite Hw; cbn [cache_update]; rewrite decide_True by done.
  all: apply (IH _ (cache_put request networkResponse c)); [done|].
  all: unfold cache_put.
  all: destruct (decide (method request = "GET")) as [Hg|Hg];
         [|rewrite decide_False by (by intros [? _]); done].
  all: destruct (decide (url request = "/index.html")) as [Hu|Hu];
         [rewrite (decide_True (P := _ ∧ _)) by (by split)
         |rewrite (decide_False (P := _ ∧ _)) by (by intros [_ ?])].
  all: destruct (decide (status networkResponse = 206)); cbn [default]; try done.
  all: try (rewrite Hu; by rewrite lookup_insert_eq).
  all: by rewrite lookup_insert_ne.
Qed.

(** X20: the app shell is there offline.  Once [install] has succeeded and
    the worker is activated, and whatever fetch events it has handled
    since, a navigation that the network fails is answered, never with a
    network error, by the response last put under [/index.html] in the
    current cache, whatever page was asked for and whatever caches there
    were before; the worker is left as it was.  That response is the one
    [install] stored until the network answers a GET of [/index.html] that
    is not a navigation: from then on it is that answer, a failure page
    included. *)
Theorem offline_navigation_gets_shell
    network (visits : list (Network * Request)) later request w :
  (install network w).1 = true →
  mode request = navigate →
  later request = None →
  let now := serve visits (activate (install network w).2) in
  ∃ installed,
    network (get "/index.html") = Some installed ∧
    (fetch later request now).1 = Some (shell installed visits) ∧
    (fetch later request now).2 = now ∧
    (Forall (λ visit, refreshed visit = None) visits →
     (fetch later request now).1 = Some installed).
Proof.
  intros Hin Hnav Hoff now.
  destruct (install_characterised network w) as ([Hall _] & Hthen & _).
  destruct (Hall Hin "/index.html") as (r & Hr & _); [right; by left|].
  destruct (Hthen Hin) as [Hget _].
  specialize (Hget "/index.html" ltac:(right; by left)).
  rewrite Hr in Hget. unfold current_cache in Hget.
  destruct (cache_of CACHE_NAME (caches (install network w).2)) as [c|] eqn:Hc;
    [|cbn in Hget; by rewrite lookup_empty in Hget].
  cbn in Hget. destruct (whitelisted_head _ _ _ Hc) as [rest Hhead].
  destruct (serve_shell visits (activate (install network w).2) c rest r Hhead Hget)
    as (c' & Hnow & Hshell).
  fold now in Hnow.
  assert ((fetch later request now).1 = Some (shell r visits)) as Hres.
  { unfold fetch. rewrite Hnav, Hoff. cbn [fst]. rewrite Hnow. cbn.
    unfold cache_match. cbn. by rewrite Hshell. }
  exists r. split; [done|]. split; [done|]. split.
  - unfold fetch. by rewrite Hnav, Hoff.
  - intros Hnone. rewrite Hres. f_equal. clear -Hnone.
    revert r. induction Hnone as [|visit visits Hv _ IH]; intros r; [done|].
    unfold shell. cbn [foldl]. rewrite Hv. apply IH.
Qed.

(** A new worker installs from a server that is up and serves a script;
    later, with no connection, the page [/play] is answered with the
    stored shell.  Had the page fetched [/index.html] while the server was
    failing, the failure page would be the answer. *)
Lemma offline_navigation_gets_shell_witness :
  (install online firstWorker).1 = true ∧
  mode (mkRequest "/play" navigate "GET") = navigate ∧
  offline (mkRequest "/play" navigate "GET") = None ∧
  (fetch offline (mkRequest "/play" navigate "GET")
     (serve [(online, get "/main.js")] (activate (install online firstWorker).2))).1
  = Some (mkResponse 200 "<html>") ∧
  (fetch offline (mkRequest "/play" navigate "GET")
     (serve [(failing, get "/index.html")] (activate (install online firstWorker).2))).1
  = Some (mkResponse 500 "").
Proof.
  assert ((install online firstWorker).1 = true) as Hin by (by vm_compute).
  split; [exact Hin|]. split; [reflexivity|]. split; [reflexivity|].
  split.
  - destruct (offline_navigation_gets_shell online [(online, get "/main.js")] offline
                (mkRequest "/play" navigate "GET") firstWorker Hin eq_refl eq_refl)
      as (installed & Hi & Hres & _).
    injection Hi as <-. exact Hres.
  - destruct (offline_navigation_gets_shell online [(failing, get "/index.html")] offline
                (mkRequest "/play" navigate "GET") firstWorker Hin eq_refl eq_refl)
      as (installed & Hi & Hres & _).
    injection Hi as <-. exact Hres.
Defined.

Lemma fetch_asset network request w :
  mode request ≠ navigate →
  fetch network request w
  = let cached := cache_match request (current_cache w) in
    match network request with
    | Some networkResponse =>
      (Some (default networkResponse cached),
       mkWorker (cache_update CACHE_NAME (cache_put request networkResponse)
                   (caches_open CACHE_NAME (caches w)))
                (console w))
    | None =>
      (cached, mkWorker (caches_open CACHE_NAME (caches w)) (console w))
    end.
Proof.
  intros Hmode. unfold fetch, current_cache. rewrite cache_of_open.
  by destruct (mode request).
Qed.

(** X21: stale while revalidate.  For a GET request that is not a
    navigation and that the network answers with a response that is not
    partial, the page gets the cached response if there is one and the
    network's otherwise, and the cache takes the network's response; so the
    next request for the same URL is answered with that response, whatever
    the network does then. *)
Theorem asset_served_from_last_fetch network later request r w :
  mode request ≠ navigate →
  method request = "GET" →
  network request = Some r →
  status r ≠ 206 →
  let first := fetch network request w in
  first.1 = Some (default r (current_cache w !! url request)) ∧
  current_cache first.2 !! url request = Some r ∧
  (fetch later request first.2).1 = Some r.
Proof.
  intros Hmode Hget Hnet Hpart first.
  assert (current_cache first.2 !! url request = Some r) as Hcached.
  { unfold first. rewrite (fetch_asset _ _ _ Hmode), Hnet. cbn [snd].
    unfold current_cache. cbn [caches]. rewrite cache_of_update, cache_of_open.
    cbn. unfold cache_put. rewrite decide_True by done.
    rewrite decide_False by done. by rewrite lookup_insert_eq. }
  split; [|split; [done|]].
  - unfold first. rewrite (fetch_asset _ _ _ Hmode), Hnet. cbn [fst].
    unfold cache_match. by rewrite decide_True.
  - rewrite (fetch_asset _ _ _ Hmode). cbn zeta. unfold cache_match.
    rewrite decide_True by done. rewrite Hcached.
    by destruct (later request).
Qed.

(** A script fetched once while online is served later without a
    connection. *)
Lemma asset_served_from_last_fetch_witness :
  mode (mkRequest "/main.js" no_cors "GET") ≠ navigate ∧
  status (mkResponse 200 "<html>") ≠ 206 ∧
  (fetch offline (mkRequest "/main.js" no_cors "GET")
     (fetch online (mkRequest "/main.js" no_cors "GET") firstWorker).2).1
  = Some (mkResponse 200 "<html>").
Proof.
  assert (mode (mkRequest "/main.js" no_cors "GET") ≠ navigate) as H1 by done.
  assert (status (mkResponse 200 "<html>") ≠ 206) as H4 by done.
  split; [exact H1|]. split; [exact H4|].
  destruct (asset_served_from_last_fetch online offline
              (mkRequest "/main.js" no_cors "GET") (mkResponse 200 "<html>")
              firstWorker H1 eq_refl eq_refl H4) as (_ & _ & Hres).
  exact Hres.
Defined.

(** X22: what is never cached.  A navigation, a request that is not GET
    and a partial (206) response leave the contents of every cache as they
    were; the page is then answered by the network alone when the request
    is not GET. *)
Theorem uncached_requests network request w :
  mode request = navigate ∨ method request ≠ "GET" ∨
  status <$> network request = Some 206 →
  let answered := fetch network request w in
  current_cache answered.2 = current_cache w ∧
  (∀ name, name ≠ CACHE_NAME →
           cache_of name (caches answered.2) = cache_of name (caches w)) ∧
  (mode request ≠ navigate → method request ≠ "GET" →
   answered.1 = network request).
Proof.
  intros Hwhy answered.
  assert (mode request = navigate ∨ mode request ≠ navigate) as [Hnav|Hmode]
    by (destruct (mode request); auto).
  - unfold answered, fetch. rewrite Hnav.
    by destruct (network request).
  - destruct Hwhy as [?|Hwhy]; [done|].
    unfold answered. rewrite (fetch_asset _ _ _ Hmode). cbn zeta.
    assert (∀ nr, network request = Some nr →
                  cache_put request nr (current_cache w) = current_cache w) as Hput.
    { intros nr Hnr. unfold cache_put. destruct Hwhy as [Hm|Hp].
      - by rewrite decide_False.
      - rewrite Hnr in Hp. injection Hp as Hp. case_decide; [|done].
        by rewrite decide_True. }
    destruct (network request) as [nr|] eqn:Hnr; cbn [fst snd].
    + split; [|split].
      * unfold current_cache at 1. cbn [caches].
        rewrite cache_of_update, cache_of_open. cbn.
        fold (current_cache w). by apply Hput.
      * intros name Hne. cbn [caches]. rewrite cache_of_update_other by done.
        by apply cache_of_open_other.
      * intros _ Hm. unfold cache_match. by rewrite decide_False.
    + split; [|split].
      * unfold current_cache at 1. cbn [caches]. by rewrite cache_of_open.
      * intros name Hne. cbn [caches]. by apply cache_of_open_other.
      * intros _ Hm. unfold cache_match. by rewrite decide_False.
Qed.

(** A form post goes to the network and leaves the cache alone. *)
Lemma uncached_requests_witness :
  (mode (mkRequest "/save" cors "POST") = navigate ∨
   method (mkRequest "/save" cors "POST") ≠ "GET" ∨
   status <$> online (mkRequest "/save" cors "POST") = Some 206) ∧
  current_cache (fetch online (mkRequest "/save" cors "POST") firstWorker).2
  = current_cache firstWorker.
Proof.
  assert (mode (mkRequest "/save" cors "POST") = navigate ∨
          method (mkRequest "/save" cors "POST") ≠ "GET" ∨
          status <$> online (mkRequest "/save" cors "POST") = Some 206) as H
    by (right; left; done).
  split; [exact H|].
  destruct (uncached_requests online (mkRequest "/save" cors "POST") firstWorker H)
    as (Hres & _).
  exact Hres.
Defined.
End WorkerExtras.
